(** * ParaSiF structure solver: the MUI coupling functions

    A shallow embedding of
    [src/CSM/FEniCS/V2019.1.0/structureFSISolver/functions/couplingMUIFn.py]
    (class [couplingMUIFn]) and the properties of its fetch/push exchange
    cycle, load redistribution and window management.

    Conventions of the embedding.
    - A finite [float64] is idealised as a real number ([R]); rounding and
      overflow are not modelled.  The one place where the source can leave
      the finite numbers, a numpy division by a zero area weight, is kept:
      an entry of the applied-load array is a [f64], either [Fin x] or
      [NonFin] (numpy's [inf]/[nan], produced with a RuntimeWarning and no
      exception).
    - The span set-up compares coordinates, and a comparison with NaN is
      false.  Its model over real coordinates is followed, at the end, by
      one over coordinates that are a finite number or NaN ([coord]); on
      numbers the two agree.
    - numpy arrays are mutable objects reached through references: the
      arrays live in a [heap] and a Python name holds a [ref].  Binding a
      second name to the same array copies the reference, not the array.
    - An out-of-range index raises [IndexError] in Python; the embedding
      returns [None] for a call that raises.
    - Calls on the MUI interface [ifaces3d["threeDInterface0"]] are recorded
      as a list of [Event]s, in call order.  Values returned by the
      middleware ([fetch], [fetch_many]) and by numpy/scipy solvers
      ([np.linalg.lstsq], [Rotation.align_vectors], [as_euler]) are inputs of
      the embedding; their documented contracts are stated as predicates.
    - [print] calls that only report values, and the accumulators
      [totForceX/Y/Z] that feed them, are not recorded; the
      [{** FENICS ERROR **}] lines of the span set-up are.
    - A text file that is read is the list of the lines a Python file
      iteration yields; a file that does not exist is [None], and opening it
      raises. *)

From Stdlib Require Import Reals Lra Lia ZArith String Ascii DecimalString.
From stdpp Require Import base list option.

Local Open Scope R_scope.

(** ** Numbers and 3-vectors *)

(** [1e-32], the constant [smallVal] of [getCofR] and [ForceInterp]. *)
Definition smallVal : R := 1e-32.

Record Vec3 : Type := V3 { vx : R; vy : R; vz : R }.

Definition vzero : Vec3 := V3 0 0 0.
Definition vadd (a b : Vec3) : Vec3 := V3 (vx a + vx b) (vy a + vy b) (vz a + vz b).
Definition vsub (a b : Vec3) : Vec3 := V3 (vx a - vx b) (vy a - vy b) (vz a - vz b).
Definition vscale (k : R) (a : Vec3) : Vec3 := V3 (k * vx a) (k * vy a) (k * vz a).
Definition vneg (a : Vec3) : Vec3 := V3 (- vx a) (- vy a) (- vz a).
Definition dot (a b : Vec3) : R := vx a * vx b + vy a * vy b + vz a * vz b.
Definition cross (a b : Vec3) : Vec3 :=
  V3 (vy a * vz b - vz a * vy b) (vz a * vx b - vx a * vz b) (vx a * vy b - vy a * vx b).
(** Squared Euclidean norm, [np.sum(np.power(v,2))]. *)
Definition norm2 (a : Vec3) : R := dot a a.

(** [np.sum(vs, axis=0)] of an (N,3) array. *)
Definition vsum (vs : list Vec3) : Vec3 := foldr vadd vzero vs.
(** [np.sum] of a 1-d array. *)
Definition rsum (xs : list R) : R := foldr Rplus 0 xs.

(** 3x3 matrices by rows. *)
Record Mat3 : Type := M3 { row1 : Vec3; row2 : Vec3; row3 : Vec3 }.

Definition mulMV (A : Mat3) (x : Vec3) : Vec3 :=
  V3 (dot (row1 A) x) (dot (row2 A) x) (dot (row3 A) x).
Definition col1 (A : Mat3) : Vec3 := V3 (vx (row1 A)) (vx (row2 A)) (vx (row3 A)).
Definition col2 (A : Mat3) : Vec3 := V3 (vy (row1 A)) (vy (row2 A)) (vy (row3 A)).
Definition col3 (A : Mat3) : Vec3 := V3 (vz (row1 A)) (vz (row2 A)) (vz (row3 A)).
Definition transpose (A : Mat3) : Mat3 := M3 (col1 A) (col2 A) (col3 A).
Definition mmul (A B : Mat3) : Mat3 :=
  M3 (V3 (dot (row1 A) (col1 B)) (dot (row1 A) (col2 B)) (dot (row1 A) (col3 B)))
     (V3 (dot (row2 A) (col1 B)) (dot (row2 A) (col2 B)) (dot (row2 A) (col3 B)))
     (V3 (dot (row3 A) (col1 B)) (dot (row3 A) (col2 B)) (dot (row3 A) (col3 B))).
Definition midentity : Mat3 := M3 (V3 1 0 0) (V3 0 1 0) (V3 0 0 1).
Definition det (A : Mat3) : R := dot (row1 A) (cross (row2 A) (row3 A)).

(** Unfolds the vector and matrix operations down to real arithmetic. *)
Ltac vcalc :=
  cbv [norm2 dot cross vsub vadd vscale vneg mulMV mmul transpose col1 col2 col3
       det midentity vzero vx vy vz row1 row2 row3] in *.

(** ** Load redistribution: [ForceInterp] (lines 576-594) *)

(** [distance = np.maximum(np.sqrt(np.sum(np.power(Loc,2),axis=1)),smallVal)]
    for one support point, with [Loc = SpprtLoc - CofR]. *)
Definition distance (CofR p : Vec3) : R :=
  Rmax (sqrt (norm2 (vsub p CofR))) smallVal.

Definition ForceInterp (F_in CofR : Vec3) (SpprtLoc : list Vec3) : list Vec3 :=
  let dist := map (distance CofR) SpprtLoc in
  (* W=np.sum(distance**(-1))*distance *)
  let W := map (fun d => rsum (map Rinv dist) * d) dist in
  (* F_out[i] = F_in * W[i]**(-1) *)
  map (fun w => vscale (/ w) F_in) W.

Lemma smallVal_pos : 0 < smallVal.
Proof. unfold smallVal. lra. Qed.

Lemma distance_pos CofR p : 0 < distance CofR p.
Proof.
  unfold distance. eapply Rlt_le_trans; [apply smallVal_pos | apply Rmax_r].
Qed.

Lemma rsum_inv_pos (ds : list R) :
  Forall (fun d => 0 < d) ds -> ds <> [] -> 0 < rsum (map Rinv ds).
Proof.
  induction 1 as [|d ds Hd Hds IH]; [congruence|]. intros _. simpl.
  assert (0 < / d) by (apply Rinv_0_lt_compat; exact Hd).
  destruct ds as [|d' ds']; simpl in *; [lra|].
  assert (0 < / d' + rsum (map Rinv ds')) by (apply IH; congruence). lra.
Qed.

(** The weights [1 / W[i]] of any list of positive distances: scaling a
    vector by each and summing scales it by the sum of the weights. *)
Lemma vsum_scaled (F : Vec3) (S : R) (ds : list R) :
  vsum (map (fun w => vscale (/ w) F) (map (fun d => S * d) ds))
  = vscale (rsum (map (fun d => / (S * d)) ds)) F.
Proof.
  induction ds as [|d ds IH]; simpl.
  - unfold vscale, vzero. f_equal; ring.
  - rewrite IH. unfold vadd, vscale. simpl. f_equal; ring.
Qed.

Lemma rsum_inv_scaled (S : R) (ds : list R) :
  S <> 0 -> Forall (fun d => 0 < d) ds ->
  rsum (map (fun d => / (S * d)) ds) = / S * rsum (map Rinv ds).
Proof.
  intros HS. induction 1 as [|d ds Hd _ IH]; simpl; [ring|].
  rewrite IH. rewrite Rinv_mult. ring.
Qed.

Lemma distances_pos CofR (pts : list Vec3) :
  Forall (fun d => 0 < d) (map (distance CofR) pts).
Proof. apply Forall_map, Forall_forall. intros p _. apply distance_pos. Qed.

(** Every weight divisor [W[i]] is positive, so [W[i]**(-1)] never divides
    by zero and the real-number reading of [ForceInterp] is the float one. *)
Lemma ForceInterp_divisors_pos CofR (SpprtLoc : list Vec3) :
  let dist := map (distance CofR) SpprtLoc in
  Forall (fun w => 0 < w) (map (fun d => rsum (map Rinv dist) * d) dist).
Proof.
  intros dist. destruct SpprtLoc as [|p ps]; [constructor|].
  assert (HS : 0 < rsum (map Rinv dist)).
  { apply rsum_inv_pos; [apply distances_pos | discriminate]. }
  pose proof (distances_pos CofR (p :: ps)) as Hpos. fold dist in Hpos.
  generalize dependent (rsum (map Rinv dist)). intros S HS.
  induction Hpos as [|d ds Hd _ IH]; simpl; constructor; [|exact IH].
  apply Rmult_lt_0_compat; assumption.
Qed.

Lemma ForceInterp_length F c (pts : list Vec3) :
  length (ForceInterp F c pts) = length pts.
Proof. unfold ForceInterp. by rewrite !length_map. Qed.

(** C1. For every non-empty support point set and every center of reaction,
    the per-point forces returned by [ForceInterp] sum, component by
    component, to the resultant [F_in]; the single-point set is the instance
    [SpprtLoc = [p]] (each distance is clamped below by [smallVal]). *)
Theorem ForceInterp_sum (F_in CofR : Vec3) (SpprtLoc : list Vec3) :
  SpprtLoc <> [] ->
  vsum (ForceInterp F_in CofR SpprtLoc) = F_in.
Proof.
  intros Hne. unfold ForceInterp.
  set (dist := map (distance CofR) SpprtLoc).
  assert (Hpos : Forall (fun d => 0 < d) dist) by apply distances_pos.
  assert (HS : 0 < rsum (map Rinv dist)).
  { apply rsum_inv_pos; [exact Hpos|]. subst dist. by destruct SpprtLoc. }
  rewrite vsum_scaled, rsum_inv_scaled by (exact Hpos || lra).
  rewrite Rinv_l by lra.
  destruct F_in as [x y z]. unfold vscale. simpl. f_equal; ring.
Qed.

Lemma ForceInterp_sum_witness :
  vsum (ForceInterp (V3 1 2 3) (V3 0 0 0) [V3 0 0 0]) = V3 1 2 3.
Proof. apply (ForceInterp_sum (V3 1 2 3) (V3 0 0 0) [V3 0 0 0]). discriminate. Defined.

(** X3. A single support point receives the whole resultant. *)
Lemma ForceInterp_single (F_in CofR p : Vec3) :
  ForceInterp F_in CofR [p] = [F_in].
Proof.
  unfold ForceInterp. cbn [map rsum foldr].
  pose proof (distance_pos CofR p) as Hd.
  destruct F_in as [x y z]. vcalc. f_equal. f_equal; field; lra.
Qed.

(** ** Center of reaction: [getCofR] (lines 567-575) *)

Definition residual2 (A : Mat3) (b x : Vec3) : R := norm2 (vsub (mulMV A x) b).

(** Contract of [np.linalg.lstsq(A, B, rcond=None)[0]] (numpy reference:
    the least-squares solution; when several vectors minimise the residual,
    the one of smallest 2-norm).  Norms are compared squared.  numpy keeps
    it up to its rank cut: singular values below machine epsilon times the
    largest count as zero, so on a matrix as ill-conditioned as the one of
    [getCofR] the vector returned for a nonzero right-hand side need not be
    the exact minimiser.  The contract is relied on for a zero right-hand
    side only, where both give the zero vector. *)
Definition is_lstsq (A : Mat3) (b x : Vec3) : Prop :=
  (forall y, residual2 A b x <= residual2 A b y) /\
  (forall y, (forall z, residual2 A b y <= residual2 A b z) -> norm2 x <= norm2 y).

(** [A = np.array([[F[1], -F[0], smallVal], [-F[2], smallVal, F[0]],
                   [smallVal , F[2], -F[1]]])] *)
Definition getCofR_A (F : Vec3) : Mat3 :=
  M3 (V3 (vy F) (- vx F) smallVal)
     (V3 (- vz F) smallVal (vx F))
     (V3 smallVal (vz F) (- vy F)).

(** [B = np.array([[M[2]], [M[1]], [M[0]]])] *)
Definition getCofR_B (M : Vec3) : Vec3 := V3 (vz M) (vy M) (vx M).

(** [lstsq] stands for numpy's solver; the (1,3) row [CofR_old + L.T] is read
    as a 3-vector. *)
Definition getCofR (lstsq : Mat3 -> Vec3 -> Vec3) (F M CofR_old : Vec3) : Vec3 :=
  let A := getCofR_A F in
  let B := getCofR_B M in
  let L := lstsq A B in
  vadd CofR_old L.

Lemma norm2_nonneg (x : Vec3) : 0 <= norm2 x.
Proof. destruct x as [a b c]. vcalc. nra. Qed.

Lemma norm2_zero_inv (x : Vec3) : norm2 x <= 0 -> x = vzero.
Proof.
  destruct x as [a b c]. vcalc. intros H.
  assert (a = 0) by nra. assert (b = 0) by nra. assert (c = 0) by nra.
  by subst.
Qed.

Lemma residual2_zero (A : Mat3) : residual2 A vzero vzero = 0.
Proof.
  destruct A as [[a b c] [d e f] [g h i]].
  unfold residual2. vcalc. ring.
Qed.

(** With a zero right-hand side the minimum-norm least-squares solution is
    the zero vector, whatever the matrix (also when it is singular). *)
Lemma is_lstsq_zero_rhs (A : Mat3) (x : Vec3) : is_lstsq A vzero x <-> x = vzero.
Proof.
  assert (Hmin0 : forall z, residual2 A vzero vzero <= residual2 A vzero z).
  { intros z. rewrite residual2_zero. apply norm2_nonneg. }
  split.
  - intros [_ Hnorm]. apply norm2_zero_inv.
    specialize (Hnorm vzero Hmin0).
    replace (norm2 vzero) with 0 in Hnorm by (vcalc; ring). exact Hnorm.
  - intros ->. split; [exact Hmin0|]. intros y _.
    replace (norm2 vzero) with 0 by (vcalc; ring).
    apply norm2_nonneg.
Qed.

(** C6. Zero moment leaves the center of reaction where it was: for every
    force [F] and previous center [c], the least-squares correction of
    [getCofR F (0,0,0) c] is zero and the result is [c].  The hypothesis is
    numpy's contract for [lstsq] at the system the call builds. *)
Theorem getCofR_zero_moment (lstsq : Mat3 -> Vec3 -> Vec3) (F c : Vec3) :
  is_lstsq (getCofR_A F) (getCofR_B vzero) (lstsq (getCofR_A F) (getCofR_B vzero)) ->
  lstsq (getCofR_A F) (getCofR_B vzero) = vzero /\
  getCofR lstsq F vzero c = c.
Proof.
  intros H. apply is_lstsq_zero_rhs in H.
  split; [exact H|]. unfold getCofR. rewrite H.
  destruct c as [x y z]. vcalc. f_equal; ring.
Qed.

Lemma getCofR_zero_moment_witness :
  (fun _ _ => vzero) (getCofR_A (V3 1 2 3)) (getCofR_B vzero) = vzero /\
  getCofR (fun _ _ => vzero) (V3 1 2 3) vzero (V3 4 5 6) = V3 4 5 6.
Proof.
  apply (getCofR_zero_moment (fun _ _ => vzero) (V3 1 2 3) (V3 4 5 6)).
  apply is_lstsq_zero_rhs. reflexivity.
Defined.

(** ** The applied-load array, the heap and the middleware *)

(** An entry of a float64 array: a finite value or numpy's [inf]/[nan]. *)
Inductive f64 : Type :=
| Fin (x : R)
| NonFin.

Definition fadd (a b : f64) : f64 :=
  match a, b with Fin x, Fin y => Fin (x + y) | _, _ => NonFin end.
Definition fsub (a b : f64) : f64 :=
  match a, b with Fin x, Fin y => Fin (x - y) | _, _ => NonFin end.
Definition fmul (a b : f64) : f64 :=
  match a, b with Fin x, Fin y => Fin (x * y) | _, _ => NonFin end.
(** [a / d] for a finite divisor [d]: numpy returns [inf] or [nan] for
    [d = 0] and raises nothing. *)
Definition fdiv (a : f64) (d : R) : f64 :=
  match a with
  | Fin x => if Req_dec_T d 0 then NonFin else Fin (x / d)
  | NonFin => NonFin
  end.

(** Arrays are reached through references into a heap. *)
Abbreviation ref := nat (only parsing).
Abbreviation heap := (list (list f64)) (only parsing).

(** [a[i]] and [a[i] = v]; [None] is Python's [IndexError]. *)
Definition getitem (h : heap) (a : ref) (i : nat) : option f64 :=
  arr ← h !! a; arr !! i.
Definition setitem (h : heap) (a : ref) (i : nat) (v : f64) : option heap :=
  arr ← h !! a;
  if decide (i < length arr)%nat then Some (<[a := <[i := v]> arr]> h) else None.

(** [a[k::3][p]] is a view: it names entry [3*p + k] of [a]. *)
Definition strided (k p : nat) : nat := (3 * p + k)%nat.

(** Calls on [self.ifaces3d["threeDInterface0"]] and the error lines. *)
Inductive Event : Type :=
| announce_send_span (t_start t_timeout : Z) (box_min box_max : Vec3) (synchronised : bool)
| announce_recv_span (t_start t_timeout : Z) (box_min box_max : Vec3) (synchronised : bool)
| fetch (attr : string) (loc : Vec3) (t : Z)
| fetch_many (attr : string) (locs : list Vec3) (t : Z)
| push (attr : string) (loc : Vec3) (value : R)
| push_many (attr : string) (locs : list Vec3) (values : list R)
| commit (t : Z)
| forget (t : Z)
| set_memory (k : Z)
| print_error (what : string).

(** What the middleware answers to [fetch] and [fetch_many]. *)
Record Iface : Type := {
  fetch_value : string -> Vec3 -> Z -> R;
  fetch_many_values : string -> list Vec3 -> Z -> list R
}.

(** The configuration getters of the solver object that this file calls
    (they are defined elsewhere in the repository and read the run's
    configuration), and its rank. *)
Record Config : Type := {
  iMUICoupling : bool;
  iparallelFSICoupling : bool;
  undRelxCpl : R;
  iMUIFetchMode : Z;
  iMUIFetchMany : bool;
  iMUIPushMode : Z;
  iMUIPushMany : bool;
  iPushX : bool;
  iPushY : bool;
  iPushZ : bool;
  forgetTStepsMUI : Z;
  num_sub_iteration : Z;
  pointSDOFa : Vec3;
  pointSDOFb : Vec3;
  pointSDOFc : Vec3;
  pointSDOFd : Vec3
}.

(** The fields of [self] that [MUI_Fetch] uses: the applied-load array
    (interleaved x, y, z per DOF) and the area weights. *)
Record Self : Type := {
  tF_apply_vec : ref;
  areaf_vec : list R
}.

(** ** Exchange cycle, fetch: [MUI_Fetch] (lines 355-566) *)

(** [for i, p in enumerate(l): body], threading a state, stopping at the
    first exception. *)
Fixpoint for_enumerate {St : Type} (body : nat -> nat -> St -> option St)
    (i : nat) (l : list nat) (s : St) : option St :=
  match l with
  | [] => Some s
  | p :: l' => s' ← body i p s; for_enumerate body (S i) l' s'
  end.

(** [self.tF_apply_vec[k::3][p] += (temp[k::3][p] - self.tF_apply_vec[k::3][p])*undRelxCpl] *)
Definition relax_component (r : R) (tF temp : ref) (k p : nat) (h : heap) : option heap :=
  old ← getitem h tF (strided k p);
  new ← getitem h temp (strided k p);
  cur ← getitem h tF (strided k p);
  setitem h tF (strided k p) (fadd old (fmul (fsub new cur) (Fin r))).

(** [self.tF_apply_vec[k::3][p] = temp[k::3][p]] *)
Definition assign_component (tF temp : ref) (k p : nat) (h : heap) : option heap :=
  v ← getitem h temp (strided k p);
  setitem h tF (strided k p) v.

(** Lines 495-505 and 544-554. *)
Definition blend (cfg : Config) (tF temp : ref) (p : nat) (h : heap) : option heap :=
  if iparallelFSICoupling cfg then
    h1 ← relax_component (undRelxCpl cfg) tF temp 0 p h;
    h2 ← relax_component (undRelxCpl cfg) tF temp 1 p h1;
    relax_component (undRelxCpl cfg) tF temp 2 p h2
  else
    h1 ← assign_component tF temp 0 p h;
    h2 ← assign_component tF temp 1 p h1;
    assign_component tF temp 2 p h2.

(** [self.tF_apply_vec[k::3][p] /= self.areaf_vec[p]] *)
Definition divide_component (self : Self) (k p : nat) (h : heap) : option heap :=
  v ← getitem h (tF_apply_vec self) (strided k p);
  a ← areaf_vec self !! p;
  setitem h (tF_apply_vec self) (strided k p) (fdiv v a).

(** Lines 560-562: the three divisions, with no test of the divisor. *)
Definition area_divide (self : Self) (p : nat) (h : heap) : option heap :=
  h1 ← divide_component self 0 p h;
  h2 ← divide_component self 1 p h1;
  divide_component self 2 p h2.

(** Lines 458-465 and 511-518: zero for a zero area weight, else divide. *)
Definition area_guarded (self : Self) (p : nat) (h : heap) : option heap :=
  a ← areaf_vec self !! p;
  if Req_dec_T a 0 then
    h1 ← setitem h (tF_apply_vec self) (strided 0 p) (Fin 0);
    h2 ← setitem h1 (tF_apply_vec self) (strided 1 p) (Fin 0);
    setitem h2 (tF_apply_vec self) (strided 2 p) (Fin 0)
  else area_divide self p h.

(** numpy broadcasting of a 1-d right-hand side to [n] targets: equal
    length, or a single value repeated; anything else raises. *)
Definition broadcast (n : nat) (vals : list R) : option (list R) :=
  if decide (length vals = n) then Some vals
  else match vals with
       | [v] => Some (replicate n v)
       | _ => None
       end.

Fixpoint assign_each (a : ref) (k : nat) (idx : list nat) (vals : list R)
    (h : heap) : option heap :=
  match idx, vals with
  | [], _ => Some h
  | p :: idx', v :: vals' =>
      h' ← setitem h a (strided k p) (Fin v); assign_each a k idx' vals' h'
  | _ :: _, [] => None
  end.

(** [a[k::3][idx] = vals] with a list of indices (a repeated index keeps
    the last value written). *)
Definition setitem_list (a : ref) (k : nat) (idx : list nat) (vals : list R)
    (h : heap) : option heap :=
  vs ← broadcast (length idx) vals; assign_each a k idx vs h.

Definition origin : Vec3 := V3 0 0 0.

(** The resolved fetch time index (lines 365-368). *)
Definition fetch_iteration (cfg : Config) (total_Sub_Iteration : Z) : Z :=
  if iparallelFSICoupling cfg then (total_Sub_Iteration - 1)%Z
  else total_Sub_Iteration.

Section Fetch.
Variable cfg : Config.
Variable iface : Iface.
(** numpy's least-squares solver, see [is_lstsq]. *)
Variable lstsq : Mat3 -> Vec3 -> Vec3.
Variable self : Self.

(** Resultant mode, lines 445-465: one iteration of the loop. *)
Definition resultant_body (F_out : list Vec3) (i p : nat) (h : heap) : option heap :=
  F ← F_out !! i;
  h1 ← setitem h (tF_apply_vec self) (strided 0 p) (Fin (vx F));
  F ← F_out !! i;
  h2 ← setitem h1 (tF_apply_vec self) (strided 1 p) (Fin (vy F));
  F ← F_out !! i;
  h3 ← setitem h2 (tF_apply_vec self) (strided 2 p) (Fin (vz F));
  area_guarded self p h3.

(** Batched per-DOF mode, lines 494-518: one iteration of the loop. *)
Definition many_body (temp : ref) (i p : nat) (h : heap) : option heap :=
  h1 ← blend cfg (tF_apply_vec self) temp p h;
  area_guarded self p h1.

(** One-call-per-point mode, lines 522-562: one iteration of the loop. *)
Definition single_body (dofs_to_xyz : list Vec3) (t : Z) (temp : ref)
    (i p : nat) (s : heap * list Event) : option (heap * list Event) :=
  let '(h, tr) := s in
  x ← dofs_to_xyz !! i;
  h1 ← setitem h temp (strided 0 p) (Fin (fetch_value iface "forceX" x t));
  x' ← dofs_to_xyz !! i;
  h2 ← setitem h1 temp (strided 1 p) (Fin (fetch_value iface "forceY" x' t));
  x'' ← dofs_to_xyz !! i;
  h3 ← setitem h2 temp (strided 2 p) (Fin (fetch_value iface "forceZ" x'' t));
  h4 ← blend cfg (tF_apply_vec self) temp p h3;
  h5 ← area_divide self p h4;
  Some (h5, tr ++ [fetch "forceX" x t; fetch "forceY" x' t; fetch "forceZ" x'' t]).

Definition MUI_Fetch (dofs_to_xyz : list Vec3) (dofs_fetch_list : list nat)
    (total_Sub_Iteration : Z) (h : heap) : option (heap * list Event) :=
  (* temp_vec_function_temp = self.tF_apply_vec *)
  let temp_vec_function_temp := tF_apply_vec self in
  let t := fetch_iteration cfg total_Sub_Iteration in
  if (0 <=? t)%Z then
    if (iMUIFetchMode cfg =? 1)%Z then
      let CofR := V3 (fetch_value iface "CofRX" origin t)
                     (fetch_value iface "CofRY" origin t)
                     (fetch_value iface "CofRZ" origin t) in
      let forceRecv := V3 (fetch_value iface "forceX" origin t)
                          (fetch_value iface "forceY" origin t)
                          (fetch_value iface "forceZ" origin t) in
      let momentRecv := V3 (fetch_value iface "momentX" origin t)
                           (fetch_value iface "momentY" origin t)
                           (fetch_value iface "momentZ" origin t) in
      let CofR := getCofR lstsq forceRecv momentRecv CofR in
      let F_out := ForceInterp forceRecv CofR dofs_to_xyz in
      h' ← for_enumerate (resultant_body F_out) 0 dofs_fetch_list h;
      Some (h', [fetch "CofRX" origin t; fetch "CofRY" origin t; fetch "CofRZ" origin t;
                 fetch "forceX" origin t; fetch "forceY" origin t; fetch "forceZ" origin t;
                 fetch "momentX" origin t; fetch "momentY" origin t;
                 fetch "momentZ" origin t])
    else if iMUIFetchMany cfg then
      h1 ← setitem_list temp_vec_function_temp 0 dofs_fetch_list
             (fetch_many_values iface "forceX" dofs_to_xyz t) h;
      h2 ← setitem_list temp_vec_function_temp 1 dofs_fetch_list
             (fetch_many_values iface "forceY" dofs_to_xyz t) h1;
      h3 ← setitem_list temp_vec_function_temp 2 dofs_fetch_list
             (fetch_many_values iface "forceZ" dofs_to_xyz t) h2;
      h' ← for_enumerate (many_body temp_vec_function_temp) 0 dofs_fetch_list h3;
      Some (h', [fetch_many "forceX" dofs_to_xyz t; fetch_many "forceY" dofs_to_xyz t;
                 fetch_many "forceZ" dofs_to_xyz t])
    else
      if (0 <=? t)%Z then
        for_enumerate (single_body dofs_to_xyz t temp_vec_function_temp) 0
          dofs_fetch_list (h, [])
      else Some (h, [])
  else Some (h, []).
End Fetch.

(** ** Properties of the heap operations *)

Lemma getitem_lt (h : heap) (a : ref) (i : nat) (v : f64) :
  getitem h a i = Some v -> exists arr, h !! a = Some arr /\ arr !! i = Some v.
Proof.
  unfold getitem. destruct (h !! a) as [arr|]; simpl; [|discriminate].
  intros H. by exists arr.
Qed.

(** Writing back the value an entry already holds changes nothing. *)
Lemma setitem_same (h : heap) (a : ref) (i : nat) (v : f64) :
  getitem h a i = Some v -> setitem h a i v = Some h.
Proof.
  intros (arr & Ha & Hi)%getitem_lt. unfold setitem. rewrite Ha. simpl.
  rewrite decide_True by (by eapply lookup_lt_Some).
  f_equal. rewrite (list_insert_id arr i v Hi). by apply list_insert_id.
Qed.

Lemma setitem_Some (h h' : heap) (a : ref) (i : nat) (v : f64) :
  setitem h a i v = Some h' ->
  exists arr, h !! a = Some arr /\ (i < length arr)%nat /\ h' = <[a := <[i := v]> arr]> h.
Proof.
  unfold setitem. destruct (h !! a) as [arr|]; simpl; [|discriminate].
  case_decide; [|discriminate]. intros [= <-]. by exists arr.
Qed.

Lemma getitem_setitem_eq (h h' : heap) (a : ref) (i : nat) (v : f64) :
  setitem h a i v = Some h' -> getitem h' a i = Some v.
Proof.
  intros (arr & Ha & Hi & ->)%setitem_Some. unfold getitem.
  rewrite list_lookup_insert_eq by (by eapply lookup_lt_Some). simpl.
  by apply list_lookup_insert_eq.
Qed.

Lemma getitem_setitem_ne (h h' : heap) (a : ref) (i j : nat) (v : f64) :
  i <> j -> setitem h a i v = Some h' -> getitem h' a j = getitem h a j.
Proof.
  intros Hne (arr & Ha & Hi & ->)%setitem_Some. unfold getitem.
  rewrite list_lookup_insert_eq by (by eapply lookup_lt_Some). rewrite Ha. simpl.
  by apply list_lookup_insert_ne.
Qed.

Lemma strided_inj (k k' p p' : nat) :
  (k < 3)%nat -> (k' < 3)%nat -> strided k p = strided k' p' -> k = k' /\ p = p'.
Proof. unfold strided. lia. Qed.

Lemma for_enumerate_ext {St : Type} (f g : nat -> nat -> St -> option St) :
  (forall i p s, f i p s = g i p s) ->
  forall l i s, for_enumerate f i l s = for_enumerate g i l s.
Proof.
  intros Hfg l. induction l as [|p l IH]; intros i s; simpl; [done|].
  rewrite Hfg. destruct (g i p s) as [s'|]; simpl; [apply IH | done].
Qed.

(** ** The aliased fetch buffer *)

(** The same configuration with another coupling flag and relaxation factor. *)
Definition with_coupling (par : bool) (r : R) (cfg : Config) : Config :=
  {| iMUICoupling := iMUICoupling cfg;
     iparallelFSICoupling := par;
     undRelxCpl := r;
     iMUIFetchMode := iMUIFetchMode cfg;
     iMUIFetchMany := iMUIFetchMany cfg;
     iMUIPushMode := iMUIPushMode cfg;
     iMUIPushMany := iMUIPushMany cfg;
     iPushX := iPushX cfg;
     iPushY := iPushY cfg;
     iPushZ := iPushZ cfg;
     forgetTStepsMUI := forgetTStepsMUI cfg;
     num_sub_iteration := num_sub_iteration cfg;
     pointSDOFa := pointSDOFa cfg;
     pointSDOFb := pointSDOFb cfg;
     pointSDOFc := pointSDOFc cfg;
     pointSDOFd := pointSDOFd cfg |}.

(** When both names denote one array the relaxed update adds
    [(v - v) * r] to [v]: it is the plain assignment, for every [r]. *)
Lemma relax_component_alias (r : R) (a : ref) (k p : nat) (h : heap) :
  relax_component r a a k p h = assign_component a a k p h.
Proof.
  unfold relax_component, assign_component.
  destruct (getitem h a (strided k p)) as [v|]; simpl; [|done].
  f_equal. destruct v as [x|]; simpl; [|done]. f_equal. ring.
Qed.

(** On one array both updates leave the heap as it is. *)
Lemma assign_component_alias (a : ref) (k p : nat) (h : heap) :
  assign_component a a k p h = (_ ← getitem h a (strided k p); Some h).
Proof.
  unfold assign_component.
  destruct (getitem h a (strided k p)) as [v|] eqn:E; simpl; [|done].
  by apply setitem_same.
Qed.

Lemma blend_alias (par par' : bool) (r r' : R) (cfg : Config) (a : ref) (p : nat)
    (h : heap) :
  blend (with_coupling par r cfg) a a p h = blend (with_coupling par' r' cfg) a a p h.
Proof.
  assert (E : forall b s, blend (with_coupling b s cfg) a a p h =
    (h1 ← assign_component a a 0 p h; h2 ← assign_component a a 1 p h1;
     assign_component a a 2 p h2)).
  { intros b s. unfold blend. destruct b; simpl; [|done].
    rewrite relax_component_alias.
    destruct (assign_component a a 0 p h) as [h1|]; simpl; [|done].
    rewrite relax_component_alias.
    destruct (assign_component a a 1 p h1) as [h2|]; simpl; [|done].
    apply relax_component_alias. }
  by rewrite !E.
Qed.

(** C3. In both per-DOF fetch modes the fetch buffer
    [temp_vec_function_temp] is the applied-load array itself, so the
    relaxed update is the plain one for every relaxation factor: a fetch in
    the implicit/parallel branch leaves the heap (and issues the calls) of
    the explicit branch resolving the same fetch index. *)
Theorem MUI_Fetch_relaxation_void (cfg : Config) (iface : Iface)
    (lstsq : Mat3 -> Vec3 -> Vec3) (self : Self) (dofs_to_xyz : list Vec3)
    (dofs_fetch_list : list nat) (n : Z) (r r' : R) (h : heap) :
  iMUIFetchMode cfg <> 1%Z ->
  MUI_Fetch (with_coupling true r cfg) iface lstsq self dofs_to_xyz
    dofs_fetch_list (n + 1) h
  = MUI_Fetch (with_coupling false r' cfg) iface lstsq self dofs_to_xyz
      dofs_fetch_list n h.
Proof.
  intros Hmode. unfold MUI_Fetch, fetch_iteration. simpl.
  rewrite Z.add_simpl_r.
  destruct (0 <=? n)%Z; [|done].
  rewrite (proj2 (Z.eqb_neq _ _) Hmode).
  destruct (iMUIFetchMany cfg).
  - destruct (setitem_list _ 0 _ _ h) as [h1|]; simpl; [|done].
    destruct (setitem_list _ 1 _ _ h1) as [h2|]; simpl; [|done].
    destruct (setitem_list _ 2 _ _ h2) as [h3|]; simpl; [|done].
    erewrite for_enumerate_ext; [reflexivity|].
    intros i p s. unfold many_body. by rewrite (blend_alias true false r r').
  - apply for_enumerate_ext. intros i p [s tr]. unfold single_body.
    destruct (dofs_to_xyz !! i) as [x|]; simpl; [|done].
    destruct (setitem s _ _ _) as [h1|]; simpl; [|done].
    destruct (setitem h1 _ _ _) as [h2|]; simpl; [|done].
    destruct (setitem h2 _ _ _) as [h3|]; simpl; [|done].
    by rewrite (blend_alias true false r r').
Qed.

Lemma MUI_Fetch_relaxation_void_witness :
  let cfg := {| iMUICoupling := true; iparallelFSICoupling := true; undRelxCpl := 1;
                iMUIFetchMode := 0; iMUIFetchMany := true; iMUIPushMode := 0;
                iMUIPushMany := true; iPushX := true; iPushY := true; iPushZ := true;
                forgetTStepsMUI := 0; num_sub_iteration := 1;
                pointSDOFa := origin; pointSDOFb := origin; pointSDOFc := origin;
                pointSDOFd := origin |} in
  let iface := {| fetch_value := fun _ _ _ => 2;
                  fetch_many_values := fun _ locs _ => map (fun _ => 2) locs |} in
  let self := {| tF_apply_vec := 0%nat; areaf_vec := [1] |} in
  MUI_Fetch (with_coupling true (1/2) cfg) iface (fun _ _ => vzero) self [origin]
    [0%nat] (0 + 1) [[Fin 0; Fin 0; Fin 0]]
  = MUI_Fetch (with_coupling false 1 cfg) iface (fun _ _ => vzero) self [origin]
      [0%nat] 0 [[Fin 0; Fin 0; Fin 0]].
Proof.
  intros cfg iface self.
  apply (MUI_Fetch_relaxation_void cfg iface (fun _ _ => vzero) self [origin]
           [0%nat] 0%Z (1/2) 1 [[Fin 0; Fin 0; Fin 0]]).
  simpl. discriminate.
Defined.

(** ** Fetches on concrete inputs *)

(** Evaluates the embedding on closed inputs, leaving real arithmetic and
    the comparisons of reals in place. *)
Ltac run_model :=
  cbv -[IZR Rplus Rminus Rmult Rdiv Rinv Ropp Req_dec_T Rlt_dec sqrt Rmax PI cos sin].

(** A configuration given by its fetch options (per-DOF push, all axes,
    no retention window). *)
Definition fetch_cfg (par : bool) (r : R) (mode : Z) (many : bool) : Config :=
  {| iMUICoupling := true; iparallelFSICoupling := par; undRelxCpl := r;
     iMUIFetchMode := mode; iMUIFetchMany := many; iMUIPushMode := 0;
     iMUIPushMany := true; iPushX := true; iPushY := true; iPushZ := true;
     forgetTStepsMUI := 0; num_sub_iteration := 1;
     pointSDOFa := origin; pointSDOFb := origin; pointSDOFc := origin;
     pointSDOFd := origin |}.

(** Batched per-DOF fetch, implicit/parallel coupling with relaxation
    factor 0.5. *)
Definition example_cfg : Config := fetch_cfg true (1/2) 0 true.

(** A middleware that answers [v] to every fetch. *)
Definition const_iface (v : R) : Iface :=
  {| fetch_value := fun _ _ _ => v;
     fetch_many_values := fun _ locs _ => map (fun _ => v) locs |}.

Definition example_self (area : R) : Self :=
  {| tF_apply_vec := 0%nat; areaf_vec := [area] |}.

(** Had the fetch buffer been an array of its own, the relaxed update
    would be the blend [old + (new - old) * r]. *)
Lemma relax_component_distinct (r old new : R) (h h1 : heap) (tF temp : ref)
    (k p : nat) :
  tF <> temp ->
  getitem h tF (strided k p) = Some (Fin old) ->
  getitem h temp (strided k p) = Some (Fin new) ->
  exists h', relax_component r tF temp k p h = Some h' /\
             getitem h' tF (strided k p) = Some (Fin (old + (new - old) * r)).
Proof.
  intros Hne Hold Hnew. unfold relax_component. rewrite Hold, Hnew. simpl.
  destruct (getitem_lt _ _ _ _ Hold) as (arr & Ha & Hi).
  unfold setitem. rewrite Ha. simpl.
  rewrite decide_True by (by eapply lookup_lt_Some).
  eexists; split; [reflexivity|].
  unfold getitem. rewrite list_lookup_insert_eq by (by eapply lookup_lt_Some).
  simpl. apply list_lookup_insert_eq. by eapply lookup_lt_Some.
Qed.

(** C2 on the code: with relaxation factor 0.5, an applied load of 0 and a
    fetched force of 2, the per-DOF fetch in the implicit/parallel branch
    leaves 2 in the applied-load array, where the blend
    [old + (new - old) * 0.5] is 1. *)
Theorem MUI_Fetch_blend_is_overwrite :
  MUI_Fetch example_cfg (const_iface 2) (fun _ _ => vzero) (example_self 1)
    [origin] [0%nat] 1 [[Fin 0; Fin 0; Fin 0]]
  = Some ([[Fin 2; Fin 2; Fin 2]],
          [fetch_many "forceX" [origin] 0; fetch_many "forceY" [origin] 0;
           fetch_many "forceZ" [origin] 0])
  /\ 0 + (2 - 0) * undRelxCpl example_cfg = 1.
Proof.
  split; [|simpl; lra]. run_model.
  destruct (Req_dec_T 1 0) as [E|_]; [lra|].
  replace ((2 + (2 - 2) * (1 / 2)) / 1) with 2 by lra. reflexivity.
Qed.

(** C4 on the code: in the one-call-per-point mode a DOF of area weight 0
    ends the fetch with a non-finite applied load (numpy's division by
    zero), not with 0; no exception is raised. *)
Theorem MUI_Fetch_single_zero_area :
  MUI_Fetch (fetch_cfg false 1 0 false) (const_iface 1) (fun _ _ => vzero) (example_self 0)
    [origin] [0%nat] 0 [[Fin 5; Fin 5; Fin 5]]
  = Some ([[NonFin; NonFin; NonFin]],
          [fetch "forceX" origin 0; fetch "forceY" origin 0;
           fetch "forceZ" origin 0]).
Proof.
  run_model. destruct (Req_dec_T 0 0) as [_|E]; [reflexivity|lra].
Qed.

(** ** Zero area weights in the guarded fetch modes *)

(** The three entries of DOF [p] in array [a] are the same in [h'] as in [h]. *)
Definition same_at (a : ref) (p : nat) (h h' : heap) : Prop :=
  forall k, (k < 3)%nat -> getitem h' a (strided k p) = getitem h a (strided k p).

Lemma same_at_refl a p h : same_at a p h h.
Proof. by intros k _. Qed.

Lemma same_at_trans a p h1 h2 h3 :
  same_at a p h1 h2 -> same_at a p h2 h3 -> same_at a p h1 h3.
Proof. intros H12 H23 k Hk. by rewrite H23, H12. Qed.

(** A write to an entry of DOF [q] leaves the entries of another DOF. *)
Lemma setitem_frame (h h' : heap) (a : ref) (k q p : nat) (v : f64) :
  (k < 3)%nat -> q <> p -> setitem h a (strided k q) v = Some h' -> same_at a p h h'.
Proof.
  intros Hk Hne Hset k' Hk'. eapply getitem_setitem_ne; [|exact Hset].
  intros E. apply strided_inj in E; [tauto | lia | lia].
Qed.

Lemma relax_component_frame r a k q p h h' :
  (k < 3)%nat -> q <> p -> relax_component r a a k q h = Some h' -> same_at a p h h'.
Proof.
  intros Hk Hne. rewrite relax_component_alias. unfold assign_component.
  destruct (getitem h a (strided k q)) as [v|]; simpl; [|done].
  by apply setitem_frame.
Qed.

Lemma blend_frame cfg a q p h h' :
  q <> p -> blend cfg a a q h = Some h' -> same_at a p h h'.
Proof.
  intros Hne. unfold blend.
  assert (forall f : nat -> nat -> heap -> option heap,
    (forall k h1 h2, (k < 3)%nat -> f k q h1 = Some h2 -> same_at a p h1 h2) ->
    (h1 ← f 0%nat q h; h2 ← f 1%nat q h1; f 2%nat q h2) = Some h' -> same_at a p h h') as Hseq.
  { intros f Hf. destruct (f 0%nat q h) as [h1|] eqn:E1; simpl; [|done].
    destruct (f 1%nat q h1) as [h2|] eqn:E2; simpl; [|done]. intros E3.
    eapply same_at_trans; [eapply same_at_trans|]; eapply Hf; try eassumption; lia. }
  destruct (iparallelFSICoupling cfg).
  - apply (Hseq (relax_component (undRelxCpl cfg) a a)).
    intros k h1 h2 Hk. by apply relax_component_frame.
  - apply (Hseq (assign_component a a)).
    intros k h1 h2 Hk. rewrite <- (relax_component_alias 0). by apply relax_component_frame.
Qed.

Lemma divide_component_frame self k q p h h' :
  (k < 3)%nat -> q <> p -> divide_component self k q h = Some h' ->
  same_at (tF_apply_vec self) p h h'.
Proof.
  intros Hk Hne. unfold divide_component.
  destruct (getitem h _ _) as [v|]; simpl; [|done].
  destruct (areaf_vec self !! q) as [a|]; simpl; [|done].
  by apply setitem_frame.
Qed.

Lemma area_guarded_frame self q p h h' :
  q <> p -> area_guarded self q h = Some h' -> same_at (tF_apply_vec self) p h h'.
Proof.
  intros Hne. unfold area_guarded, area_divide.
  destruct (areaf_vec self !! q) as [a|]; simpl; [|done].
  destruct (Req_dec_T a 0).
  - destruct (setitem h _ _ _) as [h1|] eqn:E1; simpl; [|done].
    destruct (setitem h1 _ _ _) as [h2|] eqn:E2; simpl; [|done]. intros E3.
    eapply same_at_trans; [eapply same_at_trans|]; eapply setitem_frame;
      try eassumption; lia.
  - destruct (divide_component self 0 q h) as [h1|] eqn:E1; simpl; [|done].
    destruct (divide_component self 1 q h1) as [h2|] eqn:E2; simpl; [|done]. intros E3.
    eapply same_at_trans; [eapply same_at_trans|]; eapply divide_component_frame;
      try eassumption; lia.
Qed.

(** The guard stores zero in the three entries of a DOF of zero area weight. *)
Lemma area_guarded_zero self p h h' :
  areaf_vec self !! p = Some 0 -> area_guarded self p h = Some h' ->
  forall k, (k < 3)%nat -> getitem h' (tF_apply_vec self) (strided k p) = Some (Fin 0).
Proof.
  intros Ha. unfold area_guarded. rewrite Ha. simpl.
  destruct (Req_dec_T 0 0) as [_|Hne]; [|lra].
  destruct (setitem h _ _ _) as [h1|] eqn:E1; simpl; [|done].
  destruct (setitem h1 _ _ _) as [h2|] eqn:E2; simpl; [|done]. intros E3 k Hk.
  assert (strided 0 p <> strided 1 p /\ strided 0 p <> strided 2 p /\
          strided 1 p <> strided 2 p) as (N01 & N02 & N12) by (unfold strided; lia).
  destruct k as [|[|[|k]]]; [| | |lia].
  - rewrite (getitem_setitem_ne _ _ _ _ _ _ (not_eq_sym N02) E3).
    rewrite (getitem_setitem_ne _ _ _ _ _ _ (not_eq_sym N01) E2).
    by eapply getitem_setitem_eq.
  - rewrite (getitem_setitem_ne _ _ _ _ _ _ (not_eq_sym N12) E3).
    by eapply getitem_setitem_eq.
  - by eapply getitem_setitem_eq.
Qed.

Lemma resultant_body_frame self F_out i q p h h' :
  q <> p -> resultant_body self F_out i q h = Some h' ->
  same_at (tF_apply_vec self) p h h'.
Proof.
  intros Hne. unfold resultant_body.
  destruct (F_out !! i) as [F|]; simpl; [|done].
  destruct (setitem h _ _ _) as [h1|] eqn:E1; simpl; [|done].
  destruct (setitem h1 _ _ _) as [h2|] eqn:E2; simpl; [|done].
  destruct (setitem h2 _ _ _) as [h3|] eqn:E3; simpl; [|done]. intros E4.
  eapply same_at_trans; [eapply same_at_trans; [eapply same_at_trans|]|].
  - eapply (setitem_frame h h1); [|exact Hne|exact E1]. lia.
  - eapply (setitem_frame h1 h2); [|exact Hne|exact E2]. lia.
  - eapply (setitem_frame h2 h3); [|exact Hne|exact E3]. lia.
  - by eapply area_guarded_frame.
Qed.

Lemma many_body_frame cfg self i q p h h' :
  q <> p -> many_body cfg self (tF_apply_vec self) i q h = Some h' ->
  same_at (tF_apply_vec self) p h h'.
Proof.
  intros Hne. unfold many_body.
  destruct (blend cfg _ _ q h) as [h1|] eqn:E1; simpl; [|done]. intros E2.
  eapply same_at_trans; [by eapply blend_frame | by eapply area_guarded_frame].
Qed.

(** A loop whose body ends with the guard and frames the other DOFs
    leaves zero at every visited DOF of zero area weight. *)
Lemma guarded_loop_zero (self : Self) (body : nat -> nat -> heap -> option heap) (p : nat) :
  (forall i q h h', q <> p -> body i q h = Some h' -> same_at (tF_apply_vec self) p h h') ->
  (forall i h h', body i p h = Some h' ->
     forall k, (k < 3)%nat -> getitem h' (tF_apply_vec self) (strided k p) = Some (Fin 0)) ->
  forall l i h h',
    for_enumerate body i l h = Some h' -> p ∈ l ->
    forall k, (k < 3)%nat -> getitem h' (tF_apply_vec self) (strided k p) = Some (Fin 0).
Proof.
  intros Hframe Hzero.
  assert (Hkeep : forall l i h h',
    for_enumerate body i l h = Some h' -> p ∉ l -> same_at (tF_apply_vec self) p h h').
  { induction l as [|q l IH]; intros i h h'; cbn [for_enumerate].
    - intros [= <-] _. apply same_at_refl.
    - destruct (body i q h) as [h1|] eqn:E; simpl; [|done]. intros Hloop Hnot.
      apply not_elem_of_cons in Hnot as [Hne Hnot].
      eapply same_at_trans; [eapply Hframe; [|exact E]; congruence | by eapply IH]. }
  induction l as [|q l IH]; intros i h h'; cbn [for_enumerate].
  - intros _ Hin. by apply elem_of_nil in Hin.
  - destruct (body i q h) as [h1|] eqn:E; simpl; [|done]. intros Hloop Hin k Hk.
    destruct (decide (p ∈ l)) as [Hl|Hl]; [by eapply IH|].
    apply elem_of_cons in Hin as [->|Hin]; [|done].
    rewrite (Hkeep l (S i) h1 h' Hloop Hl k Hk). by eapply Hzero.
Qed.

(** X1. Where the code has the guard, in resultant mode and in batched
    per-DOF mode, a fetched DOF of zero area weight ends the fetch with
    applied load zero in its three components, whatever was fetched. *)
Theorem MUI_Fetch_guarded_zero_area (cfg : Config) (iface : Iface)
    (lstsq : Mat3 -> Vec3 -> Vec3) (self : Self) (dofs_to_xyz : list Vec3)
    (dofs_fetch_list : list nat) (n : Z) (h h' : heap) (tr : list Event) (p : nat) :
  iMUIFetchMode cfg = 1%Z \/ iMUIFetchMany cfg = true ->
  (0 <= fetch_iteration cfg n)%Z ->
  MUI_Fetch cfg iface lstsq self dofs_to_xyz dofs_fetch_list n h = Some (h', tr) ->
  p ∈ dofs_fetch_list ->
  areaf_vec self !! p = Some 0 ->
  forall k, (k < 3)%nat -> getitem h' (tF_apply_vec self) (strided k p) = Some (Fin 0).
Proof.
  intros Hmode Hidx Hrun Hin Harea. unfold MUI_Fetch in Hrun.
  rewrite (proj2 (Z.leb_le _ _) Hidx) in Hrun.
  destruct (iMUIFetchMode cfg =? 1)%Z eqn:E1.
  - destruct (for_enumerate _ _ _ _) as [h1|] eqn:Hloop; simpl in Hrun; [|done].
    injection Hrun as <- _.
    eapply (guarded_loop_zero self); [| |exact Hloop|exact Hin].
    + intros i q g g'. apply resultant_body_frame.
    + intros i g g'. unfold resultant_body.
      destruct (_ !! i) as [F|]; simpl; [|done].
      destruct (setitem g _ _ _) as [g1|]; simpl; [|done].
      destruct (setitem g1 _ _ _) as [g2|]; simpl; [|done].
      destruct (setitem g2 _ _ _) as [g3|]; simpl; [|done].
      by apply area_guarded_zero.
  - destruct Hmode as [Hm|Hmany]; [apply Z.eqb_neq in E1; congruence|].
    rewrite Hmany in Hrun.
    destruct (setitem_list _ 0 _ _ h) as [h1|]; simpl in Hrun; [|done].
    destruct (setitem_list _ 1 _ _ h1) as [h2|]; simpl in Hrun; [|done].
    destruct (setitem_list _ 2 _ _ h2) as [h3|]; simpl in Hrun; [|done].
    destruct (for_enumerate _ _ _ _) as [h4|] eqn:Hloop; simpl in Hrun; [|done].
    injection Hrun as <- _.
    eapply (guarded_loop_zero self); [| |exact Hloop|exact Hin].
    + intros i q g g'. apply many_body_frame.
    + intros i g g'. unfold many_body.
      destruct (blend _ _ _ _ g) as [g1|]; simpl; [|done].
      by apply area_guarded_zero.
Qed.

Lemma MUI_Fetch_guarded_zero_area_witness :
  getitem [[Fin 0; Fin 0; Fin 0]] 0%nat (strided 1 0) = Some (Fin 0).
Proof.
  apply (MUI_Fetch_guarded_zero_area example_cfg (const_iface 2) (fun _ _ => vzero)
           (example_self 0) [origin] [0%nat] 1 [[Fin 5; Fin 5; Fin 5]]
           [[Fin 0; Fin 0; Fin 0]]
           [fetch_many "forceX" [origin] 0; fetch_many "forceY" [origin] 0;
            fetch_many "forceZ" [origin] 0] 0%nat).
  - right. reflexivity.
  - unfold fetch_iteration, example_cfg, fetch_cfg. cbn [iparallelFSICoupling]. lia.
  - run_model. destruct (Req_dec_T 0 0) as [_|E]; [reflexivity|lra].
  - apply list_elem_of_here.
  - reflexivity.
  - lia.
Defined.

(** ** The fetch time index *)

(** The time index of a fetch call. *)
Definition fetch_time (e : Event) : option Z :=
  match e with
  | fetch _ _ t | fetch_many _ _ t => Some t
  | _ => None
  end.

Lemma single_loop_times (cfg : Config) (iface : Iface) (self : Self)
    (dofs_to_xyz : list Vec3) (t : Z) (temp : ref) (l : list nat) :
  forall i h tr h' tr',
    for_enumerate (single_body cfg iface self dofs_to_xyz t temp) i l (h, tr)
      = Some (h', tr') ->
    Forall (fun e => fetch_time e = Some t) tr ->
    Forall (fun e => fetch_time e = Some t) tr'.
Proof.
  induction l as [|p l IH]; intros i h tr h' tr'; cbn [for_enumerate].
  - by intros [= <- <-].
  - destruct (single_body cfg iface self dofs_to_xyz t temp i p (h, tr))
      as [[h1 tr1]|] eqn:E; cbn [mbind option_bind]; [|done].
    intros Hloop Htr. eapply IH; [exact Hloop|].
    unfold single_body in E.
    destruct (dofs_to_xyz !! i) as [x|]; simpl in E; [|done].
    destruct (setitem h _ _ _) as [h2|]; simpl in E; [|done].
    destruct (setitem h2 _ _ _) as [h3|]; simpl in E; [|done].
    destruct (setitem h3 _ _ _) as [h4|]; simpl in E; [|done].
    destruct (blend _ _ _ _ _) as [h5|]; simpl in E; [|done].
    destruct (area_divide _ _ _) as [h6|]; simpl in E; [|done].
    injection E as <- <-. apply Forall_app. split; [exact Htr|].
    repeat constructor.
Qed.

(** C5. The resolved fetch index is [n - 1] under implicit/parallel coupling
    and [n] otherwise; every fetch call of [MUI_Fetch] is made at that
    index; and when it is negative no call is made and the heap, so the
    applied-load array, is returned as it was. *)
Theorem MUI_Fetch_index_policy (cfg : Config) (iface : Iface)
    (lstsq : Mat3 -> Vec3 -> Vec3) (self : Self) (dofs_to_xyz : list Vec3)
    (dofs_fetch_list : list nat) (n : Z) (h : heap) :
  fetch_iteration cfg n = (if iparallelFSICoupling cfg then n - 1 else n)%Z /\
  (forall h' tr,
     MUI_Fetch cfg iface lstsq self dofs_to_xyz dofs_fetch_list n h = Some (h', tr) ->
     Forall (fun e => fetch_time e = Some (fetch_iteration cfg n)) tr) /\
  ((fetch_iteration cfg n < 0)%Z ->
   MUI_Fetch cfg iface lstsq self dofs_to_xyz dofs_fetch_list n h = Some (h, [])).
Proof.
  split; [reflexivity|]. split.
  - intros h' tr. unfold MUI_Fetch.
    destruct (0 <=? fetch_iteration cfg n)%Z; [|by intros [= <- <-]].
    destruct (iMUIFetchMode cfg =? 1)%Z.
    + destruct (for_enumerate _ _ _ _) as [h1|]; simpl; [|done].
      intros [= <- <-]. repeat constructor.
    + destruct (iMUIFetchMany cfg).
      * destruct (setitem_list _ 0 _ _ h) as [h1|]; simpl; [|done].
        destruct (setitem_list _ 1 _ _ h1) as [h2|]; simpl; [|done].
        destruct (setitem_list _ 2 _ _ h2) as [h3|]; simpl; [|done].
        destruct (for_enumerate _ _ _ _) as [h4|]; simpl; [|done].
        intros [= <- <-]. repeat constructor.
      * intros Hloop. eapply single_loop_times; [exact Hloop|constructor].
  - intros Hneg. unfold MUI_Fetch.
    destruct (0 <=? fetch_iteration cfg n)%Z eqn:E; [|reflexivity].
    apply Z.leb_le in E. lia.
Qed.

Lemma MUI_Fetch_index_policy_witness :
  MUI_Fetch example_cfg (const_iface 2) (fun _ _ => vzero) (example_self 1)
    [origin] [0%nat] 0 [[Fin 7; Fin 8; Fin 9]]
  = Some ([[Fin 7; Fin 8; Fin 9]], []).
Proof.
  apply (proj2 (proj2 (MUI_Fetch_index_policy example_cfg (const_iface 2)
           (fun _ _ => vzero) (example_self 1) [origin] [0%nat] 0%Z
           [[Fin 7; Fin 8; Fin 9]]))).
  reflexivity.
Defined.

(** ** Exchange cycle, push: [MUI_Push] (lines 597-693) and
       [MUI_Commit_only] (lines 695-708) *)

(** The displacement function as [MUI_Push] uses it: its local vector
    ([displacement_function.vector().get_local()], interleaved x, y, z) and
    its value at a point ([self.point_disp(displacement_function, x, y, z)],
    defined elsewhere in the repository). *)
Record DisplacementFunction : Type := {
  get_local : list R;
  point_disp : Vec3 -> Vec3
}.

(** [d_vec[p]] for [d_vec = get_local()[k::3]]. *)
Definition d_vec (k : nat) (df : DisplacementFunction) (p : nat) : option R :=
  get_local df !! strided k p.

(** [np.mean(a, axis=0)]: the sum of the rows divided by their number. *)
Definition vmean (vs : list Vec3) : Vec3 :=
  let s := vsum vs in
  let n := INR (length vs) in
  V3 (vx s / n) (vy s / n) (vz s / n).

(** [push_many(attr, dofs_to_xyz, d_vec[dofs_push])] when the axis is enabled. *)
Definition push_many_axis (enabled : bool) (attr : string) (k : nat)
    (df : DisplacementFunction) (dofs_to_xyz : list Vec3) (dofs_push : list nat)
    : option (list Event) :=
  if enabled then
    vals ← mapM (d_vec k df) dofs_push;
    Some [push_many attr dofs_to_xyz vals]
  else Some [].

(** [for i, p in enumerate(dofs_push): push(attr, dofs_to_xyz[i], d_vec[p])]
    when the axis is enabled. *)
Definition push_each_axis (enabled : bool) (attr : string) (k : nat)
    (df : DisplacementFunction) (dofs_to_xyz : list Vec3) (dofs_push : list nat)
    : option (list Event) :=
  if enabled then
    for_enumerate
      (fun i p tr => x ← dofs_to_xyz !! i; v ← d_vec k df p;
                     Some (tr ++ [push attr x v]))
      0 dofs_push []
  else Some [].

Section Push.
Variable cfg : Config.
(** scipy's [Rotation.align_vectors(a, b)[0]] as a matrix and
    [Rotation.as_euler('xyz', degrees=False)], see [is_align_vectors] and
    [is_euler_xyz]. *)
Variable align_vectors : list Vec3 -> list Vec3 -> Mat3.
Variable as_euler_xyz : Mat3 -> Vec3.

(** Lines 638-666: the six values pushed in rigid-body mode. *)
Definition rigid_body_motion (df : DisplacementFunction) : Vec3 * Vec3 :=
  let d_DispA := point_disp df (pointSDOFa cfg) in
  let d_DispB := point_disp df (pointSDOFb cfg) in
  let d_DispC := point_disp df (pointSDOFc cfg) in
  let d_DispD := point_disp df (pointSDOFd cfg) in
  let init_array := [pointSDOFa cfg; pointSDOFb cfg; pointSDOFc cfg; pointSDOFd cfg] in
  let disp_array := [d_DispA; d_DispB; d_DispC; d_DispD] in
  let corners_new := zip_with vadd disp_array init_array in
  let transformation := align_vectors init_array corners_new in
  let rotation := mmul transformation midentity in
  let euler_angles := as_euler_xyz rotation in
  let Trans := vmean disp_array in
  (* (surge, sway, heave), (roll, pitch, yaw) *)
  (Trans, vneg euler_angles).

Definition MUI_Push (dofs_to_xyz : list Vec3) (dofs_push : list nat)
    (displacement_function : DisplacementFunction) (total_Sub_Iteration : Z)
    : option (list Event) :=
  exchange ←
    (if (iMUIPushMode cfg =? 0)%Z then
       if iMUIPushMany cfg then
         ex ← push_many_axis (iPushX cfg) "dispX" 0 displacement_function dofs_to_xyz dofs_push;
         ey ← push_many_axis (iPushY cfg) "dispY" 1 displacement_function dofs_to_xyz dofs_push;
         ez ← push_many_axis (iPushZ cfg) "dispZ" 2 displacement_function dofs_to_xyz dofs_push;
         Some (ex ++ ey ++ ez ++ [commit total_Sub_Iteration])
       else
         ex ← push_each_axis (iPushX cfg) "dispX" 0 displacement_function dofs_to_xyz dofs_push;
         ey ← push_each_axis (iPushY cfg) "dispY" 1 displacement_function dofs_to_xyz dofs_push;
         ez ← push_each_axis (iPushZ cfg) "dispZ" 2 displacement_function dofs_to_xyz dofs_push;
         Some (ex ++ ey ++ ez ++ [commit total_Sub_Iteration])
     else if (iMUIPushMode cfg =? 1)%Z then
       let '(Trans, angles) := rigid_body_motion displacement_function in
       Some [push "dispX" origin (vx Trans); push "dispY" origin (vy Trans);
             push "dispZ" origin (vz Trans); push "angleX" origin (vx angles);
             push "angleY" origin (vy angles); push "angleZ" origin (vz angles);
             commit total_Sub_Iteration]
     else Some []);
  Some (exchange ++
        if ((total_Sub_Iteration - forgetTStepsMUI cfg >? 0)%Z
            && negb (forgetTStepsMUI cfg =? 0)%Z)
        then [forget (total_Sub_Iteration - forgetTStepsMUI cfg);
              set_memory (forgetTStepsMUI cfg)]
        else []).

Definition MUI_Commit_only (total_Sub_Iteration : Z) : list Event :=
  commit total_Sub_Iteration ::
  (if ((total_Sub_Iteration - forgetTStepsMUI cfg >? 0)%Z
       && negb (forgetTStepsMUI cfg =? 0)%Z)
   then [forget (total_Sub_Iteration - forgetTStepsMUI cfg);
         set_memory (forgetTStepsMUI cfg)]
   else []).
End Push.

(** ** Commits and window management *)

Definition commit_times (tr : list Event) : list Z :=
  omap (fun e => match e with commit t => Some t | _ => None end) tr.

Definition is_push (e : Event) : bool :=
  match e with push _ _ _ | push_many _ _ _ => true | _ => false end.

Definition is_trim (e : Event) : bool :=
  match e with forget _ | set_memory _ => true | _ => false end.

(** The window rule in the words of the specification: with retention
    depth [k], after the commit at index [N], forget everything older than
    [N - k] and advertise horizon [k], when [k] is nonzero and [N - k > 0]. *)
Definition spec_window_trim (k N : Z) : list Event :=
  if bool_decide (k <> 0 /\ N - k > 0)%Z then [forget (N - k); set_memory k] else [].

Lemma code_trim_is_spec (k N : Z) :
  (if ((N - k >? 0)%Z && negb (k =? 0)%Z) then [forget (N - k); set_memory k] else [])
  = spec_window_trim k N.
Proof.
  unfold spec_window_trim.
  destruct (Z.gtb_spec (N - k) 0), (Z.eqb_spec k 0); cbn [andb negb];
    case_bool_decide; first [done | lia].
Qed.

Lemma commit_times_app (a b : list Event) :
  commit_times (a ++ b) = commit_times a ++ commit_times b.
Proof. apply omap_app. Qed.

Lemma commit_times_pushes (ev : list Event) :
  Forall (fun e => is_push e = true) ev -> commit_times ev = [].
Proof.
  induction 1 as [|e ev He _ IH]; [done|].
  unfold commit_times in *. destruct e; try discriminate He; exact IH.
Qed.

Lemma commit_times_trim (k N : Z) : commit_times (spec_window_trim k N) = [].
Proof. unfold spec_window_trim. by case_bool_decide. Qed.

Lemma pushes_not_trim (ev : list Event) :
  Forall (fun e => is_push e = true) ev -> Forall (fun e => is_trim e = false) ev.
Proof. apply Forall_impl. by intros []. Qed.

Lemma push_many_axis_pushes enabled attr k df dofs_to_xyz dofs_push ev :
  push_many_axis enabled attr k df dofs_to_xyz dofs_push = Some ev ->
  Forall (fun e => is_push e = true) ev.
Proof.
  unfold push_many_axis. destruct enabled; [|intros [= <-]; constructor].
  destruct (mapM _ _) as [vals|]; simpl; [|done].
  intros [= <-]. by repeat constructor.
Qed.

Lemma push_loop_pushes attr k df (dofs_to_xyz : list Vec3) (l : list nat) :
  forall i tr tr',
    for_enumerate
      (fun i p tr => x ← dofs_to_xyz !! i; v ← d_vec k df p;
                     Some (tr ++ [push attr x v])) i l tr = Some tr' ->
    Forall (fun e => is_push e = true) tr -> Forall (fun e => is_push e = true) tr'.
Proof.
  induction l as [|p l IH]; intros i tr tr'; cbn [for_enumerate].
  - by intros [= <-].
  - destruct (dofs_to_xyz !! i) as [x|]; simpl; [|done].
    destruct (d_vec k df p) as [v|]; simpl; [|done].
    intros Hloop Htr. eapply IH; [exact Hloop|].
    apply Forall_app. split; [exact Htr|]. by repeat constructor.
Qed.

Lemma push_each_axis_pushes enabled attr k df dofs_to_xyz dofs_push ev :
  push_each_axis enabled attr k df dofs_to_xyz dofs_push = Some ev ->
  Forall (fun e => is_push e = true) ev.
Proof.
  unfold push_each_axis. destruct enabled; [|intros [= <-]; constructor].
  intros H. eapply push_loop_pushes; [exact H | constructor].
Qed.

(** What [MUI_Push] does before the window rule: pushes, then the commit
    in the two push modes the code knows; nothing for another mode code. *)
Lemma MUI_Push_shape cfg av ae dofs_to_xyz dofs_push df N tr :
  MUI_Push cfg av ae dofs_to_xyz dofs_push df N = Some tr ->
  exists exchange,
    tr = exchange ++ spec_window_trim (forgetTStepsMUI cfg) N /\
    ((exists pushes, exchange = pushes ++ [commit N] /\
                     Forall (fun e => is_push e = true) pushes /\
                     (iMUIPushMode cfg = 0 \/ iMUIPushMode cfg = 1)%Z) \/
     (exchange = [] /\ iMUIPushMode cfg <> 0%Z /\ iMUIPushMode cfg <> 1%Z)).
Proof.
  unfold MUI_Push. rewrite code_trim_is_spec.
  destruct (iMUIPushMode cfg =? 0)%Z eqn:E0.
  - apply Z.eqb_eq in E0.
    assert (forall ex ey ez : option (list Event),
      (forall ev, ex = Some ev -> Forall (fun e => is_push e = true) ev) ->
      (forall ev, ey = Some ev -> Forall (fun e => is_push e = true) ev) ->
      (forall ev, ez = Some ev -> Forall (fun e => is_push e = true) ev) ->
      (exchange ← (x ← ex; y ← ey; z ← ez; Some (x ++ y ++ z ++ [commit N]));
       Some (exchange ++ spec_window_trim (forgetTStepsMUI cfg) N)) = Some tr ->
      exists exchange,
        tr = exchange ++ spec_window_trim (forgetTStepsMUI cfg) N /\
        ((exists pushes, exchange = pushes ++ [commit N] /\
                     Forall (fun e => is_push e = true) pushes /\
                     (iMUIPushMode cfg = 0 \/ iMUIPushMode cfg = 1)%Z) \/
         (exchange = [] /\ iMUIPushMode cfg <> 0%Z /\ iMUIPushMode cfg <> 1%Z))) as Hgen.
    { intros [ux|] [uy|] [uz|] Hx Hy Hz; simpl; try done. intros [= <-].
      eexists; split; [reflexivity|]. left. exists (ux ++ uy ++ uz).
      split; [by rewrite <- !app_assoc|]. split; [|by left].
      rewrite !Forall_app. split_and!; eauto. }
    destruct (iMUIPushMany cfg).
    + apply Hgen; intros ev; apply push_many_axis_pushes.
    + apply Hgen; intros ev; apply push_each_axis_pushes.
  - destruct (iMUIPushMode cfg =? 1)%Z eqn:E1.
    + apply Z.eqb_eq in E1. destruct (rigid_body_motion cfg av ae df) as [T a]. simpl.
      intros [= <-].
      exists [push "dispX" origin (vx T); push "dispY" origin (vy T);
              push "dispZ" origin (vz T); push "angleX" origin (vx a);
              push "angleY" origin (vy a); push "angleZ" origin (vz a); commit N].
      split; [reflexivity|]. left.
      exists [push "dispX" origin (vx T); push "dispY" origin (vy T);
              push "dispZ" origin (vz T); push "angleX" origin (vx a);
              push "angleY" origin (vy a); push "angleZ" origin (vz a)].
      split; [reflexivity|].
      split; [by repeat constructor | by right].
    + apply Z.eqb_neq in E0, E1. simpl. intros [= <-].
      exists []. split; [done|]. by right.
Qed.

(** C8. After the commit at index [N] with retention depth [k], a forget
    is issued exactly when [k] is nonzero and [N - k > 0], for index [N - k],
    followed by [set_memory k]; for [k = 0] none is issued.  The rule is the
    same after the commit of [MUI_Push] and in [MUI_Commit_only]. *)
Theorem window_trimming (cfg : Config) (align_vectors : list Vec3 -> list Vec3 -> Mat3)
    (as_euler_xyz : Mat3 -> Vec3) (dofs_to_xyz : list Vec3) (dofs_push : list nat)
    (df : DisplacementFunction) (N : Z) :
  MUI_Commit_only cfg N = commit N :: spec_window_trim (forgetTStepsMUI cfg) N /\
  (forall tr,
     MUI_Push cfg align_vectors as_euler_xyz dofs_to_xyz dofs_push df N = Some tr ->
     exists exchange,
       tr = exchange ++ spec_window_trim (forgetTStepsMUI cfg) N /\
       Forall (fun e => is_trim e = false) exchange /\
       ((iMUIPushMode cfg = 0 \/ iMUIPushMode cfg = 1)%Z ->
        exists pushes, exchange = pushes ++ [commit N])) /\
  (forgetTStepsMUI cfg = 0%Z -> spec_window_trim (forgetTStepsMUI cfg) N = []).
Proof.
  split; [|split].
  - unfold MUI_Commit_only. by rewrite code_trim_is_spec.
  - intros tr (exchange & -> & Hshape)%MUI_Push_shape.
    exists exchange. split; [done|].
    destruct Hshape as [(pushes & -> & Hp & _) | (-> & H0 & H1)].
    + split; [|by eauto]. apply Forall_app. split; [by apply pushes_not_trim|].
      by repeat constructor.
    + split; [constructor | lia].
  - intros Hk. unfold spec_window_trim. rewrite bool_decide_eq_false_2; [done | lia].
Qed.

(** The indices [MUI_Push] reads in per-DOF mode exist: every pushed DOF
    has its three entries in the local vector, and every position of the
    push list has a coordinate. *)
Definition push_indices_ok (dofs_to_xyz : list Vec3) (dofs_push : list nat)
    (df : DisplacementFunction) : Prop :=
  Forall (fun p => (strided 2 p < length (get_local df))%nat) dofs_push /\
  (length dofs_push <= length dofs_to_xyz)%nat.

Lemma d_vec_is_Some k df p :
  (k < 3)%nat -> (strided 2 p < length (get_local df))%nat -> is_Some (d_vec k df p).
Proof. unfold d_vec, strided. intros Hk Hp. apply lookup_lt_is_Some. lia. Qed.

Lemma push_many_axis_total enabled attr k df dofs_to_xyz dofs_push :
  (k < 3)%nat -> push_indices_ok dofs_to_xyz dofs_push df ->
  is_Some (push_many_axis enabled attr k df dofs_to_xyz dofs_push).
Proof.
  intros Hk [Hok _]. unfold push_many_axis. destruct enabled; [|done].
  assert (H : is_Some (mapM (d_vec k df) dofs_push)).
  { apply mapM_is_Some. eapply Forall_impl; [|exact Hok].
    intros p Hp. by apply d_vec_is_Some. }
  destruct H as [vals ->]. done.
Qed.

Lemma push_loop_total attr k df (dofs_to_xyz : list Vec3) (l : list nat) :
  (k < 3)%nat ->
  Forall (fun p => (strided 2 p < length (get_local df))%nat) l ->
  forall i tr, (i + length l <= length dofs_to_xyz)%nat ->
    is_Some (for_enumerate
      (fun i p tr => x ← dofs_to_xyz !! i; v ← d_vec k df p;
                     Some (tr ++ [push attr x v])) i l tr).
Proof.
  intros Hk. induction 1 as [|p l Hp _ IH]; intros i tr Hlen; cbn [for_enumerate]; [done|].
  simpl in Hlen.
  destruct (lookup_lt_is_Some_2 dofs_to_xyz i) as [x ->]; [lia|]. simpl.
  destruct (d_vec_is_Some k df p Hk Hp) as [v ->]. simpl.
  apply IH. lia.
Qed.

Lemma push_each_axis_total enabled attr k df dofs_to_xyz dofs_push :
  (k < 3)%nat -> push_indices_ok dofs_to_xyz dofs_push df ->
  is_Some (push_each_axis enabled attr k df dofs_to_xyz dofs_push).
Proof.
  intros Hk [Hok Hlen]. unfold push_each_axis. destruct enabled; [|done].
  by apply push_loop_total.
Qed.

(** In the two push modes, with readable indices, [MUI_Push] returns. *)
Lemma MUI_Push_total cfg av ae dofs_to_xyz dofs_push df N :
  push_indices_ok dofs_to_xyz dofs_push df ->
  is_Some (MUI_Push cfg av ae dofs_to_xyz dofs_push df N).
Proof.
  intros Hok. unfold MUI_Push.
  destruct (iMUIPushMode cfg =? 0)%Z.
  - destruct (iMUIPushMany cfg).
    + destruct (push_many_axis_total (iPushX cfg) "dispX" 0 df _ _ ltac:(lia) Hok) as [ex ->].
      destruct (push_many_axis_total (iPushY cfg) "dispY" 1 df _ _ ltac:(lia) Hok) as [ey ->].
      destruct (push_many_axis_total (iPushZ cfg) "dispZ" 2 df _ _ ltac:(lia) Hok) as [ez ->].
      done.
    + destruct (push_each_axis_total (iPushX cfg) "dispX" 0 df _ _ ltac:(lia) Hok) as [ex ->].
      destruct (push_each_axis_total (iPushY cfg) "dispY" 1 df _ _ ltac:(lia) Hok) as [ey ->].
      destruct (push_each_axis_total (iPushZ cfg) "dispZ" 2 df _ _ ltac:(lia) Hok) as [ez ->].
      done.
  - destruct (iMUIPushMode cfg =? 1)%Z; [|done].
    by destruct (rigid_body_motion cfg av ae df).
Qed.

(** C9. A call of [MUI_Push] in per-DOF mode (0) or rigid-body mode (1)
    issues exactly one commit, at the current sub-iteration index, whatever
    the batching and the per-axis flags. *)
Theorem MUI_Push_commits_once (cfg : Config)
    (align_vectors : list Vec3 -> list Vec3 -> Mat3) (as_euler_xyz : Mat3 -> Vec3)
    (dofs_to_xyz : list Vec3) (dofs_push : list nat) (df : DisplacementFunction)
    (N : Z) :
  (iMUIPushMode cfg = 0 \/ iMUIPushMode cfg = 1)%Z ->
  push_indices_ok dofs_to_xyz dofs_push df ->
  exists tr,
    MUI_Push cfg align_vectors as_euler_xyz dofs_to_xyz dofs_push df N = Some tr /\
    commit_times tr = [N].
Proof.
  intros Hmode Hok.
  destruct (MUI_Push_total cfg align_vectors as_euler_xyz _ _ _ N Hok) as [tr Htr].
  exists tr. split; [exact Htr|].
  apply MUI_Push_shape in Htr as (exchange & -> & Hshape).
  rewrite commit_times_app, commit_times_trim.
  destruct Hshape as [(pushes & -> & Hp & _) | (-> & H0 & H1)]; [|lia].
  rewrite commit_times_app, (commit_times_pushes _ Hp). reflexivity.
Qed.

(** A per-DOF configuration with retention depth [k]. *)
Definition window_cfg (k : Z) : Config :=
  {| iMUICoupling := true; iparallelFSICoupling := false; undRelxCpl := 1;
     iMUIFetchMode := 0; iMUIFetchMany := true; iMUIPushMode := 0;
     iMUIPushMany := true; iPushX := true; iPushY := true; iPushZ := true;
     forgetTStepsMUI := k; num_sub_iteration := 1;
     pointSDOFa := origin; pointSDOFb := origin; pointSDOFc := origin;
     pointSDOFd := origin |}.

Lemma window_trimming_witness :
  MUI_Commit_only (window_cfg 2) 5 = [commit 5; forget 3; set_memory 2].
Proof.
  apply (proj1 (window_trimming (window_cfg 2) (fun _ _ => midentity)
                  (fun _ => vzero) [] [] {| get_local := []; point_disp := fun _ => vzero |} 5)).
Defined.

Lemma MUI_Push_commits_once_witness :
  exists tr,
    MUI_Push (fetch_cfg true 1 0 true) (fun _ _ => midentity) (fun _ => vzero)
      [origin] [0%nat] {| get_local := [1; 2; 3]; point_disp := fun _ => vzero |} 3
      = Some tr /\
    commit_times tr = [3%Z].
Proof.
  apply (MUI_Push_commits_once (fetch_cfg true 1 0 true) (fun _ _ => midentity)
           (fun _ => vzero) [origin] [0%nat]
           {| get_local := [1; 2; 3]; point_disp := fun _ => vzero |} 3).
  - left. reflexivity.
  - split; [|simpl; lia]. repeat constructor.
Defined.

(** ** Span set-up: [MUI_Sampler_Define], lines 117-250 *)

(** [sys.float_info.max]. *)
Definition float_max : R := (2 - / 2 ^ 52) * 2 ^ 1023.

(** A box as its minimum and maximum corner. *)
Definition span_init : Vec3 * Vec3 :=
  (V3 float_max float_max float_max, V3 (- float_max) (- float_max) (- float_max)).

(** Lines 131-147 (and 188-204): the six comparisons for one point. *)
Definition span_update (b : Vec3 * Vec3) (x : Vec3) : Vec3 * Vec3 :=
  let '(lo, hi) := b in
  (V3 (if Rlt_dec (vx x) (vx lo) then vx x else vx lo)
      (if Rlt_dec (vy x) (vy lo) then vy x else vy lo)
      (if Rlt_dec (vz x) (vz lo) then vz x else vz lo),
   V3 (if Rgt_dec (vx x) (vx hi) then vx x else vx hi)
      (if Rgt_dec (vy x) (vy hi) then vy x else vy hi)
      (if Rgt_dec (vz x) (vz hi) then vz x else vz hi)).

(** The box of a list of points, as the loops compute it. *)
Definition span_box (pts : list Vec3) : Vec3 * Vec3 := foldl span_update span_init pts.

(** Lines 149-156 (and 226-233): one error line per axis whose maximum is
    below its minimum. *)
Definition span_errors (eX eY eZ : string) (b : Vec3 * Vec3) : list Event :=
  let '(lo, hi) := b in
  (if Rlt_dec (vx hi) (vx lo) then [print_error eX] else []) ++
  (if Rlt_dec (vy hi) (vy lo) then [print_error eY] else []) ++
  (if Rlt_dec (vz hi) (vz lo) then [print_error eZ] else []).

(** Lines 130-147: the loop over the push DOFs. *)
Fixpoint send_loop (dofs_to_xyz : list Vec3) (l : list nat) (b : Vec3 * Vec3)
    : option (Vec3 * Vec3) :=
  match l with
  | [] => Some b
  | p :: l' => x ← dofs_to_xyz !! p; send_loop dofs_to_xyz l' (span_update b x)
  end.

(** Lines 210-216: the index of the first point of [xyz_fetch] equal to
    [x], or -999. *)
Fixpoint find_point (xyz_fetch : list Vec3) (x : Vec3) (ii : Z) : Z :=
  match xyz_fetch with
  | [] => (-999)%Z
  | pp :: rest =>
      if Req_dec_T (vx pp) (vx x) then
        if Req_dec_T (vy pp) (vy x) then
          if Req_dec_T (vz pp) (vz x) then ii
          else find_point rest x (ii + 1)
        else find_point rest x (ii + 1)
      else find_point rest x (ii + 1)
  end.

(** The state of the loop over the fetch DOFs (lines 187-224): the box,
    the error lines printed, [point3dList] and [point3dGlobalID]. *)
Record RecvState : Type := {
  recv_box : Vec3 * Vec3;
  recv_log : list Event;
  point3dList : list Vec3;
  point3dGlobalID : list Z
}.

Fixpoint recv_loop (dofs_to_xyz xyz_fetch : list Vec3) (l : list nat) (s : RecvState)
    : option RecvState :=
  match l with
  | [] => Some s
  | p :: l' =>
      x ← dofs_to_xyz !! p;
      let point_ID := find_point xyz_fetch x 0 in
      recv_loop dofs_to_xyz xyz_fetch l'
        {| recv_box := span_update (recv_box s) x;
           recv_log := recv_log s ++
             (if (point_ID <? 0)%Z
              then [print_error "{** FENICS ERROR **} cannot find point: "] else []);
           point3dList := point3dList s ++ [x];
           point3dGlobalID := point3dGlobalID s ++ [point_ID] |}
  end.

(** The part of [MUI_Sampler_Define] that announces the spans: the calls
    and error lines up to line 250, with the point lists handed to the
    sampler construction that follows. *)
Definition MUI_Sampler_Define_spans (cfg : Config) (dofs_to_xyz : list Vec3)
    (dofs_fetch_list dofs_push_list : list nat) (xyz_fetch : list Vec3)
    (Total_Time_Steps : Z) : option (list Event * list Vec3 * list Z) :=
  if iMUICoupling cfg then
    let synchronised := false in
    send ← send_loop dofs_to_xyz dofs_push_list span_init;
    let send_events :=
      span_errors "{** FENICS ERROR **} send_max_X: "
                  "{** FENICS ERROR **} send_max_Y: "
                  "{** FENICS ERROR **} send_max_Z: " send ++
      (if negb (length dofs_push_list =? 0)%nat
       then [announce_send_span 0 (Total_Time_Steps * num_sub_iteration cfg)
               (fst send) (snd send) synchronised]
       else []) in
    s ← recv_loop dofs_to_xyz xyz_fetch dofs_fetch_list
          {| recv_box := span_init; recv_log := []; point3dList := [];
             point3dGlobalID := [] |};
    let recv_events :=
      recv_log s ++
      span_errors "{** FENICS ERROR **} recv_max_X: "
                  "{** FENICS ERROR **} recv_max_Y: "
                  "{** FENICS ERROR **} recv_max_Z: " (recv_box s) ++
      (if negb (length dofs_fetch_list =? 0)%nat
       then [announce_recv_span 0 (Total_Time_Steps * num_sub_iteration cfg * 10)
               (fst (recv_box s)) (snd (recv_box s)) synchronised]
       else []) in
    Some (send_events ++ recv_events, point3dList s, point3dGlobalID s)
  else Some ([], [], []).

Definition is_print_error (e : Event) : bool :=
  match e with print_error _ => true | _ => false end.

Definition send_announcements (tr : list Event) : list Event :=
  omap (fun e => match e with announce_send_span _ _ _ _ _ => Some e | _ => None end) tr.

Definition recv_announcements (tr : list Event) : list Event :=
  omap (fun e => match e with announce_recv_span _ _ _ _ _ => Some e | _ => None end) tr.

Lemma send_announcements_errors (ev : list Event) :
  Forall (fun e => is_print_error e = true) ev -> send_announcements ev = [].
Proof.
  induction 1 as [|e ev He _ IH]; [done|].
  unfold send_announcements in *. destruct e; try discriminate He; exact IH.
Qed.

Lemma recv_announcements_errors (ev : list Event) :
  Forall (fun e => is_print_error e = true) ev -> recv_announcements ev = [].
Proof.
  induction 1 as [|e ev He _ IH]; [done|].
  unfold recv_announcements in *. destruct e; try discriminate He; exact IH.
Qed.

Lemma span_errors_are_errors eX eY eZ b :
  Forall (fun e => is_print_error e = true) (span_errors eX eY eZ b).
Proof.
  destruct b as [lo hi]. unfold span_errors.
  repeat (apply Forall_app; split); destruct (Rlt_dec _ _); by repeat constructor.
Qed.

(** With every index in range the push loop ends, with the box of the
    coordinates it visited. *)
Lemma send_loop_box (dofs_to_xyz : list Vec3) (l : list nat) :
  Forall (fun p => (p < length dofs_to_xyz)%nat) l ->
  forall b, exists pts,
    mapM (fun p => dofs_to_xyz !! p) l = Some pts /\
    send_loop dofs_to_xyz l b = Some (foldl span_update b pts).
Proof.
  induction 1 as [|p l Hp _ IH]; intros b.
  - by exists [].
  - destruct (lookup_lt_is_Some_2 dofs_to_xyz p Hp) as [x Hx].
    destruct (IH (span_update b x)) as (pts & Hpts & Hloop).
    exists (x :: pts). cbn [send_loop mapM]. rewrite Hx. simpl.
    split; [by rewrite Hpts | exact Hloop].
Qed.

Lemma recv_loop_box (dofs_to_xyz xyz_fetch : list Vec3) (l : list nat) :
  Forall (fun p => (p < length dofs_to_xyz)%nat) l ->
  forall s, Forall (fun e => is_print_error e = true) (recv_log s) ->
  exists pts s',
    mapM (fun p => dofs_to_xyz !! p) l = Some pts /\
    recv_loop dofs_to_xyz xyz_fetch l s = Some s' /\
    recv_box s' = foldl span_update (recv_box s) pts /\
    Forall (fun e => is_print_error e = true) (recv_log s') /\
    point3dList s' = point3dList s ++ pts.
Proof.
  induction 1 as [|p l Hp _ IH]; intros s Hlog.
  - exists [], s. by rewrite app_nil_r.
  - destruct (lookup_lt_is_Some_2 dofs_to_xyz p Hp) as [x Hx].
    cbn [recv_loop mapM]. rewrite Hx. simpl.
    edestruct IH as (pts & s' & Hpts & Hloop & Hbox & Hlog' & Hlist);
      [|exists (x :: pts), s'; rewrite Hpts; repeat split; [exact Hloop|..]].
    + simpl. apply Forall_app. split; [exact Hlog|].
      destruct (find_point xyz_fetch x 0 <? 0)%Z; by repeat constructor.
    + exact Hbox.
    + exact Hlog'.
    + rewrite Hlist. simpl. by rewrite <- app_assoc.
Qed.

Lemma length_eqb_nil {A : Type} (l : list A) :
  negb (length l =? 0)%nat = if decide (l = []) then false else true.
Proof. destruct l; by case_decide. Qed.

(** *** The computed box bounds the points *)

Definition box_contains (b : Vec3 * Vec3) (x : Vec3) : Prop :=
  vx (fst b) <= vx x <= vx (snd b) /\
  vy (fst b) <= vy x <= vy (snd b) /\
  vz (fst b) <= vz x <= vz (snd b).

(** [b'] reaches at least as far as [b] on every axis. *)
Definition box_wider (b b' : Vec3 * Vec3) : Prop :=
  (vx (fst b') <= vx (fst b) /\ vx (snd b) <= vx (snd b')) /\
  (vy (fst b') <= vy (fst b) /\ vy (snd b) <= vy (snd b')) /\
  (vz (fst b') <= vz (fst b) /\ vz (snd b) <= vz (snd b')).

Lemma span_update_wider (b : Vec3 * Vec3) (x : Vec3) :
  box_wider b (span_update b x) /\ box_contains (span_update b x) x.
Proof.
  destruct b as [[l1 l2 l3] [h1 h2 h3]], x as [x1 x2 x3].
  unfold box_wider, box_contains, span_update. cbn [fst snd vx vy vz].
  repeat match goal with
         | |- context [Rlt_dec ?a ?b] => destruct (Rlt_dec a b)
         | |- context [Rgt_dec ?a ?b] => destruct (Rgt_dec a b)
         end; lra.
Qed.

Lemma span_fold_wider (pts : list Vec3) :
  forall b, box_wider b (foldl span_update b pts).
Proof.
  induction pts as [|x pts IH]; intros b; simpl.
  - unfold box_wider. lra.
  - specialize (IH (span_update b x)).
    destruct (span_update_wider b x) as [Hw _].
    unfold box_wider in *. lra.
Qed.

Lemma span_fold_contains (pts : list Vec3) (x : Vec3) :
  x ∈ pts -> forall b, box_contains (foldl span_update b pts) x.
Proof.
  induction 1 as [x pts|x y pts _ IH]; intros b; simpl; [|apply IH].
  destruct (span_update_wider b x) as [_ Hc].
  pose proof (span_fold_wider pts (span_update b x)) as Hw.
  unfold box_wider, box_contains in *. lra.
Qed.

(** The computed box contains every point of the set. *)
Lemma span_box_bounds (pts : list Vec3) (x : Vec3) :
  x ∈ pts -> box_contains (span_box pts) x.
Proof. intros Hx. by apply span_fold_contains. Qed.

(** X2. A non-empty set of points gives no axis with its maximum below its
    minimum, so the span set-up prints no error line for it. *)
Lemma span_box_no_errors (eX eY eZ : string) (pts : list Vec3) :
  pts <> [] -> span_errors eX eY eZ (span_box pts) = [].
Proof.
  destruct pts as [|x pts]; [done|]. intros _.
  pose proof (span_box_bounds (x :: pts) x (list_elem_of_here x pts)) as Hc.
  destruct (span_box (x :: pts)) as [lo hi].
  unfold box_contains in Hc. cbn [fst snd] in Hc. unfold span_errors.
  repeat match goal with
         | |- context [Rlt_dec ?a ?b] => destruct (Rlt_dec a b)
         end; first [reflexivity | lra].
Qed.

Lemma span_box_no_errors_witness :
  span_errors "{** FENICS ERROR **} send_max_X: " "{** FENICS ERROR **} send_max_Y: "
    "{** FENICS ERROR **} send_max_Z: " (span_box [V3 1 2 3]) = [].
Proof.
  apply (span_box_no_errors "{** FENICS ERROR **} send_max_X: "
           "{** FENICS ERROR **} send_max_Y: " "{** FENICS ERROR **} send_max_Z: "
           [V3 1 2 3]).
  discriminate.
Defined.

(** ** Rigid-body push: the rotation fit *)

(** A proper rotation matrix. *)
Definition is_rotation (C : Mat3) : Prop :=
  mmul (transpose C) C = midentity /\ mmul C (transpose C) = midentity /\ det C = 1.

(** The loss of scipy's [Rotation.align_vectors(a, b)] with unit weights:
    the sum over the pairs of [|a_i - C b_i|^2]. *)
Definition align_loss (a b : list Vec3) (C : Mat3) : R :=
  rsum (zip_with (fun ai bi => norm2 (vsub ai (mulMV C bi))) a b).

(** Contract of [Rotation.align_vectors(a, b)[0]] (scipy reference: the
    rotation that minimises the loss above; the vectors are taken as given,
    no centroid is subtracted). *)
Definition is_align_vectors (a b : list Vec3) (C : Mat3) : Prop :=
  is_rotation C /\ forall C', is_rotation C' -> align_loss a b C <= align_loss a b C'.

Definition Rx (t : R) : Mat3 := M3 (V3 1 0 0) (V3 0 (cos t) (- sin t)) (V3 0 (sin t) (cos t)).
Definition Ry (t : R) : Mat3 := M3 (V3 (cos t) 0 (sin t)) (V3 0 1 0) (V3 (- sin t) 0 (cos t)).
Definition Rz (t : R) : Mat3 := M3 (V3 (cos t) (- sin t) 0) (V3 (sin t) (cos t) 0) (V3 0 0 1).

(** Contract of [as_euler('xyz', degrees=False)] (scipy reference: extrinsic
    rotations about x, then y, then z; first and third angle in [-pi, pi],
    second in [-pi/2, pi/2]). *)
Definition is_euler_xyz (M : Mat3) (e : Vec3) : Prop :=
  M = mmul (Rz (vz e)) (mmul (Ry (vy e)) (Rx (vx e))) /\
  - PI <= vx e <= PI /\ - (PI / 2) <= vy e <= PI / 2 /\ - PI <= vz e <= PI.

Lemma mmul_identity_r (C : Mat3) : mmul C midentity = C.
Proof. destruct C as [[a b c] [d e f] [g h i]]. vcalc. f_equal; f_equal; ring. Qed.

Lemma mulMV_identity (x : Vec3) : mulMV midentity x = x.
Proof. destruct x as [a b c]. vcalc. f_equal; ring. Qed.

Lemma identity_is_rotation : is_rotation midentity.
Proof. unfold is_rotation. vcalc. repeat split; try (f_equal; f_equal; ring); ring. Qed.

Lemma mulMV_mmul (A B : Mat3) (x : Vec3) : mulMV (mmul A B) x = mulMV A (mulMV B x).
Proof.
  destruct A as [[a b c] [d e f] [g h i]], B as [[a' b' c'] [d' e' f'] [g' h' i']],
    x as [x y z]. vcalc. f_equal; ring.
Qed.

(** A rotation preserves dot products. *)
Lemma rotation_dot (C : Mat3) (x y : Vec3) :
  mmul (transpose C) C = midentity -> dot (mulMV C x) (mulMV C y) = dot x y.
Proof.
  intros H.
  assert (E : dot (mulMV C x) (mulMV C y) = dot x (mulMV (mmul (transpose C) C) y)).
  { destruct C as [[a b c] [d e f] [g h i]], x as [x1 x2 x3], y as [y1 y2 y3].
    vcalc. ring. }
  by rewrite E, H, mulMV_identity.
Qed.

(** For every matrix, [C^T (C x × C y) = det C (x × y)]. *)
Lemma cross_cofactor (C : Mat3) (x y : Vec3) :
  mulMV (transpose C) (cross (mulMV C x) (mulMV C y)) = vscale (det C) (cross x y).
Proof.
  destruct C as [[a b c] [d e f] [g h i]], x as [x1 x2 x3], y as [y1 y2 y3].
  vcalc. f_equal; ring.
Qed.

(** A rotation commutes with the cross product. *)
Lemma rotation_cross (C : Mat3) (x y : Vec3) :
  is_rotation C -> mulMV C (cross x y) = cross (mulMV C x) (mulMV C y).
Proof.
  intros (_ & HCCt & Hdet).
  pose proof (cross_cofactor C x y) as E. rewrite Hdet in E.
  apply (f_equal (mulMV C)) in E.
  rewrite <- mulMV_mmul, HCCt, mulMV_identity in E. rewrite E.
  f_equal. destruct (cross x y) as [p q r]. vcalc. f_equal; ring.
Qed.

(** Expansion of a vector in the basis [v × w], [w × u], [w] for [w = u × v]. *)
Lemma basis_expand (u v x : Vec3) :
  vscale (norm2 (cross u v)) x =
  vadd (vadd (vscale (dot x u) (cross v (cross u v)))
             (vscale (dot x v) (cross (cross u v) u)))
       (vscale (dot x (cross u v)) (cross u v)).
Proof.
  destruct u as [u1 u2 u3], v as [v1 v2 v3], x as [x1 x2 x3]. vcalc. f_equal; ring.
Qed.

Lemma mulMV_linear3 (C : Mat3) (a b c : R) (p q r : Vec3) :
  mulMV C (vadd (vadd (vscale a p) (vscale b q)) (vscale c r)) =
  vadd (vadd (vscale a (mulMV C p)) (vscale b (mulMV C q))) (vscale c (mulMV C r)).
Proof.
  destruct C as [[c1 c2 c3] [c4 c5 c6] [c7 c8 c9]], p as [p1 p2 p3], q as [q1 q2 q3],
    r as [r1 r2 r3]. vcalc. f_equal; ring.
Qed.

Lemma mulMV_vscale (C : Mat3) (a : R) (p : Vec3) :
  mulMV C (vscale a p) = vscale a (mulMV C p).
Proof.
  destruct C as [[c1 c2 c3] [c4 c5 c6] [c7 c8 c9]], p as [p1 p2 p3].
  vcalc. f_equal; ring.
Qed.

Lemma vscale_cancel (k : R) (x y : Vec3) : k <> 0 -> vscale k x = vscale k y -> x = y.
Proof.
  intros Hk. destruct x as [a b c], y as [d e f]. vcalc. intros [= H1 H2 H3].
  f_equal; eapply Rmult_eq_reg_l; eauto.
Qed.

Lemma norm2_pos_nonzero (w : Vec3) : w <> vzero -> norm2 w <> 0.
Proof. intros Hw E. apply Hw, norm2_zero_inv. lra. Qed.

(** A matrix that fixes every vector is the identity. *)
Lemma fixes_all_identity (C : Mat3) : (forall x, mulMV C x = x) -> C = midentity.
Proof.
  intros H. pose proof (H (V3 1 0 0)) as H1. pose proof (H (V3 0 1 0)) as H2.
  pose proof (H (V3 0 0 1)) as H3.
  destruct C as [[a b c] [d e f] [g h i]]. vcalc.
  injection H1 as ? ? ?. injection H2 as ? ? ?. injection H3 as ? ? ?.
  repeat f_equal; lra.
Qed.

(** A rotation that fixes two linearly independent vectors is the identity. *)
Lemma rotation_fixing_two (C : Mat3) (u v : Vec3) :
  is_rotation C -> mulMV C u = u -> mulMV C v = v -> cross u v <> vzero ->
  C = midentity.
Proof.
  intros HC Hu Hv Hw. apply fixes_all_identity. intros x.
  apply (vscale_cancel (norm2 (cross u v))); [by apply norm2_pos_nonzero|].
  rewrite <- mulMV_vscale, (basis_expand u v x), mulMV_linear3.
  rewrite !(rotation_cross C _ _ HC), !Hu, !Hv. reflexivity.
Qed.

(** One term of the loss when the second vector is the first one moved
    by [t]. *)
Lemma loss_term (C : Mat3) (a t : Vec3) :
  mmul (transpose C) C = midentity ->
  norm2 (vsub a (mulMV C (vadd t a)))
  = norm2 t + norm2 (vsub a (mulMV C a)) + 2 * dot t a - 2 * dot a (mulMV C t).
Proof.
  intros HC.
  pose proof (rotation_dot C t t HC) as H1.
  pose proof (rotation_dot C a a HC) as H2.
  pose proof (rotation_dot C t a HC) as H3.
  destruct C as [[c1 c2 c3] [c4 c5 c6] [c7 c8 c9]], a as [a1 a2 a3], t as [t1 t2 t3].
  vcalc. nra.
Qed.

Lemma dot_sum4 (x a b c d : Vec3) :
  dot x a + dot x b + dot x c + dot x d = dot x (vsum [a; b; c; d]).
Proof.
  destruct x as [x1 x2 x3], a as [a1 a2 a3], b as [b1 b2 b3], c as [c1 c2 c3],
    d as [d1 d2 d3]. unfold vsum. vcalc. simpl. vcalc. ring.
Qed.

Lemma dot_comm (x y : Vec3) : dot x y = dot y x.
Proof. destruct x, y. vcalc. ring. Qed.

Lemma dot_zero_r (x : Vec3) : dot x vzero = 0.
Proof. destruct x. vcalc. ring. Qed.

(** The loss for four points of zero centroid, all moved by [t]. *)
Lemma loss_translation (C : Mat3) (a b c d t : Vec3) :
  mmul (transpose C) C = midentity ->
  vsum [a; b; c; d] = vzero ->
  align_loss [a; b; c; d] (zip_with vadd [t; t; t; t] [a; b; c; d]) C
  = 4 * norm2 t
    + (norm2 (vsub a (mulMV C a)) + norm2 (vsub b (mulMV C b))
       + norm2 (vsub c (mulMV C c)) + norm2 (vsub d (mulMV C d))).
Proof.
  intros HC Hsum. unfold align_loss. cbn [zip_with rsum foldr].
  rewrite !(loss_term C _ t HC).
  pose proof (dot_sum4 t a b c d) as E1. rewrite Hsum, dot_zero_r in E1.
  pose proof (dot_sum4 (mulMV C t) a b c d) as E2. rewrite Hsum, dot_zero_r in E2.
  rewrite (dot_comm a), (dot_comm b), (dot_comm c), (dot_comm d). lra.
Qed.

Lemma vsub_mulMV_identity (a : Vec3) : norm2 (vsub a (mulMV midentity a)) = 0.
Proof. destruct a as [x y z]. vcalc. ring. Qed.

Lemma fixed_of_norm2 (C : Mat3) (a : Vec3) :
  norm2 (vsub a (mulMV C a)) <= 0 -> mulMV C a = a.
Proof.
  intros H%norm2_zero_inv. destruct (mulMV C a) as [p q r], a as [x y z].
  vcalc. injection H as ? ? ?. f_equal; lra.
Qed.

(** For reference points of zero centroid, moved by one vector, the fitted
    rotation fixes each reference point. *)
Lemma align_translation_fixes (C : Mat3) (a b c d t : Vec3) :
  vsum [a; b; c; d] = vzero ->
  is_align_vectors [a; b; c; d] (zip_with vadd [t; t; t; t] [a; b; c; d]) C ->
  Forall (fun x => mulMV C x = x) [a; b; c; d].
Proof.
  intros Hsum [HC Hmin]. specialize (Hmin midentity identity_is_rotation).
  rewrite (loss_translation C a b c d t (proj1 HC) Hsum) in Hmin.
  rewrite (loss_translation midentity a b c d t (proj1 identity_is_rotation) Hsum) in Hmin.
  rewrite !vsub_mulMV_identity in Hmin.
  pose proof (norm2_nonneg (vsub a (mulMV C a))).
  pose proof (norm2_nonneg (vsub b (mulMV C b))).
  pose proof (norm2_nonneg (vsub c (mulMV C c))).
  pose proof (norm2_nonneg (vsub d (mulMV C d))).
  repeat constructor; apply fixed_of_norm2; lra.
Qed.

(** The identity is a least-squares fit for such points. *)
Lemma identity_aligns_translation (a b c d t : Vec3) :
  vsum [a; b; c; d] = vzero ->
  is_align_vectors [a; b; c; d] (zip_with vadd [t; t; t; t] [a; b; c; d]) midentity.
Proof.
  intros Hsum. split; [apply identity_is_rotation|]. intros C' HC'.
  rewrite (loss_translation C' a b c d t (proj1 HC') Hsum).
  rewrite (loss_translation midentity a b c d t (proj1 identity_is_rotation) Hsum).
  rewrite !vsub_mulMV_identity.
  pose proof (norm2_nonneg (vsub a (mulMV C' a))).
  pose proof (norm2_nonneg (vsub b (mulMV C' b))).
  pose proof (norm2_nonneg (vsub c (mulMV C' c))).
  pose proof (norm2_nonneg (vsub d (mulMV C' d))).
  lra.
Qed.

(** *** Euler angles of the identity *)

Lemma euler_matrix (a b c : R) :
  mmul (Rz c) (mmul (Ry b) (Rx a)) =
  M3 (V3 (cos c * cos b) (cos c * sin b * sin a - sin c * cos a)
         (cos c * sin b * cos a + sin c * sin a))
     (V3 (sin c * cos b) (sin c * sin b * sin a + cos c * cos a)
         (sin c * sin b * cos a - cos c * sin a))
     (V3 (- sin b) (cos b * sin a) (cos b * cos a)).
Proof. unfold Rx, Ry, Rz. vcalc. f_equal; f_equal; ring. Qed.

Lemma sin_cos_zero (x : R) : - PI <= x <= PI -> sin x = 0 -> cos x = 1 -> x = 0.
Proof.
  intros [Hlo Hhi] Hs Hc. pose proof PI_RGT_0 as Hpi.
  destruct (Rle_dec 0 x) as [Hx|Hx].
  - destruct (sin_eq_O_2PI_0 x) as [E|[E|E]]; try lra.
    rewrite E, cos_PI in Hc. lra.
  - destruct (sin_eq_O_2PI_0 (- x)) as [E|[E|E]]; try lra.
    + rewrite sin_neg. lra.
    + rewrite <- cos_neg, E, cos_PI in Hc. lra.
Qed.

Lemma sin_zero_half (x : R) : - (PI / 2) <= x <= PI / 2 -> sin x = 0 -> x = 0.
Proof.
  intros [Hlo Hhi] Hs. pose proof PI_RGT_0 as Hpi.
  destruct (Rle_dec 0 x) as [Hx|Hx].
  - destruct (sin_eq_O_2PI_0 x) as [E|[E|E]]; lra.
  - destruct (sin_eq_O_2PI_0 (- x)) as [E|[E|E]]; try lra.
    rewrite sin_neg. lra.
Qed.

(** The only [xyz] Euler angles of the identity are zero. *)
Lemma euler_of_identity (e : Vec3) : is_euler_xyz midentity e -> e = vzero.
Proof.
  destruct e as [a b c]. unfold is_euler_xyz. cbn [vx vy vz].
  intros (HM & Ha & Hb & Hc). rewrite euler_matrix in HM. unfold midentity in HM.
  injection HM as H11 H12 H13 H21 H22 H23 H31 H32 H33.
  assert (b = 0) as -> by (apply sin_zero_half; [exact Hb | lra]).
  rewrite cos_0 in *.
  assert (a = 0) as -> by (apply sin_cos_zero; [exact Ha | lra | lra]).
  assert (c = 0) as -> by (apply sin_cos_zero; [exact Hc | lra | lra]).
  reflexivity.
Qed.

Lemma zero_is_euler_of_identity : is_euler_xyz midentity vzero.
Proof.
  unfold is_euler_xyz, vzero. cbn [vx vy vz]. rewrite euler_matrix.
  rewrite cos_0, sin_0. pose proof PI_RGT_0.
  split; [unfold midentity; f_equal; f_equal; ring | lra].
Qed.

(** *** The pushed rigid-body motion under a pure translation *)

(** [init_array]: the four reference points. *)
Definition init_array (cfg : Config) : list Vec3 :=
  [pointSDOFa cfg; pointSDOFb cfg; pointSDOFc cfg; pointSDOFd cfg].

(** The four reference points are displaced by one vector [t]. *)
Definition pure_translation (cfg : Config) (df : DisplacementFunction) (t : Vec3) : Prop :=
  Forall (fun p => point_disp df p = t) (init_array cfg).

(** scipy keeps its contracts on the arguments [MUI_Push] passes. *)
Definition scipy_contract (cfg : Config) (df : DisplacementFunction)
    (align_vectors : list Vec3 -> list Vec3 -> Mat3) (as_euler_xyz : Mat3 -> Vec3) : Prop :=
  let init := init_array cfg in
  let corners_new := zip_with vadd (map (point_disp df) init) init in
  let rotation := mmul (align_vectors init corners_new) midentity in
  is_align_vectors init corners_new (align_vectors init corners_new) /\
  is_euler_xyz rotation (as_euler_xyz rotation).

(** A rigid-body push configuration with the given reference points. *)
Definition rigid_cfg (a b c d : Vec3) : Config :=
  {| iMUICoupling := true; iparallelFSICoupling := false; undRelxCpl := 1;
     iMUIFetchMode := 0; iMUIFetchMany := true; iMUIPushMode := 1;
     iMUIPushMany := true; iPushX := true; iPushY := true; iPushZ := true;
     forgetTStepsMUI := 0; num_sub_iteration := 1;
     pointSDOFa := a; pointSDOFb := b; pointSDOFc := c; pointSDOFd := d |}.

Lemma vmean_same4 (t : Vec3) : vmean [t; t; t; t] = t.
Proof. destruct t as [x y z]. unfold vmean, vsum. simpl. vcalc. f_equal; field. Qed.

Lemma vneg_zero : vneg vzero = vzero.
Proof. vcalc. f_equal; ring. Qed.

Lemma align_loss_nonneg (C : Mat3) (a : list Vec3) :
  forall b, 0 <= align_loss a b C.
Proof.
  unfold align_loss. induction a as [|x a IH]; intros [|y b]; simpl; try lra.
  pose proof (norm2_nonneg (vsub x (mulMV C y))). specialize (IH b). lra.
Qed.

(** The quarter turn about z that takes y to x. *)
Definition quarter_turn : Mat3 := M3 (V3 0 1 0) (V3 (-1) 0 0) (V3 0 0 1).

(** Reference points on the line x = 1, y = 0, all moved by (-1, 1, 0). *)
Definition offset_cfg : Config :=
  rigid_cfg (V3 1 0 0) (V3 1 0 1) (V3 1 0 (-1)) (V3 1 0 2).
Definition offset_df : DisplacementFunction :=
  {| get_local := []; point_disp := fun _ => V3 (-1) 1 0 |}.

Lemma quarter_turn_fits :
  scipy_contract offset_cfg offset_df (fun _ _ => quarter_turn)
    (fun _ => V3 0 0 (- (PI / 2))).
Proof.
  unfold scipy_contract. cbv zeta. rewrite mmul_identity_r. split.
  - split.
    + unfold is_rotation, quarter_turn. vcalc.
      repeat split; try (f_equal; f_equal; ring); ring.
    + intros C' _. eapply Rle_trans; [|apply align_loss_nonneg].
      right. unfold align_loss, quarter_turn. simpl. vcalc. ring.
  - unfold is_euler_xyz. cbn [vx vy vz]. rewrite euler_matrix.
    rewrite cos_0, sin_0, cos_neg, sin_neg, cos_PI2, sin_PI2.
    pose proof PI_RGT_0. split; [|lra].
    unfold quarter_turn. f_equal; f_equal; ring.
Qed.

(** C7 as stated fails: these reference points are displaced by one
    vector, scipy's contracts hold, and the pushed yaw is pi/2. *)
Lemma rigid_translation_counterexample :
  ~ (forall cfg av ae df t,
       pure_translation cfg df t -> scipy_contract cfg df av ae ->
       rigid_body_motion cfg av ae df = (t, vzero)).
Proof.
  intros H.
  specialize (H offset_cfg (fun _ _ => quarter_turn) (fun _ => V3 0 0 (- (PI / 2)))
                offset_df (V3 (-1) 1 0)).
  assert (Ht : pure_translation offset_cfg offset_df (V3 (-1) 1 0))
    by (by repeat constructor).
  specialize (H Ht quarter_turn_fits).
  apply (f_equal (fun m => vz (snd m))) in H.
  unfold rigid_body_motion in H. cbv zeta in H. cbn [snd vneg vzero vz] in H.
  pose proof PI_RGT_0. lra.
Qed.

(** C7, amended.  In rigid-body push mode, when the four reference points
    are displaced by one vector [t], the pushed surge/sway/heave are the
    components of [t].  The rotation is fitted to the position vectors as
    they are, so the pushed roll/pitch/yaw are 0 when, in addition, the
    reference points have their centroid at the origin and two of them are
    linearly independent. *)
Theorem rigid_translation_push (cfg : Config)
    (align_vectors : list Vec3 -> list Vec3 -> Mat3) (as_euler_xyz : Mat3 -> Vec3)
    (dofs_to_xyz : list Vec3) (dofs_push : list nat) (df : DisplacementFunction)
    (t : Vec3) (N : Z) :
  iMUIPushMode cfg = 1%Z ->
  pure_translation cfg df t ->
  scipy_contract cfg df align_vectors as_euler_xyz ->
  exists angles,
    MUI_Push cfg align_vectors as_euler_xyz dofs_to_xyz dofs_push df N
    = Some ([push "dispX" origin (vx t); push "dispY" origin (vy t);
             push "dispZ" origin (vz t); push "angleX" origin (vx angles);
             push "angleY" origin (vy angles); push "angleZ" origin (vz angles);
             commit N] ++ spec_window_trim (forgetTStepsMUI cfg) N) /\
    (vsum (init_array cfg) = vzero ->
     (exists u v, u ∈ init_array cfg /\ v ∈ init_array cfg /\ cross u v <> vzero) ->
     angles = vzero).
Proof.
  intros Hmode Ht [Hfit Heuler].
  unfold pure_translation, init_array in *.
  pose proof (Forall_inv Ht) as Ea. apply Forall_inv_tail in Ht.
  pose proof (Forall_inv Ht) as Eb. apply Forall_inv_tail in Ht.
  pose proof (Forall_inv Ht) as Ec. apply Forall_inv_tail in Ht.
  pose proof (Forall_inv Ht) as Ed. clear Ht. cbv beta in Ea, Eb, Ec, Ed.
  cbn [map zip_with] in Hfit, Heuler. rewrite Ea, Eb, Ec, Ed in Hfit, Heuler.
  set (C := align_vectors _ _) in Hfit, Heuler.
  exists (vneg (as_euler_xyz (mmul C midentity))). split.
  - unfold MUI_Push, rigid_body_motion. rewrite Hmode. cbn [Z.eqb].
    rewrite Ea, Eb, Ec, Ed, vmean_same4. fold C. cbn [mbind option_bind].
    by rewrite code_trim_is_spec.
  - intros Hsum (u & v & Hu & Hv & Hcross).
    pose proof (align_translation_fixes C _ _ _ _ t Hsum Hfit) as Hfix.
    rewrite Forall_forall in Hfix.
    assert (C = midentity) as HC.
    { apply (rotation_fixing_two C u v (proj1 Hfit)); [| |exact Hcross].
      - apply Hfix. by apply list_elem_of_In.
      - apply Hfix. by apply list_elem_of_In. }
    rewrite HC, mmul_identity_r in Heuler |- *.
    rewrite (euler_of_identity _ Heuler). apply vneg_zero.
Qed.

Lemma rigid_translation_push_witness :
  MUI_Push (rigid_cfg (V3 1 0 0) (V3 0 1 0) (V3 (-1) 0 0) (V3 0 (-1) 0))
    (fun _ _ => midentity) (fun _ => vzero) [] []
    {| get_local := []; point_disp := fun _ => V3 1 2 3 |} 1
  = Some [push "dispX" origin 1; push "dispY" origin 2; push "dispZ" origin 3;
          push "angleX" origin 0; push "angleY" origin 0; push "angleZ" origin 0;
          commit 1].
Proof.
  destruct (rigid_translation_push
              (rigid_cfg (V3 1 0 0) (V3 0 1 0) (V3 (-1) 0 0) (V3 0 (-1) 0))
              (fun _ _ => midentity) (fun _ => vzero) [] []
              {| get_local := []; point_disp := fun _ => V3 1 2 3 |} (V3 1 2 3) 1)
    as (angles & Hpush & Hangles).
  - reflexivity.
  - by repeat constructor.
  - unfold scipy_contract. cbv zeta. rewrite mmul_identity_r. split.
    + apply (identity_aligns_translation (V3 1 0 0) (V3 0 1 0) (V3 (-1) 0 0)
               (V3 0 (-1) 0) (V3 1 2 3)).
      unfold vsum. simpl. vcalc. f_equal; ring.
    + apply zero_is_euler_of_identity.
  - rewrite Hpush, Hangles.
    + reflexivity.
    + unfold init_array, vsum. simpl. vcalc. f_equal; ring.
    + exists (V3 1 0 0), (V3 0 1 0). split; [|split].
      * apply list_elem_of_here.
      * apply list_elem_of_further, list_elem_of_here.
      * vcalc. intros [= _ _ E]. lra.
Defined.

(** * Further properties of the coupling functions *)

(** ** Point lookup in the global fetch list (lines 210-224) *)

Lemma vec3_eq_dec_fields (p x : Vec3) :
  vx p = vx x -> vy p = vy x -> vz p = vz x -> p = x.
Proof. destruct p, x. simpl. by intros -> -> ->. Qed.

(** From any non-negative start index [ii], the search returns -999 when
    no point of the list equals [x], and else [ii] plus the position of the
    first point equal to [x]. *)
Lemma find_point_offset (xyz_fetch : list Vec3) (x : Vec3) :
  forall ii : Z,
    ((x ∉ xyz_fetch) /\ find_point xyz_fetch x ii = (-999)%Z) \/
    (exists j : nat,
       xyz_fetch !! j = Some x /\
       (forall j', (j' < j)%nat -> xyz_fetch !! j' <> Some x) /\
       find_point xyz_fetch x ii = (ii + Z.of_nat j)%Z).
Proof.
  induction xyz_fetch as [|pp rest IH]; intros ii.
  - left. split; [apply not_elem_of_nil | reflexivity].
  - cbn [find_point].
    assert (Hmiss : pp <> x ->
      ((x ∉ pp :: rest) /\ find_point rest x (ii + 1) = (-999)%Z) \/
      (exists j : nat,
         (pp :: rest) !! j = Some x /\
         (forall j', (j' < j)%nat -> (pp :: rest) !! j' <> Some x) /\
         find_point rest x (ii + 1) = (ii + Z.of_nat j)%Z)).
    { intros Hne. destruct (IH (ii + 1)%Z) as [[Hnot ->]|(j & Hj & Hfirst & ->)].
      - left. split; [|reflexivity]. apply not_elem_of_cons. split; congruence.
      - right. exists (S j). split; [exact Hj|]. split; [|lia].
        intros [|j'] Hlt; simpl; [congruence|]. apply Hfirst. lia. }
    destruct (Req_dec_T (vx pp) (vx x)) as [Ex|Nx]; [|apply Hmiss; congruence].
    destruct (Req_dec_T (vy pp) (vy x)) as [Ey|Ny]; [|apply Hmiss; congruence].
    destruct (Req_dec_T (vz pp) (vz x)) as [Ez|Nz]; [|apply Hmiss; congruence].
    right. exists 0%nat. rewrite (vec3_eq_dec_fields pp x Ex Ey Ez).
    split; [reflexivity|]. split; [lia|]. simpl. lia.
Qed.

(** X4. When the point lookup returns a non-negative [point_ID], the global
    fetch list holds exactly the searched coordinates at that index, and at
    no smaller index. *)
Theorem find_point_found (xyz_fetch : list Vec3) (x : Vec3) :
  (0 <= find_point xyz_fetch x 0)%Z ->
  exists j : nat,
    find_point xyz_fetch x 0 = Z.of_nat j /\
    xyz_fetch !! j = Some x /\
    (forall j', (j' < j)%nat -> xyz_fetch !! j' <> Some x).
Proof.
  intros Hpos. destruct (find_point_offset xyz_fetch x 0) as [[_ E]|(j & Hj & Hfirst & E)].
  - rewrite E in Hpos. lia.
  - exists j. split; [by rewrite E | by split].
Qed.

Lemma find_point_found_witness :
  exists j : nat,
    find_point [V3 0 0 0; V3 1 2 3] (V3 1 2 3) 0 = Z.of_nat j /\
    [V3 0 0 0; V3 1 2 3] !! j = Some (V3 1 2 3) /\
    (forall j', (j' < j)%nat -> [V3 0 0 0; V3 1 2 3] !! j' <> Some (V3 1 2 3)).
Proof.
  apply (find_point_found [V3 0 0 0; V3 1 2 3] (V3 1 2 3)).
  cbn [find_point vx vy vz].
  destruct (Req_dec_T 0 1) as [E|_]; [lra|].
  destruct (Req_dec_T 1 1) as [_|E]; [|lra].
  destruct (Req_dec_T 2 2) as [_|E]; [|lra].
  destruct (Req_dec_T 3 3) as [_|E]; [|lra].
  lia.
Defined.

Lemma find_point_offset_miss (xyz_fetch : list Vec3) (x : Vec3) :
  (find_point xyz_fetch x 0 <? 0)%Z = true <-> x ∉ xyz_fetch.
Proof.
  destruct (find_point_offset xyz_fetch x 0) as [[Hnot E]|(j & Hj & _ & E)]; rewrite E.
  - done.
  - assert ((0 + Z.of_nat j <? 0)%Z = false) as -> by (apply Z.ltb_ge; lia).
    split; [done|]. intros Hnot. exfalso. apply Hnot. by eapply list_elem_of_lookup_2.
Qed.

(** X5. The point lookup reports a miss (a negative [point_ID], which is
    then -999) exactly when no point of the global fetch list has the
    searched coordinates. *)
Theorem find_point_missing (xyz_fetch : list Vec3) (x : Vec3) :
  ((find_point xyz_fetch x 0 <? 0)%Z = true <-> x ∉ xyz_fetch) /\
  ((find_point xyz_fetch x 0 <? 0)%Z = true -> find_point xyz_fetch x 0 = (-999)%Z).
Proof.
  destruct (find_point_offset xyz_fetch x 0) as [[Hnot E]|(j & Hj & _ & E)]; rewrite E.
  - split; [|done]. split; [done|]. intros _. reflexivity.
  - assert ((0 + Z.of_nat j <? 0)%Z = false) as -> by (apply Z.ltb_ge; lia).
    split; [|done]. split; [done|]. intros Hnot. exfalso. apply Hnot.
    by eapply list_elem_of_lookup_2.
Qed.

(** ** What the span set-up hands to the sampler construction *)

(** The error line of a failed point lookup. *)
Definition lookup_error_line : Event :=
  print_error "{** FENICS ERROR **} cannot find point: ".

(** What a returning loop over the fetch DOFs has done. *)
Lemma recv_loop_result (dofs_to_xyz xyz_fetch : list Vec3) (l : list nat) :
  forall s s',
    recv_loop dofs_to_xyz xyz_fetch l s = Some s' ->
    exists pts,
      mapM (fun p => dofs_to_xyz !! p) l = Some pts /\
      recv_box s' = foldl span_update (recv_box s) pts /\
      point3dList s' = point3dList s ++ pts /\
      point3dGlobalID s' =
        point3dGlobalID s ++ map (fun x => find_point xyz_fetch x 0) pts /\
      recv_log s' =
        recv_log s ++
        flat_map (fun x => if (find_point xyz_fetch x 0 <? 0)%Z
                           then [lookup_error_line] else []) pts.
Proof.
  induction l as [|p l IH]; intros s s'; cbn [recv_loop mapM].
  - intros [= <-]. exists []. simpl. by rewrite !app_nil_r.
  - destruct (dofs_to_xyz !! p) as [x|]; simpl; [|done]. intros Hloop.
    destruct (IH _ _ Hloop) as (pts & -> & Hbox & Hlist & Hids & Hlog).
    cbn [recv_box point3dList point3dGlobalID recv_log] in *.
    exists (x :: pts). simpl.
    rewrite Hbox, Hlist, Hids, Hlog, <- !app_assoc. done.
Qed.

Lemma send_loop_result (dofs_to_xyz : list Vec3) (l : list nat) :
  forall b b',
    send_loop dofs_to_xyz l b = Some b' ->
    exists pts, mapM (fun p => dofs_to_xyz !! p) l = Some pts /\
                b' = foldl span_update b pts.
Proof.
  induction l as [|p l IH]; intros b b'; cbn [send_loop mapM].
  - intros [= <-]. by exists [].
  - destruct (dofs_to_xyz !! p) as [x|]; simpl; [|done]. intros Hloop.
    destruct (IH _ _ Hloop) as (pts & -> & ->). by exists (x :: pts).
Qed.

(** The trace of a returning span set-up, by its parts. *)
Lemma spans_trace (cfg : Config) (dofs_to_xyz : list Vec3)
    (dofs_fetch_list dofs_push_list : list nat) (xyz_fetch : list Vec3)
    (Total_Time_Steps : Z) (tr : list Event) (pts : list Vec3) (ids : list Z) :
  iMUICoupling cfg = true ->
  MUI_Sampler_Define_spans cfg dofs_to_xyz dofs_fetch_list dofs_push_list
    xyz_fetch Total_Time_Steps = Some (tr, pts, ids) ->
  exists send_pts,
    mapM (fun p => dofs_to_xyz !! p) dofs_push_list = Some send_pts /\
    mapM (fun p => dofs_to_xyz !! p) dofs_fetch_list = Some pts /\
    ids = map (fun x => find_point xyz_fetch x 0) pts /\
    tr = (span_errors "{** FENICS ERROR **} send_max_X: "
                      "{** FENICS ERROR **} send_max_Y: "
                      "{** FENICS ERROR **} send_max_Z: " (span_box send_pts)
          ++ (if decide (dofs_push_list = []) then []
              else [announce_send_span 0 (Total_Time_Steps * num_sub_iteration cfg)
                      (fst (span_box send_pts)) (snd (span_box send_pts)) false]))
         ++ flat_map (fun x => if (find_point xyz_fetch x 0 <? 0)%Z
                               then [lookup_error_line] else []) pts
         ++ span_errors "{** FENICS ERROR **} recv_max_X: "
                        "{** FENICS ERROR **} recv_max_Y: "
                        "{** FENICS ERROR **} recv_max_Z: " (span_box pts)
         ++ (if decide (dofs_fetch_list = []) then []
             else [announce_recv_span 0 (Total_Time_Steps * num_sub_iteration cfg * 10)
                     (fst (span_box pts)) (snd (span_box pts)) false]).
Proof.
  intros Hon. unfold MUI_Sampler_Define_spans. rewrite Hon.
  destruct (send_loop _ _ _) as [send|] eqn:Hsend; simpl; [|done].
  destruct (recv_loop _ _ _ _) as [s|] eqn:Hrecv; simpl; [|done].
  intros [= <- <- <-].
  destruct (send_loop_result _ _ _ _ Hsend) as (send_pts & Hs & ->).
  destruct (recv_loop_result _ _ _ _ _ Hrecv) as (rpts & Hr & Hbox & Hlist & Hids & Hlog).
  simpl in Hbox, Hlist, Hids, Hlog.
  exists send_pts. rewrite Hlist, Hids, Hlog, Hbox, !length_eqb_nil.
  fold (span_box send_pts). fold (span_box rpts).
  split; [exact Hs|]. split; [exact Hr|]. split; [reflexivity|].
  by destruct (decide (dofs_push_list = [])), (decide (dofs_fetch_list = [])).
Qed.

Lemma lookup_errors_elem (xyz_fetch pts : list Vec3) (e : Event) :
  e ∈ flat_map (fun x => if (find_point xyz_fetch x 0 <? 0)%Z
                         then [lookup_error_line] else []) pts
  <-> e = lookup_error_line /\ exists x, x ∈ pts /\ x ∉ xyz_fetch.
Proof.
  induction pts as [|x pts IH]; simpl.
  - split; [by intros H%elem_of_nil|]. by intros [_ (x & H%elem_of_nil & _)].
  - rewrite elem_of_app, IH.
    pose proof (find_point_offset_miss xyz_fetch x) as Hx.
    destruct (find_point xyz_fetch x 0 <? 0)%Z.
    + rewrite list_elem_of_singleton. split.
      * intros [->|[-> (y & Hy & Hn)]]; (split; [done|]).
        -- exists x. split; [apply list_elem_of_here | by apply Hx].
        -- exists y. split; [by apply list_elem_of_further | done].
      * intros [-> _]. by left.
    + split.
      * intros [H%elem_of_nil|[-> (y & Hy & Hn)]]; [done|]. split; [done|].
        exists y. split; [by apply list_elem_of_further | done].
      * intros [-> (y & Hy & Hn)]. right. split; [done|].
        apply elem_of_cons in Hy as [->|Hy]; [|by exists y].
        apply Hx in Hn. discriminate.
Qed.

(** The degenerate-box error lines are not the lookup error line. *)
Lemma span_errors_other (eX eY eZ : string) (b : Vec3 * Vec3) :
  (if String.eqb eX "{** FENICS ERROR **} cannot find point: " then false else true) = true ->
  (if String.eqb eY "{** FENICS ERROR **} cannot find point: " then false else true) = true ->
  (if String.eqb eZ "{** FENICS ERROR **} cannot find point: " then false else true) = true ->
  lookup_error_line ∉ span_errors eX eY eZ b.
Proof.
  intros HX HY HZ. destruct b as [lo hi]. unfold span_errors, lookup_error_line.
  assert (Hne : forall s, (if String.eqb s "{** FENICS ERROR **} cannot find point: "
                           then false else true) = true ->
            print_error "{** FENICS ERROR **} cannot find point: " <> print_error s).
  { intros s Hs [= <-]. by rewrite String.eqb_refl in Hs. }
  rewrite !elem_of_app.
  destruct (Rlt_dec _ _), (Rlt_dec _ _), (Rlt_dec _ _);
    rewrite ?list_elem_of_singleton, ?elem_of_nil; intros [H|[H|H]];
    try done;
    first [exact (Hne _ HX H) | exact (Hne _ HY H) | exact (Hne _ HZ H)].
Qed.

(** X6. A returning span set-up hands the sampler construction one point
    and one global point index per fetch DOF, in the order of the fetch
    list: the DOF's coordinates and their lookup in the global fetch list.
    The line "cannot find point" is printed exactly when some fetch
    coordinate is not in the global fetch list. *)
Theorem sampler_point_lists (cfg : Config) (dofs_to_xyz : list Vec3)
    (dofs_fetch_list dofs_push_list : list nat) (xyz_fetch : list Vec3)
    (Total_Time_Steps : Z) (tr : list Event) (pts : list Vec3) (ids : list Z) :
  iMUICoupling cfg = true ->
  MUI_Sampler_Define_spans cfg dofs_to_xyz dofs_fetch_list dofs_push_list
    xyz_fetch Total_Time_Steps = Some (tr, pts, ids) ->
  mapM (fun p => dofs_to_xyz !! p) dofs_fetch_list = Some pts /\
  ids = map (fun x => find_point xyz_fetch x 0) pts /\
  length pts = length dofs_fetch_list /\
  length ids = length dofs_fetch_list /\
  (lookup_error_line ∈ tr <-> exists x, x ∈ pts /\ x ∉ xyz_fetch).
Proof.
  intros Hon Hrun.
  destruct (spans_trace _ _ _ _ _ _ _ _ _ Hon Hrun) as (send_pts & _ & Hpts & -> & ->).
  pose proof (length_mapM _ _ _ Hpts) as Hlen.
  split; [exact Hpts|]. split; [reflexivity|]. split; [done|].
  split; [by rewrite length_map|].
  rewrite !elem_of_app, lookup_errors_elem.
  pose proof (span_errors_are_errors "{** FENICS ERROR **} send_max_X: "
    "{** FENICS ERROR **} send_max_Y: " "{** FENICS ERROR **} send_max_Z: "
    (span_box send_pts)) as Hs.
  pose proof (span_errors_are_errors "{** FENICS ERROR **} recv_max_X: "
    "{** FENICS ERROR **} recv_max_Y: " "{** FENICS ERROR **} recv_max_Z: "
    (span_box pts)) as Hr.
  split; [|intros H; right; left; by split].
  intros [[H|H]|[H|[H|H]]].
  - apply span_errors_other in H; [done|reflexivity..].
  - destruct (decide (dofs_push_list = []));
      [by apply elem_of_nil in H | by apply list_elem_of_singleton in H].
  - by destruct H.
  - apply span_errors_other in H; [done|reflexivity..].
  - destruct (decide (dofs_fetch_list = []));
      [by apply elem_of_nil in H | by apply list_elem_of_singleton in H].
Qed.

(** With coupling on and the DOF indices in range the span set-up returns. *)
Lemma spans_returns (cfg : Config) (dofs_to_xyz : list Vec3)
    (dofs_fetch_list dofs_push_list : list nat) (xyz_fetch : list Vec3)
    (Total_Time_Steps : Z) :
  iMUICoupling cfg = true ->
  Forall (fun p => (p < length dofs_to_xyz)%nat) dofs_push_list ->
  Forall (fun p => (p < length dofs_to_xyz)%nat) dofs_fetch_list ->
  exists tr pts ids,
    MUI_Sampler_Define_spans cfg dofs_to_xyz dofs_fetch_list dofs_push_list
      xyz_fetch Total_Time_Steps = Some (tr, pts, ids).
Proof.
  intros Hon Hpush Hfetch. unfold MUI_Sampler_Define_spans. rewrite Hon.
  destruct (send_loop_box dofs_to_xyz dofs_push_list Hpush span_init)
    as (send_pts & _ & ->). simpl.
  destruct (recv_loop_box dofs_to_xyz xyz_fetch dofs_fetch_list Hfetch
              {| recv_box := span_init; recv_log := []; point3dList := [];
                 point3dGlobalID := [] |})
    as (recv_pts & s & _ & -> & _); [constructor|]. simpl. eauto.
Qed.

Lemma sampler_point_lists_witness :
  exists tr pts ids,
    MUI_Sampler_Define_spans (fetch_cfg false 1 0 true) [V3 1 2 3] [0%nat] []
      [V3 1 2 3] 10 = Some (tr, pts, ids) /\
    length pts = 1%nat /\ length ids = 1%nat.
Proof.
  destruct (spans_returns (fetch_cfg false 1 0 true) [V3 1 2 3] [0%nat] []
              [V3 1 2 3] 10) as (tr & pts & ids & Hrun);
    [reflexivity | constructor | repeat constructor |].
  exists tr, pts, ids. split; [exact Hrun|].
  destruct (sampler_point_lists (fetch_cfg false 1 0 true) [V3 1 2 3] [0%nat] []
              [V3 1 2 3] 10 tr pts ids eq_refl Hrun) as (_ & _ & Hp & Hi & _).
  by split.
Defined.

Lemma mapM_lookup_elem (dofs_to_xyz : list Vec3) (l : list nat) (pts : list Vec3)
    (p : nat) (x : Vec3) :
  mapM (fun p => dofs_to_xyz !! p) l = Some pts ->
  p ∈ l -> dofs_to_xyz !! p = Some x -> x ∈ pts.
Proof.
  intros H%mapM_Some_1. induction H as [|q y l pts Hq _ IH]; intros Hin Hx.
  - by apply elem_of_nil in Hin.
  - apply elem_of_cons in Hin as [->|Hin].
    + rewrite Hx in Hq. injection Hq as <-. apply list_elem_of_here.
    + apply list_elem_of_further. by apply IH.
Qed.

Lemma errors_not_announcement (ev : list Event) (e : Event) :
  Forall (fun e => is_print_error e = true) ev -> is_print_error e = false -> e ∉ ev.
Proof.
  intros Hall He Hin. rewrite Forall_forall in Hall.
  apply list_elem_of_In in Hin. apply Hall in Hin. congruence.
Qed.

Lemma lookup_errors_are_errors (xyz_fetch pts : list Vec3) :
  Forall (fun e => is_print_error e = true)
    (flat_map (fun x => if (find_point xyz_fetch x 0 <? 0)%Z
                        then [lookup_error_line] else []) pts).
Proof.
  induction pts as [|x pts IH]; simpl; [constructor|].
  apply Forall_app. split; [|exact IH].
  destruct (find_point xyz_fetch x 0 <? 0)%Z; by repeat constructor.
Qed.

(** X7. Every span the set-up announces contains the coordinates of every
    DOF of its set: the send span those of the push DOFs, the receive span
    those of the fetch DOFs. *)
Theorem announced_spans_contain (cfg : Config) (dofs_to_xyz : list Vec3)
    (dofs_fetch_list dofs_push_list : list nat) (xyz_fetch : list Vec3)
    (Total_Time_Steps : Z) (tr : list Event) (pts : list Vec3) (ids : list Z) :
  iMUICoupling cfg = true ->
  MUI_Sampler_Define_spans cfg dofs_to_xyz dofs_fetch_list dofs_push_list
    xyz_fetch Total_Time_Steps = Some (tr, pts, ids) ->
  (forall t0 t1 lo hi sync p x,
     announce_send_span t0 t1 lo hi sync ∈ tr ->
     p ∈ dofs_push_list -> dofs_to_xyz !! p = Some x -> box_contains (lo, hi) x) /\
  (forall t0 t1 lo hi sync p x,
     announce_recv_span t0 t1 lo hi sync ∈ tr ->
     p ∈ dofs_fetch_list -> dofs_to_xyz !! p = Some x -> box_contains (lo, hi) x).
Proof.
  intros Hon Hrun.
  destruct (spans_trace _ _ _ _ _ _ _ _ _ Hon Hrun) as (send_pts & Hs & Hr & _ & ->).
  pose proof (span_errors_are_errors "{** FENICS ERROR **} send_max_X: "
    "{** FENICS ERROR **} send_max_Y: " "{** FENICS ERROR **} send_max_Z: "
    (span_box send_pts)) as Es.
  pose proof (span_errors_are_errors "{** FENICS ERROR **} recv_max_X: "
    "{** FENICS ERROR **} recv_max_Y: " "{** FENICS ERROR **} recv_max_Z: "
    (span_box pts)) as Er.
  pose proof (lookup_errors_are_errors xyz_fetch pts) as El.
  split; intros t0 t1 lo hi sync p x Hin Hp Hx; rewrite !elem_of_app in Hin;
    destruct Hin as [[H|H]|[H|[H|H]]];
    try (by eapply errors_not_announcement in H);
    try (destruct (decide (dofs_push_list = []));
         [by apply elem_of_nil in H | apply list_elem_of_singleton in H; try discriminate H]);
    try (destruct (decide (dofs_fetch_list = []));
         [by apply elem_of_nil in H | apply list_elem_of_singleton in H; try discriminate H]).
  - injection H as _ _ -> -> _. rewrite <- surjective_pairing.
    apply span_box_bounds. by eapply mapM_lookup_elem.
  - injection H as _ _ -> -> _. rewrite <- surjective_pairing.
    apply span_box_bounds. by eapply mapM_lookup_elem.
Qed.

Lemma announced_spans_contain_witness :
  exists tr pts ids,
    MUI_Sampler_Define_spans (fetch_cfg false 1 0 true) [V3 1 2 3] [0%nat] [0%nat]
      [V3 1 2 3] 10 = Some (tr, pts, ids) /\
    forall t0 t1 lo hi sync,
      announce_send_span t0 t1 lo hi sync ∈ tr -> box_contains (lo, hi) (V3 1 2 3).
Proof.
  destruct (spans_returns (fetch_cfg false 1 0 true) [V3 1 2 3] [0%nat] [0%nat]
              [V3 1 2 3] 10) as (tr & pts & ids & Hrun);
    [reflexivity | repeat constructor | repeat constructor |].
  exists tr, pts, ids. split; [exact Hrun|].
  intros t0 t1 lo hi sync Hin.
  apply (proj1 (announced_spans_contain (fetch_cfg false 1 0 true) [V3 1 2 3]
                  [0%nat] [0%nat] [V3 1 2 3] 10 tr pts ids eq_refl Hrun)
           t0 t1 lo hi sync 0%nat (V3 1 2 3) Hin);
    [apply list_elem_of_here | reflexivity].
Defined.

Lemma float_max_pos : 0 < float_max.
Proof.
  unfold float_max. apply Rmult_lt_0_compat; [|apply pow_lt; lra].
  assert (/ 2 ^ 52 <= 1); [|lra].
  rewrite <- Rinv_1. apply Rinv_le_contravar; [lra|]. apply pow_R1_Rle. lra.
Qed.

Lemma span_errors_empty (eX eY eZ : string) :
  span_errors eX eY eZ (span_box []) = [print_error eX; print_error eY; print_error eZ].
Proof.
  pose proof float_max_pos. unfold span_box, span_init, span_errors.
  cbn [foldl vx vy vz]. destruct (Rlt_dec (- float_max) float_max); [reflexivity|lra].
Qed.

(** X8. For an empty push set the set-up prints the three send error lines
    (the initial box has max < min on every axis) before anything else, and
    for an empty fetch set it ends with the three receive error lines; no
    span is announced for the empty set. *)
Theorem empty_set_error_lines (cfg : Config) (dofs_to_xyz : list Vec3)
    (dofs_fetch_list dofs_push_list : list nat) (xyz_fetch : list Vec3)
    (Total_Time_Steps : Z) (tr : list Event) (pts : list Vec3) (ids : list Z) :
  iMUICoupling cfg = true ->
  MUI_Sampler_Define_spans cfg dofs_to_xyz dofs_fetch_list dofs_push_list
    xyz_fetch Total_Time_Steps = Some (tr, pts, ids) ->
  (dofs_push_list = [] ->
   exists rest,
     tr = [print_error "{** FENICS ERROR **} send_max_X: ";
           print_error "{** FENICS ERROR **} send_max_Y: ";
           print_error "{** FENICS ERROR **} send_max_Z: "] ++ rest /\
     send_announcements tr = []) /\
  (dofs_fetch_list = [] ->
   exists before,
     tr = before ++ [print_error "{** FENICS ERROR **} recv_max_X: ";
                     print_error "{** FENICS ERROR **} recv_max_Y: ";
                     print_error "{** FENICS ERROR **} recv_max_Z: "] /\
     recv_announcements tr = []).
Proof.
  intros Hon Hrun.
  destruct (spans_trace _ _ _ _ _ _ _ _ _ Hon Hrun) as (send_pts & Hs & Hr & _ & ->).
  pose proof (span_errors_are_errors "{** FENICS ERROR **} send_max_X: "
    "{** FENICS ERROR **} send_max_Y: " "{** FENICS ERROR **} send_max_Z: "
    (span_box send_pts)) as Es.
  pose proof (span_errors_are_errors "{** FENICS ERROR **} recv_max_X: "
    "{** FENICS ERROR **} recv_max_Y: " "{** FENICS ERROR **} recv_max_Z: "
    (span_box pts)) as Er.
  pose proof (lookup_errors_are_errors xyz_fetch pts) as El.
  split.
  - intros ->. simpl in Hs. injection Hs as <-. rewrite span_errors_empty.
    rewrite decide_True by done. eexists. split; [by rewrite app_nil_r|].
    unfold send_announcements. rewrite !omap_app.
    fold (send_announcements (span_errors "{** FENICS ERROR **} recv_max_X: "
      "{** FENICS ERROR **} recv_max_Y: " "{** FENICS ERROR **} recv_max_Z: "
      (span_box pts))).
    fold (send_announcements (flat_map (fun x => if (find_point xyz_fetch x 0 <? 0)%Z
                        then [lookup_error_line] else []) pts)).
    rewrite (send_announcements_errors _ Er), (send_announcements_errors _ El).
    by destruct (decide (dofs_fetch_list = [])).
  - intros ->. simpl in Hr. injection Hr as <-. rewrite span_errors_empty.
    rewrite (decide_True (P := @nil nat = [])) by done. simpl.
    eexists. split; [reflexivity|].
    unfold recv_announcements. rewrite !omap_app.
    fold (recv_announcements (span_errors "{** FENICS ERROR **} send_max_X: "
      "{** FENICS ERROR **} send_max_Y: " "{** FENICS ERROR **} send_max_Z: "
      (span_box send_pts))).
    rewrite (recv_announcements_errors _ Es).
    by destruct (decide (dofs_push_list = [])).
Qed.

Lemma empty_set_error_lines_witness :
  exists tr pts ids,
    MUI_Sampler_Define_spans (fetch_cfg false 1 0 true) [] [] [] [] 10
      = Some (tr, pts, ids) /\
    send_announcements tr = [] /\ recv_announcements tr = [].
Proof.
  destruct (spans_returns (fetch_cfg false 1 0 true) [] [] [] [] 10)
    as (tr & pts & ids & Hrun); [reflexivity | constructor | constructor |].
  exists tr, pts, ids. split; [exact Hrun|].
  destruct (empty_set_error_lines (fetch_cfg false 1 0 true) [] [] [] [] 10
              tr pts ids eq_refl Hrun) as [Hs Hr].
  destruct (Hs eq_refl) as (_ & _ & E1). destruct (Hr eq_refl) as (_ & _ & E2).
  by split.
Defined.

(** ** Push: modes, axes and batching *)

(** A configuration given by its push options (explicit coupling, no
    retention window). *)
Definition push_cfg (mode : Z) (many x y z : bool) : Config :=
  {| iMUICoupling := true; iparallelFSICoupling := false; undRelxCpl := 1;
     iMUIFetchMode := 0; iMUIFetchMany := true; iMUIPushMode := mode;
     iMUIPushMany := many; iPushX := x; iPushY := y; iPushZ := z;
     forgetTStepsMUI := 0; num_sub_iteration := 1;
     pointSDOFa := origin; pointSDOFb := origin; pointSDOFc := origin;
     pointSDOFd := origin |}.

(** X9. For a push-mode code other than 0 and 1, [MUI_Push] pushes nothing
    and commits nothing, whatever its other arguments: only the window rule
    runs. *)
Theorem MUI_Push_unknown_mode (cfg : Config)
    (align_vectors : list Vec3 -> list Vec3 -> Mat3) (as_euler_xyz : Mat3 -> Vec3)
    (dofs_to_xyz : list Vec3) (dofs_push : list nat) (df : DisplacementFunction)
    (N : Z) :
  iMUIPushMode cfg <> 0%Z -> iMUIPushMode cfg <> 1%Z ->
  exists tr,
    MUI_Push cfg align_vectors as_euler_xyz dofs_to_xyz dofs_push df N = Some tr /\
    tr = spec_window_trim (forgetTStepsMUI cfg) N /\
    commit_times tr = [] /\
    Forall (fun e => is_push e = false) tr.
Proof.
  intros H0 H1. unfold MUI_Push.
  rewrite (proj2 (Z.eqb_neq _ _) H0), (proj2 (Z.eqb_neq _ _) H1). simpl.
  rewrite code_trim_is_spec. eexists. split; [reflexivity|]. split; [reflexivity|].
  split; [apply commit_times_trim|].
  unfold spec_window_trim. case_bool_decide; by repeat constructor.
Qed.

Lemma MUI_Push_unknown_mode_witness :
  exists tr,
    MUI_Push (push_cfg 2 true true true true) (fun _ _ => midentity) (fun _ => vzero)
      [] [7%nat] {| get_local := []; point_disp := fun _ => vzero |} 4 = Some tr /\
    tr = [] /\ commit_times tr = [] /\ Forall (fun e => is_push e = false) tr.
Proof.
  apply (MUI_Push_unknown_mode (push_cfg 2 true true true true) (fun _ _ => midentity)
           (fun _ => vzero) [] [7%nat]
           {| get_local := []; point_disp := fun _ => vzero |} 4); discriminate.
Defined.

(** X10. In the two push modes a returning [MUI_Push] is a sequence of
    pushes followed by exactly what [MUI_Commit_only] does at the same
    index. *)
Theorem MUI_Push_then_commit_only (cfg : Config)
    (align_vectors : list Vec3 -> list Vec3 -> Mat3) (as_euler_xyz : Mat3 -> Vec3)
    (dofs_to_xyz : list Vec3) (dofs_push : list nat) (df : DisplacementFunction)
    (N : Z) (tr : list Event) :
  (iMUIPushMode cfg = 0 \/ iMUIPushMode cfg = 1)%Z ->
  MUI_Push cfg align_vectors as_euler_xyz dofs_to_xyz dofs_push df N = Some tr ->
  exists pushes,
    Forall (fun e => is_push e = true) pushes /\
    tr = pushes ++ MUI_Commit_only cfg N.
Proof.
  intros Hmode (exchange & -> & Hshape)%MUI_Push_shape.
  destruct Hshape as [(pushes & -> & Hp & _) | (_ & H0 & H1)]; [|lia].
  exists pushes. split; [exact Hp|].
  unfold MUI_Commit_only. rewrite code_trim_is_spec. by rewrite <- app_assoc.
Qed.

Lemma MUI_Push_then_commit_only_witness :
  exists pushes,
    Forall (fun e => is_push e = true) pushes /\
    [push_many "dispX" [origin] [1]; push_many "dispY" [origin] [2];
     push_many "dispZ" [origin] [3]; commit 3]
    = pushes ++ MUI_Commit_only (push_cfg 0 true true true true) 3.
Proof.
  apply (MUI_Push_then_commit_only (push_cfg 0 true true true true)
           (fun _ _ => midentity) (fun _ => vzero) [origin] [0%nat]
           {| get_local := [1; 2; 3]; point_disp := fun _ => vzero |} 3).
  - left. reflexivity.
  - reflexivity.
Defined.

(** The scalars a push call sends: one (attribute, point, value) per point;
    [push_many] pairs its points and values in order. *)
Definition pushed_data (e : Event) : list (string * Vec3 * R) :=
  match e with
  | push attr x v => [(attr, x, v)]
  | push_many attr xs vs => zip_with (fun x v => (attr, x, v)) xs vs
  | _ => []
  end.

Definition trace_data (tr : list Event) : list (string * Vec3 * R) :=
  flat_map pushed_data tr.

(** The calls of a trace that are not pushes. *)
Definition control_calls (tr : list Event) : list Event :=
  omap (fun e => if is_push e then None else Some e) tr.

Lemma trace_data_app (a b : list Event) : trace_data (a ++ b) = trace_data a ++ trace_data b.
Proof. unfold trace_data. induction a as [|e a IH]; simpl; [done|]. by rewrite IH, app_assoc. Qed.

Lemma control_calls_app (a b : list Event) :
  control_calls (a ++ b) = control_calls a ++ control_calls b.
Proof. apply omap_app. Qed.

Lemma control_calls_pushes (ev : list Event) :
  Forall (fun e => is_push e = true) ev -> control_calls ev = [].
Proof.
  induction 1 as [|e ev He _ IH]; [done|].
  unfold control_calls in *. simpl. by rewrite He.
Qed.

(** The one-by-one loop, from position [i] of the coordinates. *)
Lemma push_loop_value attr k df (dofs_to_xyz : list Vec3) (l : list nat) :
  forall i tr, (i + length l <= length dofs_to_xyz)%nat ->
    for_enumerate
      (fun i p tr => x ← dofs_to_xyz !! i; v ← d_vec k df p;
                     Some (tr ++ [push attr x v])) i l tr
    = (vals ← mapM (d_vec k df) l;
       Some (tr ++ zip_with (push attr) (drop i dofs_to_xyz) vals)).
Proof.
  induction l as [|p l IH]; intros i tr Hlen; cbn [for_enumerate mapM].
  - simpl. destruct (drop i dofs_to_xyz); by rewrite app_nil_r.
  - simpl in Hlen.
    destruct (lookup_lt_is_Some_2 dofs_to_xyz i) as [x Hx]; [lia|].
    rewrite Hx. simpl. destruct (d_vec k df p) as [v|]; simpl; [|done].
    rewrite IH by lia. destruct (mapM (d_vec k df) l) as [vals|]; simpl; [|done].
    rewrite (drop_S _ _ _ Hx). simpl. by rewrite <- app_assoc.
Qed.

Lemma trace_data_zip_push attr (xs : list Vec3) (vs : list R) :
  trace_data (zip_with (push attr) xs vs) = zip_with (fun x v => (attr, x, v)) xs vs.
Proof.
  revert vs. induction xs as [|x xs IH]; intros [|v vs]; simpl; try done.
  unfold trace_data in *. simpl. by rewrite IH.
Qed.

Lemma zip_push_pushes attr (xs : list Vec3) (vs : list R) :
  Forall (fun e => is_push e = true) (zip_with (push attr) xs vs).
Proof.
  revert vs. induction xs as [|x xs IH]; intros [|v vs]; simpl; constructor; auto.
Qed.

(** One axis: the one-by-one loop sends the data of the batched call. *)
Lemma push_axis_same_data enabled attr k df dofs_to_xyz dofs_push :
  (length dofs_push <= length dofs_to_xyz)%nat ->
  trace_data <$> push_each_axis enabled attr k df dofs_to_xyz dofs_push
  = trace_data <$> push_many_axis enabled attr k df dofs_to_xyz dofs_push.
Proof.
  intros Hlen. unfold push_each_axis, push_many_axis. destruct enabled; [|done].
  rewrite push_loop_value by (simpl; lia).
  destruct (mapM (d_vec k df) dofs_push) as [vals|]; simpl; [|done].
  f_equal. rewrite trace_data_zip_push. unfold trace_data. simpl.
  by rewrite app_nil_r.
Qed.

(** The same configuration with another batching flag. *)
Definition with_push_many (many : bool) (cfg : Config) : Config :=
  {| iMUICoupling := iMUICoupling cfg;
     iparallelFSICoupling := iparallelFSICoupling cfg;
     undRelxCpl := undRelxCpl cfg;
     iMUIFetchMode := iMUIFetchMode cfg;
     iMUIFetchMany := iMUIFetchMany cfg;
     iMUIPushMode := iMUIPushMode cfg;
     iMUIPushMany := many;
     iPushX := iPushX cfg;
     iPushY := iPushY cfg;
     iPushZ := iPushZ cfg;
     forgetTStepsMUI := forgetTStepsMUI cfg;
     num_sub_iteration := num_sub_iteration cfg;
     pointSDOFa := pointSDOFa cfg;
     pointSDOFb := pointSDOFb cfg;
     pointSDOFc := pointSDOFc cfg;
     pointSDOFd := pointSDOFd cfg |}.

(** X11. With one coordinate per push DOF, batched and one-by-one pushing
    agree: one call raises exactly when the other does, and when they
    return they send the same (attribute, point, value) data in the same
    order and make the same commit and window calls. *)
Theorem MUI_Push_batching_irrelevant (cfg : Config)
    (align_vectors : list Vec3 -> list Vec3 -> Mat3) (as_euler_xyz : Mat3 -> Vec3)
    (dofs_to_xyz : list Vec3) (dofs_push : list nat) (df : DisplacementFunction)
    (N : Z) :
  length dofs_to_xyz = length dofs_push ->
  (fun tr => (trace_data tr, control_calls tr)) <$>
    MUI_Push (with_push_many true cfg) align_vectors as_euler_xyz dofs_to_xyz dofs_push df N
  = (fun tr => (trace_data tr, control_calls tr)) <$>
    MUI_Push (with_push_many false cfg) align_vectors as_euler_xyz dofs_to_xyz dofs_push df N.
Proof.
  intros Hlen. unfold MUI_Push. cbn [with_push_many iMUIPushMode iMUIPushMany iPushX
    iPushY iPushZ forgetTStepsMUI].
  destruct (iMUIPushMode cfg =? 0)%Z; [|reflexivity].
  pose proof (push_axis_same_data (iPushX cfg) "dispX" 0 df dofs_to_xyz dofs_push
                ltac:(lia)) as EX.
  pose proof (push_axis_same_data (iPushY cfg) "dispY" 1 df dofs_to_xyz dofs_push
                ltac:(lia)) as EY.
  pose proof (push_axis_same_data (iPushZ cfg) "dispZ" 2 df dofs_to_xyz dofs_push
                ltac:(lia)) as EZ.
  pose proof (push_many_axis_pushes (iPushX cfg) "dispX" 0 df dofs_to_xyz dofs_push) as MX.
  pose proof (push_many_axis_pushes (iPushY cfg) "dispY" 1 df dofs_to_xyz dofs_push) as MY.
  pose proof (push_many_axis_pushes (iPushZ cfg) "dispZ" 2 df dofs_to_xyz dofs_push) as MZ.
  pose proof (push_each_axis_pushes (iPushX cfg) "dispX" 0 df dofs_to_xyz dofs_push) as SX.
  pose proof (push_each_axis_pushes (iPushY cfg) "dispY" 1 df dofs_to_xyz dofs_push) as SY.
  pose proof (push_each_axis_pushes (iPushZ cfg) "dispZ" 2 df dofs_to_xyz dofs_push) as SZ.
  destruct (push_many_axis (iPushX cfg) _ _ _ _ _) as [mx|],
           (push_each_axis (iPushX cfg) _ _ _ _ _) as [sx|]; try discriminate EX;
    simpl; [|done].
  destruct (push_many_axis (iPushY cfg) _ _ _ _ _) as [my|],
           (push_each_axis (iPushY cfg) _ _ _ _ _) as [sy|]; try discriminate EY;
    simpl; [|done].
  destruct (push_many_axis (iPushZ cfg) _ _ _ _ _) as [mz|],
           (push_each_axis (iPushZ cfg) _ _ _ _ _) as [sz|]; try discriminate EZ;
    simpl; [|done].
  simpl in EX, EY, EZ. injection EX as EX. injection EY as EY. injection EZ as EZ.
  f_equal. rewrite !trace_data_app, !control_calls_app, EX, EY, EZ.
  rewrite (control_calls_pushes _ (MX _ eq_refl)), (control_calls_pushes _ (MY _ eq_refl)),
    (control_calls_pushes _ (MZ _ eq_refl)), (control_calls_pushes _ (SX _ eq_refl)),
    (control_calls_pushes _ (SY _ eq_refl)), (control_calls_pushes _ (SZ _ eq_refl)).
  reflexivity.
Qed.

Lemma MUI_Push_batching_irrelevant_witness :
  (fun tr => (trace_data tr, control_calls tr)) <$>
    MUI_Push (with_push_many true (push_cfg 0 true true false true))
      (fun _ _ => midentity) (fun _ => vzero) [origin] [0%nat]
      {| get_local := [1; 2; 3]; point_disp := fun _ => vzero |} 3
  = Some ([("dispX"%string, origin, 1); ("dispZ"%string, origin, 3)], [commit 3]).
Proof.
  rewrite (MUI_Push_batching_irrelevant (push_cfg 0 true true false true)
             (fun _ _ => midentity) (fun _ => vzero) [origin] [0%nat]
             {| get_local := [1; 2; 3]; point_disp := fun _ => vzero |} 3 eq_refl).
  reflexivity.
Defined.

(** The attribute name a push or fetch call carries. *)
Definition event_attr (e : Event) : option string :=
  match e with
  | fetch attr _ _ | fetch_many attr _ _ | push attr _ _ | push_many attr _ _ => Some attr
  | _ => None
  end.

Lemma push_many_axis_attr enabled attr k df dofs_to_xyz dofs_push ev :
  push_many_axis enabled attr k df dofs_to_xyz dofs_push = Some ev ->
  Forall (fun e => event_attr e = Some attr /\ enabled = true) ev.
Proof.
  unfold push_many_axis. destruct enabled; [|intros [= <-]; constructor].
  destruct (mapM _ _) as [vals|]; simpl; [|done].
  intros [= <-]. by repeat constructor.
Qed.

Lemma push_each_axis_attr enabled attr k df dofs_to_xyz dofs_push ev :
  push_each_axis enabled attr k df dofs_to_xyz dofs_push = Some ev ->
  Forall (fun e => event_attr e = Some attr /\ enabled = true) ev.
Proof.
  unfold push_each_axis. destruct enabled; [|intros [= <-]; constructor].
  assert (Hloop : forall l i tr tr',
    for_enumerate
      (fun i p tr => x ← dofs_to_xyz !! i; v ← d_vec k df p;
                     Some (tr ++ [push attr x v])) i l tr = Some tr' ->
    Forall (fun e => event_attr e = Some attr /\ true = true) tr ->
    Forall (fun e => event_attr e = Some attr /\ true = true) tr').
  { induction l as [|p l IH]; intros i tr tr'; cbn [for_enumerate].
    - by intros [= <-].
    - destruct (dofs_to_xyz !! i) as [x|]; simpl; [|done].
      destruct (d_vec k df p) as [v|]; simpl; [|done].
      intros Hl Htr. eapply IH; [exact Hl|].
      apply Forall_app. split; [exact Htr|]. by repeat constructor. }
  intros H. eapply Hloop; [exact H | constructor].
Qed.

(** The flag of the axis an attribute name belongs to, in per-DOF mode. *)
Definition axis_enabled (cfg : Config) (attr : string) : bool :=
  if String.eqb attr "dispX" then iPushX cfg
  else if String.eqb attr "dispY" then iPushY cfg
  else if String.eqb attr "dispZ" then iPushZ cfg
  else false.

(** X12. In per-DOF push mode every push carries the attribute of an
    enabled axis ("dispX", "dispY" or "dispZ"): an axis whose flag is off is
    never pushed, in batched and in one-by-one pushing. *)
Theorem MUI_Push_only_enabled_axes (cfg : Config)
    (align_vectors : list Vec3 -> list Vec3 -> Mat3) (as_euler_xyz : Mat3 -> Vec3)
    (dofs_to_xyz : list Vec3) (dofs_push : list nat) (df : DisplacementFunction)
    (N : Z) (tr : list Event) :
  iMUIPushMode cfg = 0%Z ->
  MUI_Push cfg align_vectors as_euler_xyz dofs_to_xyz dofs_push df N = Some tr ->
  Forall (fun e => is_push e = true ->
                   exists attr, event_attr e = Some attr /\ axis_enabled cfg attr = true) tr.
Proof.
  intros Hmode. unfold MUI_Push. rewrite Hmode, code_trim_is_spec. cbn [Z.eqb].
  assert (Hgen : forall ex ey ez : option (list Event),
    (forall ev, ex = Some ev ->
       Forall (fun e => event_attr e = Some "dispX"%string /\ iPushX cfg = true) ev) ->
    (forall ev, ey = Some ev ->
       Forall (fun e => event_attr e = Some "dispY"%string /\ iPushY cfg = true) ev) ->
    (forall ev, ez = Some ev ->
       Forall (fun e => event_attr e = Some "dispZ"%string /\ iPushZ cfg = true) ev) ->
    (exchange ← (ux ← ex; uy ← ey; uz ← ez; Some (ux ++ uy ++ uz ++ [commit N]));
     Some (exchange ++ spec_window_trim (forgetTStepsMUI cfg) N)) = Some tr ->
    Forall (fun e => is_push e = true ->
       exists attr, event_attr e = Some attr /\ axis_enabled cfg attr = true) tr).
  { intros [ux|] [uy|] [uz|] Hx Hy Hz; simpl; try done. intros [= <-].
    rewrite !Forall_app. split_and!.
    - eapply Forall_impl; [|exact (Hx _ eq_refl)].
      intros e [He Hen] _. exists "dispX"%string. by split.
    - eapply Forall_impl; [|exact (Hy _ eq_refl)].
      intros e [He Hen] _. exists "dispY"%string. by split.
    - eapply Forall_impl; [|exact (Hz _ eq_refl)].
      intros e [He Hen] _. exists "dispZ"%string. by split.
    - by repeat constructor.
    - unfold spec_window_trim. case_bool_decide; by repeat constructor. }
  destruct (iMUIPushMany cfg).
  - apply Hgen; intros ev; apply push_many_axis_attr.
  - apply Hgen; intros ev; apply push_each_axis_attr.
Qed.

Lemma MUI_Push_only_enabled_axes_witness :
  Forall (fun e => is_push e = true ->
            exists attr, event_attr e = Some attr /\
                         axis_enabled (push_cfg 0 true true false true) attr = true)
    [push_many "dispX" [origin] [1]; push_many "dispZ" [origin] [3]; commit 3].
Proof.
  apply (MUI_Push_only_enabled_axes (push_cfg 0 true true false true)
           (fun _ _ => midentity) (fun _ => vzero) [origin] [0%nat]
           {| get_local := [1; 2; 3]; point_disp := fun _ => vzero |} 3);
    reflexivity.
Defined.

(** ** Shares of the redistributed force *)

(** The factor [W[i]**(-1)] of a support point [p] among [SpprtLoc]. *)
Definition share (CofR : Vec3) (SpprtLoc : list Vec3) (p : Vec3) : R :=
  / (rsum (map Rinv (map (distance CofR) SpprtLoc)) * distance CofR p).

Lemma ForceInterp_lookup (F_in CofR : Vec3) (SpprtLoc : list Vec3) (i : nat) (p : Vec3) :
  SpprtLoc !! i = Some p ->
  ForceInterp F_in CofR SpprtLoc !! i = Some (vscale (share CofR SpprtLoc p) F_in).
Proof.
  intros Hp. unfold ForceInterp, share.
  change (@map ?A ?B) with (@fmap list _ A B).
  by rewrite !list_lookup_fmap, Hp.
Qed.

Lemma rsum_ge_elem (xs : list R) (x : R) :
  Forall (fun y => 0 < y) xs -> x ∈ xs -> x <= rsum xs.
Proof.
  induction 1 as [|y xs Hy Hxs IH]; intros Hin; [by apply elem_of_nil in Hin|].
  assert (0 <= rsum xs).
  { clear IH Hin. induction Hxs as [|z zs Hz _ IHz]; simpl; lra. }
  simpl. apply elem_of_cons in Hin as [->|Hin]; [lra|]. specialize (IH Hin). lra.
Qed.

Lemma inv_distances_pos CofR (pts : list Vec3) :
  Forall (fun y => 0 < y) (map Rinv (map (distance CofR) pts)).
Proof.
  induction pts as [|p pts IH]; simpl; constructor; [|exact IH].
  apply Rinv_0_lt_compat, distance_pos.
Qed.

Lemma share_bounds (CofR : Vec3) (SpprtLoc : list Vec3) (p : Vec3) :
  p ∈ SpprtLoc -> 0 < share CofR SpprtLoc p <= 1.
Proof.
  intros Hin. unfold share.
  pose proof (distance_pos CofR p) as Hd.
  assert (Hge : / distance CofR p <= rsum (map Rinv (map (distance CofR) SpprtLoc))).
  { apply rsum_ge_elem; [apply inv_distances_pos|].
    change (@map ?A ?B) with (@fmap list _ A B).
    apply list_elem_of_fmap_2, list_elem_of_fmap_2, Hin. }
  set (S := rsum _) in *.
  assert (Hi : 0 < / distance CofR p) by (by apply Rinv_0_lt_compat).
  assert (H1 : 1 <= S * distance CofR p).
  { replace 1 with (/ distance CofR p * distance CofR p) by (field; lra). nra. }
  split.
  - apply Rinv_0_lt_compat. lra.
  - rewrite <- Rinv_1. apply Rinv_le_contravar; lra.
Qed.

(** X13. Every support point receives the resultant scaled by a share in
    (0, 1]: each per-point force is parallel to [F_in], points the same way
    and is never larger. *)
Theorem ForceInterp_share_bounds (F_in CofR : Vec3) (SpprtLoc : list Vec3)
    (i : nat) (p : Vec3) :
  SpprtLoc !! i = Some p ->
  exists w, ForceInterp F_in CofR SpprtLoc !! i = Some (vscale w F_in) /\ 0 < w <= 1.
Proof.
  intros Hp. exists (share CofR SpprtLoc p).
  split; [by apply ForceInterp_lookup|].
  apply share_bounds. by eapply list_elem_of_lookup_2.
Qed.

Lemma ForceInterp_share_bounds_witness :
  exists w, ForceInterp (V3 1 2 3) origin [V3 1 0 0; V3 0 2 0] !! 1%nat
            = Some (vscale w (V3 1 2 3)) /\ 0 < w <= 1.
Proof.
  apply (ForceInterp_share_bounds (V3 1 2 3) origin [V3 1 0 0; V3 0 2 0] 1 (V3 0 2 0)).
  reflexivity.
Defined.

(** X14. The shares are inverse to the distance from the center of
    reaction: of two support points the one that is not farther receives
    at least as large a share, and points at equal distance receive equal
    forces. *)
Theorem ForceInterp_nearer_gets_more (F_in CofR : Vec3) (SpprtLoc : list Vec3)
    (i j : nat) (p q : Vec3) :
  SpprtLoc !! i = Some p -> SpprtLoc !! j = Some q ->
  distance CofR p <= distance CofR q ->
  exists wp wq,
    ForceInterp F_in CofR SpprtLoc !! i = Some (vscale wp F_in) /\
    ForceInterp F_in CofR SpprtLoc !! j = Some (vscale wq F_in) /\
    0 < wq <= wp /\
    (distance CofR p = distance CofR q -> wp = wq).
Proof.
  intros Hp Hq Hd. exists (share CofR SpprtLoc p), (share CofR SpprtLoc q).
  split; [by apply ForceInterp_lookup|]. split; [by apply ForceInterp_lookup|].
  pose proof (share_bounds CofR SpprtLoc q (list_elem_of_lookup_2 _ _ _ Hq)) as [Hq0 _].
  split; [|by unfold share; intros ->].
  split; [exact Hq0|]. unfold share.
  pose proof (distance_pos CofR p) as Hdp.
  assert (HS : 0 < rsum (map Rinv (map (distance CofR) SpprtLoc))).
  { apply rsum_inv_pos; [apply distances_pos|].
    intros E. apply (f_equal length) in E. rewrite length_map in E.
    apply lookup_lt_Some in Hp. simpl in E. lia. }
  apply Rinv_le_contravar; [by apply Rmult_lt_0_compat|].
  apply Rmult_le_compat_l; lra.
Qed.

Lemma ForceInterp_nearer_gets_more_witness :
  exists wp wq,
    ForceInterp (V3 1 2 3) origin [V3 1 0 0; V3 1 0 0] !! 0%nat
      = Some (vscale wp (V3 1 2 3)) /\
    ForceInterp (V3 1 2 3) origin [V3 1 0 0; V3 1 0 0] !! 1%nat
      = Some (vscale wq (V3 1 2 3)) /\
    0 < wq <= wp /\
    (distance origin (V3 1 0 0) = distance origin (V3 1 0 0) -> wp = wq).
Proof.
  apply (ForceInterp_nearer_gets_more (V3 1 2 3) origin [V3 1 0 0; V3 1 0 0] 0 1
           (V3 1 0 0) (V3 1 0 0)); [reflexivity | reflexivity | lra].
Defined.

(** ** The regularised system of [getCofR] *)

Lemma det_getCofR_A (F : Vec3) :
  det (getCofR_A F) = - smallVal * (norm2 F + smallVal * smallVal).
Proof. destruct F as [f0 f1 f2]. unfold getCofR_A. vcalc. ring. Qed.

Lemma det_getCofR_A_neg (F : Vec3) : - smallVal * (norm2 F + smallVal * smallVal) < 0.
Proof.
  pose proof smallVal_pos as Hs. pose proof (norm2_nonneg F) as Hn.
  assert (0 < smallVal * smallVal) by (by apply Rmult_lt_0_compat).
  assert (0 < smallVal * (norm2 F + smallVal * smallVal))
    by (apply Rmult_lt_0_compat; lra).
  lra.
Qed.

(** X15. The matrix [A] that [getCofR] builds is nonsingular for every
    force, the zero force included: its determinant is
    [-smallVal * (|F|^2 + smallVal^2)], which is negative. *)
Theorem getCofR_matrix_nonsingular (F : Vec3) :
  det (getCofR_A F) = - smallVal * (norm2 F + smallVal * smallVal) /\
  det (getCofR_A F) < 0.
Proof.
  split; [apply det_getCofR_A|]. rewrite det_getCofR_A. apply det_getCofR_A_neg.
Qed.

(** ** What a fetch leaves alone *)

(** Between [h] and [h'] nothing changed but entries [a[k::3][p]] of the
    array [a] with [p] among [D]: the heap has the same arrays, the other
    arrays are the same, and [a] has kept its length and every other entry. *)
Definition writes_within (a : ref) (D : list nat) (h h' : heap) : Prop :=
  length h' = length h /\
  (forall a', a' <> a -> h' !! a' = h !! a') /\
  (forall arr, h !! a = Some arr ->
     exists arr', h' !! a = Some arr' /\ length arr' = length arr /\
       forall j, (forall p k, p ∈ D -> (k < 3)%nat -> j <> strided k p) ->
                 arr' !! j = arr !! j).

Lemma within_refl a D h : writes_within a D h h.
Proof. split; [done|]. split; [done|]. intros arr Ha. by exists arr. Qed.

Lemma within_trans a D h1 h2 h3 :
  writes_within a D h1 h2 -> writes_within a D h2 h3 -> writes_within a D h1 h3.
Proof.
  intros (L1 & O1 & A1) (L2 & O2 & A2). split; [congruence|]. split.
  - intros a' Ha'. by rewrite O2, O1.
  - intros arr Ha. destruct (A1 arr Ha) as (arr1 & H1 & Len1 & E1).
    destruct (A2 arr1 H1) as (arr2 & H2 & Len2 & E2).
    exists arr2. split; [exact H2|]. split; [congruence|].
    intros j Hj. by rewrite E2, E1.
Qed.

Lemma within_mono a D D' h h' :
  (forall p, p ∈ D -> p ∈ D') -> writes_within a D h h' -> writes_within a D' h h'.
Proof.
  intros Hsub (L & O & A). split; [done|]. split; [done|].
  intros arr Ha. destruct (A arr Ha) as (arr' & H' & Len & E).
  exists arr'. split; [done|]. split; [done|]. intros j Hj. apply E.
  intros p k Hp. apply Hj. by apply Hsub.
Qed.

Lemma setitem_within (h h' : heap) (a : ref) (k p : nat) (v : f64) (D : list nat) :
  (k < 3)%nat -> p ∈ D -> setitem h a (strided k p) v = Some h' -> writes_within a D h h'.
Proof.
  intros Hk Hp (arr & Ha & Hi & ->)%setitem_Some.
  split; [apply length_insert|]. split.
  - intros a' Hne. by apply list_lookup_insert_ne.
  - intros arr0 Ha0. rewrite Ha in Ha0. injection Ha0 as <-.
    exists (<[strided k p := v]> arr). split.
    + apply list_lookup_insert_eq. by eapply lookup_lt_Some.
    + split; [apply length_insert|]. intros j Hj.
      apply list_lookup_insert_ne. intros E. by apply (Hj p k Hp Hk).
Qed.

(** Closes a goal about a sequence of reads and writes of DOF [p]. *)
Ltac within_chain :=
  repeat match goal with
         | |- (mbind _ ?m = Some _) -> _ =>
             let E := fresh "E" in destruct m eqn:E; cbn [mbind option_bind]; [|done]
         | |- (if ?c then _ else _) = Some _ -> _ => destruct c
         end.

Lemma assign_component_within tF temp k p D h h' :
  (k < 3)%nat -> p ∈ D -> assign_component tF temp k p h = Some h' ->
  writes_within tF D h h'.
Proof.
  intros Hk Hp. unfold assign_component. within_chain. by apply setitem_within.
Qed.

Lemma relax_component_within r tF temp k p D h h' :
  (k < 3)%nat -> p ∈ D -> relax_component r tF temp k p h = Some h' ->
  writes_within tF D h h'.
Proof.
  intros Hk Hp. unfold relax_component. within_chain. by apply setitem_within.
Qed.

Lemma seq3_within a D (f g e : heap -> option heap) h h' :
  (forall h1 h2, f h1 = Some h2 -> writes_within a D h1 h2) ->
  (forall h1 h2, g h1 = Some h2 -> writes_within a D h1 h2) ->
  (forall h1 h2, e h1 = Some h2 -> writes_within a D h1 h2) ->
  (h1 ← f h; h2 ← g h1; e h2) = Some h' -> writes_within a D h h'.
Proof.
  intros Hf Hg He. destruct (f h) as [h1|] eqn:E1; simpl; [|done].
  destruct (g h1) as [h2|] eqn:E2; simpl; [|done]. intros E3.
  eapply within_trans; [eapply within_trans|]; eauto.
Qed.

Lemma blend_within cfg tF temp p D h h' :
  p ∈ D -> blend cfg tF temp p h = Some h' -> writes_within tF D h h'.
Proof.
  intros Hp. unfold blend. destruct (iparallelFSICoupling cfg).
  - apply (seq3_within tF D (relax_component _ tF temp 0 p)
             (relax_component _ tF temp 1 p) (relax_component _ tF temp 2 p));
      intros h1 h2; apply relax_component_within; (lia || done).
  - apply (seq3_within tF D (assign_component tF temp 0 p)
             (assign_component tF temp 1 p) (assign_component tF temp 2 p));
      intros h1 h2; apply assign_component_within; (lia || done).
Qed.

Lemma divide_component_within self k p D h h' :
  (k < 3)%nat -> p ∈ D -> divide_component self k p h = Some h' ->
  writes_within (tF_apply_vec self) D h h'.
Proof.
  intros Hk Hp. unfold divide_component. within_chain. by apply setitem_within.
Qed.

Lemma area_divide_within self p D h h' :
  p ∈ D -> area_divide self p h = Some h' -> writes_within (tF_apply_vec self) D h h'.
Proof.
  intros Hp. unfold area_divide.
  apply (seq3_within _ D (divide_component self 0 p) (divide_component self 1 p)
           (divide_component self 2 p));
    intros h1 h2; apply divide_component_within; (lia || done).
Qed.

Lemma area_guarded_within self p D h h' :
  p ∈ D -> area_guarded self p h = Some h' -> writes_within (tF_apply_vec self) D h h'.
Proof.
  intros Hp. unfold area_guarded.
  destruct (areaf_vec self !! p) as [a|]; simpl; [|done].
  destruct (Req_dec_T a 0); [|by apply area_divide_within].
  apply (seq3_within _ D (fun h => setitem h _ (strided 0 p) (Fin 0))
           (fun h => setitem h _ (strided 1 p) (Fin 0))
           (fun h => setitem h _ (strided 2 p) (Fin 0)));
    intros h1 h2; apply setitem_within; (lia || done).
Qed.

Lemma resultant_body_within self F_out i p D h h' :
  p ∈ D -> resultant_body self F_out i p h = Some h' ->
  writes_within (tF_apply_vec self) D h h'.
Proof.
  intros Hp. unfold resultant_body.
  destruct (F_out !! i) as [F|]; simpl; [|done].
  destruct (setitem h _ _ _) as [h1|] eqn:E1; simpl; [|done].
  destruct (setitem h1 _ _ _) as [h2|] eqn:E2; simpl; [|done].
  destruct (setitem h2 _ _ _) as [h3|] eqn:E3; simpl; [|done]. intros E4.
  eapply within_trans; [eapply within_trans; [eapply within_trans|]|].
  - eapply (setitem_within h h1); [|exact Hp|exact E1]. lia.
  - eapply (setitem_within h1 h2); [|exact Hp|exact E2]. lia.
  - eapply (setitem_within h2 h3); [|exact Hp|exact E3]. lia.
  - by eapply area_guarded_within.
Qed.

Lemma many_body_within cfg self i p D h h' :
  p ∈ D -> many_body cfg self (tF_apply_vec self) i p h = Some h' ->
  writes_within (tF_apply_vec self) D h h'.
Proof.
  intros Hp. unfold many_body.
  destruct (blend cfg _ _ p h) as [h1|] eqn:E1; simpl; [|done]. intros E2.
  eapply within_trans; [by eapply blend_within | by eapply area_guarded_within].
Qed.

Lemma single_body_within cfg iface self dofs_to_xyz t i p D h tr h' tr' :
  p ∈ D ->
  single_body cfg iface self dofs_to_xyz t (tF_apply_vec self) i p (h, tr) = Some (h', tr') ->
  writes_within (tF_apply_vec self) D h h'.
Proof.
  intros Hp. unfold single_body.
  destruct (dofs_to_xyz !! i) as [x|]; simpl; [|done].
  destruct (setitem h _ _ _) as [h1|] eqn:E1; simpl; [|done].
  destruct (setitem h1 _ _ _) as [h2|] eqn:E2; simpl; [|done].
  destruct (setitem h2 _ _ _) as [h3|] eqn:E3; simpl; [|done].
  destruct (blend cfg _ _ p h3) as [h4|] eqn:E4; simpl; [|done].
  destruct (area_divide self p h4) as [h5|] eqn:E5; simpl; [|done].
  intros [= <- _].
  eapply within_trans; [eapply within_trans; [eapply within_trans;
    [eapply within_trans|]|]|].
  - eapply (setitem_within h h1); [|exact Hp|exact E1]. lia.
  - eapply (setitem_within h1 h2); [|exact Hp|exact E2]. lia.
  - eapply (setitem_within h2 h3); [|exact Hp|exact E3]. lia.
  - by eapply blend_within.
  - by eapply area_divide_within.
Qed.

Lemma assign_each_within a k (idx : list nat) :
  (k < 3)%nat ->
  forall D vals h h', (forall p, p ∈ idx -> p ∈ D) ->
    assign_each a k idx vals h = Some h' -> writes_within a D h h'.
Proof.
  intros Hk. induction idx as [|p idx IH]; intros D vals h h' Hsub; cbn [assign_each].
  - intros [= <-]. apply within_refl.
  - destruct vals as [|v vals]; [done|].
    destruct (setitem h a (strided k p) (Fin v)) as [h1|] eqn:E; simpl; [|done].
    intros Hrest. eapply within_trans.
    + eapply setitem_within; [exact Hk| |exact E]. apply Hsub, list_elem_of_here.
    + eapply IH; [|exact Hrest]. intros q Hq. by apply Hsub, list_elem_of_further.
Qed.

Lemma setitem_list_within a k idx vals h h' :
  (k < 3)%nat -> setitem_list a k idx vals h = Some h' -> writes_within a idx h h'.
Proof.
  intros Hk. unfold setitem_list.
  destruct (broadcast (length idx) vals) as [vs|]; simpl; [|done].
  by apply assign_each_within.
Qed.

(** A loop writes within the DOFs it visits when its body writes within
    the one it is at. *)
Lemma loop_within {St : Type} (proj : St -> heap) (a : ref)
    (body : nat -> nat -> St -> option St) :
  (forall i p s s', body i p s = Some s' -> writes_within a [p] (proj s) (proj s')) ->
  forall l i s s',
    for_enumerate body i l s = Some s' -> writes_within a l (proj s) (proj s').
Proof.
  intros Hbody. induction l as [|p l IH]; intros i s s'; cbn [for_enumerate].
  - intros [= <-]. apply within_refl.
  - destruct (body i p s) as [s1|] eqn:E; cbn [mbind option_bind]; [|done].
    intros Hrest. eapply within_trans.
    + eapply within_mono; [|by eapply Hbody].
      intros q ->%list_elem_of_singleton. apply list_elem_of_here.
    + eapply within_mono; [|by eapply IH]. intros q Hq. by apply list_elem_of_further.
Qed.

(** X17. A returning [MUI_Fetch], in every mode, changes nothing but the
    three applied-load entries of the DOFs in the fetch list: the heap keeps
    its arrays, every other array is untouched, the applied-load array
    keeps its length and all its other entries. *)
Theorem MUI_Fetch_frame (cfg : Config) (iface : Iface) (lstsq : Mat3 -> Vec3 -> Vec3)
    (self : Self) (dofs_to_xyz : list Vec3) (dofs_fetch_list : list nat) (n : Z)
    (h h' : heap) (tr : list Event) :
  MUI_Fetch cfg iface lstsq self dofs_to_xyz dofs_fetch_list n h = Some (h', tr) ->
  length h' = length h /\
  (forall a', a' <> tF_apply_vec self -> h' !! a' = h !! a') /\
  (forall arr, h !! tF_apply_vec self = Some arr ->
     exists arr', h' !! tF_apply_vec self = Some arr' /\ length arr' = length arr /\
       forall j, (forall p k, p ∈ dofs_fetch_list -> (k < 3)%nat -> j <> strided k p) ->
                 arr' !! j = arr !! j).
Proof.
  intros Hrun. change (writes_within (tF_apply_vec self) dofs_fetch_list h h').
  unfold MUI_Fetch in Hrun.
  destruct (0 <=? fetch_iteration cfg n)%Z; [|injection Hrun as <- _; apply within_refl].
  destruct (iMUIFetchMode cfg =? 1)%Z.
  - destruct (for_enumerate _ _ _ _) as [h1|] eqn:Hloop; simpl in Hrun; [|done].
    injection Hrun as <- _.
    eapply (loop_within (fun s => s)); [|exact Hloop].
    intros i p s s'. apply resultant_body_within, list_elem_of_here.
  - destruct (iMUIFetchMany cfg).
    + destruct (setitem_list _ 0 _ _ h) as [h1|] eqn:E1; simpl in Hrun; [|done].
      destruct (setitem_list _ 1 _ _ h1) as [h2|] eqn:E2; simpl in Hrun; [|done].
      destruct (setitem_list _ 2 _ _ h2) as [h3|] eqn:E3; simpl in Hrun; [|done].
      destruct (for_enumerate _ _ _ _) as [h4|] eqn:Hloop; simpl in Hrun; [|done].
      injection Hrun as <- _.
      eapply within_trans; [eapply within_trans; [eapply within_trans|]|].
      * eapply setitem_list_within; [|exact E1]. lia.
      * eapply setitem_list_within; [|exact E2]. lia.
      * eapply setitem_list_within; [|exact E3]. lia.
      * eapply (loop_within (fun s => s)); [|exact Hloop].
        intros i p s s'. apply many_body_within, list_elem_of_here.
    + apply (loop_within fst (tF_apply_vec self)) in Hrun; [exact Hrun|].
      intros i p [s tr0] [s' tr1]. apply single_body_within, list_elem_of_here.
Qed.

Lemma MUI_Fetch_frame_witness :
  exists arr',
    [[Fin 0; Fin 0; Fin 0; Fin 7; Fin 8; Fin 9]] !! 0%nat = Some arr' /\
    length arr' = 6%nat /\
    forall j, (forall p k, p ∈ [0%nat] -> (k < 3)%nat -> j <> strided k p) ->
              arr' !! j = [Fin 5; Fin 5; Fin 5; Fin 7; Fin 8; Fin 9] !! j.
Proof.
  assert (Hrun : MUI_Fetch example_cfg (const_iface 2) (fun _ _ => vzero)
           {| tF_apply_vec := 0%nat; areaf_vec := [0; 1] |} [origin] [0%nat] 1
           [[Fin 5; Fin 5; Fin 5; Fin 7; Fin 8; Fin 9]]
         = Some ([[Fin 0; Fin 0; Fin 0; Fin 7; Fin 8; Fin 9]],
                 [fetch_many "forceX" [origin] 0; fetch_many "forceY" [origin] 0;
                  fetch_many "forceZ" [origin] 0])).
  { run_model. destruct (Req_dec_T 0 0) as [_|E]; [reflexivity|lra]. }
  exact (proj2 (proj2 (MUI_Fetch_frame _ _ _ _ _ _ _ _ _ _ Hrun))
           [Fin 5; Fin 5; Fin 5; Fin 7; Fin 8; Fin 9] eq_refl).
Defined.

(** ** The load a fetch leaves at a DOF *)

Lemma within_getitem a D h h' j :
  writes_within a D h h' ->
  (forall p k, p ∈ D -> (k < 3)%nat -> j <> strided k p) ->
  getitem h' a j = getitem h a j.
Proof.
  intros (L & _ & A) Hj. unfold getitem.
  destruct (h !! a) as [arr|] eqn:Ha.
  - destruct (A arr eq_refl) as (arr' & -> & _ & E). simpl. by apply E.
  - apply lookup_ge_None in Ha. rewrite <- L in Ha.
    apply lookup_ge_None in Ha. by rewrite Ha.
Qed.

Lemma within_same_at a D p h h' :
  writes_within a D h h' -> p ∉ D -> same_at a p h h'.
Proof.
  intros Hw Hp k Hk. apply (within_getitem a D); [exact Hw|].
  intros q k' Hq Hk' E. apply strided_inj in E as [_ ->]; [done|lia|lia].
Qed.

(** In a loop over distinct DOFs, the DOF at position [j] is visited once:
    nothing before the visit and nothing after it touches its entries. *)
Lemma loop_at {St : Type} (proj : St -> heap) (a : ref)
    (body : nat -> nat -> St -> option St) (p : nat) :
  (forall i q s s', body i q s = Some s' -> writes_within a [q] (proj s) (proj s')) ->
  forall l i0 s s' j,
    for_enumerate body i0 l s = Some s' -> NoDup l -> l !! j = Some p ->
    exists s1 s2,
      body (i0 + j)%nat p s1 = Some s2 /\
      same_at a p (proj s) (proj s1) /\ same_at a p (proj s2) (proj s').
Proof.
  intros Hbody. induction l as [|q l IH]; intros i0 s s' j; cbn [for_enumerate]; [done|].
  destruct (body i0 q s) as [s1|] eqn:E; cbn [mbind option_bind]; [|done].
  intros Hrest Hnd Hj.
  pose proof (NoDup_cons_1_1 _ _ Hnd) as Hq. apply NoDup_cons_1_2 in Hnd.
  destruct j as [|j]; simpl in Hj.
  - injection Hj as ->. exists s, s1. rewrite Nat.add_0_r.
    split; [exact E|]. split; [apply same_at_refl|].
    eapply within_same_at; [|exact Hq].
    eapply (loop_within proj a body Hbody); exact Hrest.
  - destruct (IH _ _ _ _ Hrest Hnd Hj) as (s2 & s3 & Hb & Hpre & Hpost).
    exists s2, s3. replace (i0 + S j)%nat with (S i0 + j)%nat by lia.
    split; [exact Hb|]. split; [|exact Hpost].
    eapply same_at_trans; [|exact Hpre].
    eapply within_same_at; [by eapply Hbody|].
    intros ->%list_elem_of_singleton. apply Hq. by eapply list_elem_of_lookup_2.
Qed.

(** On one array the blend changes nothing. *)
Lemma blend_alias_id cfg a p h h' : blend cfg a a p h = Some h' -> h' = h.
Proof.
  unfold blend. destruct (iparallelFSICoupling cfg).
  - rewrite relax_component_alias, assign_component_alias.
    destruct (getitem h a (strided 0 p)); simpl; [|done].
    rewrite relax_component_alias, assign_component_alias.
    destruct (getitem h a (strided 1 p)); simpl; [|done].
    rewrite relax_component_alias, assign_component_alias.
    destruct (getitem h a (strided 2 p)); simpl; [|done]. by intros [= <-].
  - rewrite assign_component_alias.
    destruct (getitem h a (strided 0 p)); simpl; [|done].
    rewrite assign_component_alias.
    destruct (getitem h a (strided 1 p)); simpl; [|done].
    rewrite assign_component_alias.
    destruct (getitem h a (strided 2 p)); simpl; [|done]. by intros [= <-].
Qed.

(** The three entries of a DOF after three writes. *)
Lemma three_writes a p (v0 v1 v2 : f64) (h h1 h2 h3 : heap) :
  setitem h a (strided 0 p) v0 = Some h1 ->
  setitem h1 a (strided 1 p) v1 = Some h2 ->
  setitem h2 a (strided 2 p) v2 = Some h3 ->
  getitem h3 a (strided 0 p) = Some v0 /\
  getitem h3 a (strided 1 p) = Some v1 /\
  getitem h3 a (strided 2 p) = Some v2.
Proof.
  intros E1 E2 E3.
  assert (strided 0 p <> strided 1 p /\ strided 0 p <> strided 2 p /\
          strided 1 p <> strided 2 p) as (N01 & N02 & N12) by (unfold strided; lia).
  split_and!.
  - rewrite (getitem_setitem_ne _ _ _ _ _ _ (not_eq_sym N02) E3).
    rewrite (getitem_setitem_ne _ _ _ _ _ _ (not_eq_sym N01) E2).
    by eapply getitem_setitem_eq.
  - rewrite (getitem_setitem_ne _ _ _ _ _ _ (not_eq_sym N12) E3).
    by eapply getitem_setitem_eq.
  - by eapply getitem_setitem_eq.
Qed.

(** The unguarded division divides each entry of the DOF by its area
    weight. *)
Lemma area_divide_result self p a (v0 v1 v2 : f64) (h h' : heap) :
  areaf_vec self !! p = Some a ->
  getitem h (tF_apply_vec self) (strided 0 p) = Some v0 ->
  getitem h (tF_apply_vec self) (strided 1 p) = Some v1 ->
  getitem h (tF_apply_vec self) (strided 2 p) = Some v2 ->
  area_divide self p h = Some h' ->
  getitem h' (tF_apply_vec self) (strided 0 p) = Some (fdiv v0 a) /\
  getitem h' (tF_apply_vec self) (strided 1 p) = Some (fdiv v1 a) /\
  getitem h' (tF_apply_vec self) (strided 2 p) = Some (fdiv v2 a).
Proof.
  intros Ha G0 G1 G2. unfold area_divide, divide_component.
  assert (strided 0 p <> strided 1 p /\ strided 0 p <> strided 2 p /\
          strided 1 p <> strided 2 p) as (N01 & N02 & N12) by (unfold strided; lia).
  rewrite G0, Ha. cbn [mbind option_bind].
  destruct (setitem h _ _ _) as [h1|] eqn:E1; cbn [mbind option_bind]; [|done].
  rewrite (getitem_setitem_ne _ _ _ _ _ _ N01 E1), G1. cbn [mbind option_bind].
  destruct (setitem h1 _ _ _) as [h2|] eqn:E2; cbn [mbind option_bind]; [|done].
  rewrite (getitem_setitem_ne _ _ _ _ _ _ N12 E2),
    (getitem_setitem_ne _ _ _ _ _ _ N02 E1), G2. cbn [mbind option_bind].
  intros E3. by apply (three_writes _ p _ _ _ h h1 h2 h').
Qed.

(** The guarded division: zero for a zero area weight, else the quotient. *)
Definition guarded_quotient (v a : R) : f64 :=
  if Req_dec_T a 0 then Fin 0 else Fin (v / a).

Lemma area_guarded_result self p a (v0 v1 v2 : R) (h h' : heap) :
  areaf_vec self !! p = Some a ->
  getitem h (tF_apply_vec self) (strided 0 p) = Some (Fin v0) ->
  getitem h (tF_apply_vec self) (strided 1 p) = Some (Fin v1) ->
  getitem h (tF_apply_vec self) (strided 2 p) = Some (Fin v2) ->
  area_guarded self p h = Some h' ->
  getitem h' (tF_apply_vec self) (strided 0 p) = Some (guarded_quotient v0 a) /\
  getitem h' (tF_apply_vec self) (strided 1 p) = Some (guarded_quotient v1 a) /\
  getitem h' (tF_apply_vec self) (strided 2 p) = Some (guarded_quotient v2 a).
Proof.
  intros Ha G0 G1 G2 Hg. unfold guarded_quotient.
  destruct (Req_dec_T a 0) as [->|Hne].
  - pose proof (area_guarded_zero self p h h' Ha Hg) as Hz.
    split_and!; apply Hz; lia.
  - unfold area_guarded in Hg. rewrite Ha in Hg. cbn [mbind option_bind] in Hg.
    destruct (Req_dec_T a 0) as [E|_]; [done|].
    destruct (area_divide_result self p a _ _ _ h h' Ha G0 G1 G2 Hg) as (R0 & R1 & R2).
    unfold fdiv in R0, R1, R2. by destruct (Req_dec_T a 0).
Qed.

Lemma single_body_result cfg iface self dofs_to_xyz t i p x a g tr g' tr' :
  dofs_to_xyz !! i = Some x -> areaf_vec self !! p = Some a ->
  single_body cfg iface self dofs_to_xyz t (tF_apply_vec self) i p (g, tr) = Some (g', tr') ->
  getitem g' (tF_apply_vec self) (strided 0 p)
    = Some (fdiv (Fin (fetch_value iface "forceX" x t)) a) /\
  getitem g' (tF_apply_vec self) (strided 1 p)
    = Some (fdiv (Fin (fetch_value iface "forceY" x t)) a) /\
  getitem g' (tF_apply_vec self) (strided 2 p)
    = Some (fdiv (Fin (fetch_value iface "forceZ" x t)) a).
Proof.
  intros Hx Ha. unfold single_body. rewrite Hx. cbn [mbind option_bind].
  destruct (setitem g _ _ _) as [h1|] eqn:E1; cbn [mbind option_bind]; [|done].
  destruct (setitem h1 _ _ _) as [h2|] eqn:E2; cbn [mbind option_bind]; [|done].
  destruct (setitem h2 _ _ _) as [h3|] eqn:E3; cbn [mbind option_bind]; [|done].
  destruct (three_writes _ p _ _ _ g h1 h2 h3 E1 E2 E3) as (G0 & G1 & G2).
  destruct (blend cfg _ _ p h3) as [h4|] eqn:E4; cbn [mbind option_bind]; [|done].
  apply blend_alias_id in E4 as ->.
  destruct (area_divide self p h3) as [h5|] eqn:E5; cbn [mbind option_bind]; [|done].
  intros [= <- _]. by apply (area_divide_result self p a _ _ _ h3 h5).
Qed.

(** X18. In one-call-per-point mode over distinct DOFs, the fetch leaves
    at each fetched DOF the force fetched at its own coordinate divided by
    its area weight, component by component and whatever the coupling flag,
    the relaxation factor and the load before; for a zero area weight the
    entry is not finite. *)
Theorem MUI_Fetch_single_value (cfg : Config) (iface : Iface)
    (lstsq : Mat3 -> Vec3 -> Vec3) (self : Self) (dofs_to_xyz : list Vec3)
    (dofs_fetch_list : list nat) (n : Z) (h h' : heap) (tr : list Event)
    (i p : nat) (x : Vec3) (a : R) :
  iMUIFetchMode cfg <> 1%Z -> iMUIFetchMany cfg = false ->
  (0 <= fetch_iteration cfg n)%Z ->
  MUI_Fetch cfg iface lstsq self dofs_to_xyz dofs_fetch_list n h = Some (h', tr) ->
  NoDup dofs_fetch_list ->
  dofs_fetch_list !! i = Some p -> dofs_to_xyz !! i = Some x ->
  areaf_vec self !! p = Some a ->
  getitem h' (tF_apply_vec self) (strided 0 p)
    = Some (fdiv (Fin (fetch_value iface "forceX" x (fetch_iteration cfg n))) a) /\
  getitem h' (tF_apply_vec self) (strided 1 p)
    = Some (fdiv (Fin (fetch_value iface "forceY" x (fetch_iteration cfg n))) a) /\
  getitem h' (tF_apply_vec self) (strided 2 p)
    = Some (fdiv (Fin (fetch_value iface "forceZ" x (fetch_iteration cfg n))) a).
Proof.
  intros Hmode Hmany Hidx Hrun Hnd Hp Hx Ha. unfold MUI_Fetch in Hrun.
  rewrite (proj2 (Z.leb_le _ _) Hidx), (proj2 (Z.eqb_neq _ _) Hmode), Hmany in Hrun.
  destruct (loop_at fst (tF_apply_vec self) _ p
              (fun i q s s' => match s, s' with
                 | (g, t0), (g', t1) => fun E =>
                     single_body_within cfg iface self dofs_to_xyz _ i q [q] g t0 g' t1
                       (list_elem_of_here q []) E
                 end)
              _ _ _ _ i Hrun Hnd Hp) as ([g tr1] & [g' tr2] & Hb & _ & Hpost).
  simpl in Hb, Hpost.
  destruct (single_body_result _ _ _ _ _ _ _ _ _ _ _ _ _ Hx Ha Hb) as (R0 & R1 & R2).
  split_and!; (rewrite Hpost; [assumption | lia]).
Qed.

Lemma MUI_Fetch_single_value_witness :
  getitem [[NonFin; NonFin; NonFin]] 0%nat (strided 0 0)
    = Some (fdiv (Fin (fetch_value (const_iface 1) "forceX" origin
                         (fetch_iteration (fetch_cfg false 1 0 false) 0))) 0) /\
  getitem [[NonFin; NonFin; NonFin]] 0%nat (strided 1 0)
    = Some (fdiv (Fin (fetch_value (const_iface 1) "forceY" origin
                         (fetch_iteration (fetch_cfg false 1 0 false) 0))) 0) /\
  getitem [[NonFin; NonFin; NonFin]] 0%nat (strided 2 0)
    = Some (fdiv (Fin (fetch_value (const_iface 1) "forceZ" origin
                         (fetch_iteration (fetch_cfg false 1 0 false) 0))) 0).
Proof.
  assert (Hrun : MUI_Fetch (fetch_cfg false 1 0 false) (const_iface 1) (fun _ _ => vzero)
                   (example_self 0) [origin] [0%nat] 0 [[Fin 5; Fin 5; Fin 5]]
                 = Some ([[NonFin; NonFin; NonFin]],
                         [fetch "forceX" origin 0; fetch "forceY" origin 0;
                          fetch "forceZ" origin 0])).
  { run_model. destruct (Req_dec_T 0 0) as [_|E]; [reflexivity|lra]. }
  apply (MUI_Fetch_single_value (fetch_cfg false 1 0 false) (const_iface 1)
           (fun _ _ => vzero) (example_self 0) [origin] [0%nat] 0 _ _ _
           0%nat 0%nat origin 0 ltac:(cbv; discriminate) eq_refl ltac:(cbv; discriminate) Hrun).
  - repeat constructor. apply not_elem_of_nil.
  - reflexivity.
  - reflexivity.
  - reflexivity.
Defined.

(** In a batched write over distinct DOFs, the DOF at position [i] gets the
    value at position [i]. *)
Lemma assign_each_value a k (idx : list nat) :
  (k < 3)%nat ->
  forall i p v vals h h',
    NoDup idx -> idx !! i = Some p -> vals !! i = Some v ->
    assign_each a k idx vals h = Some h' ->
    getitem h' a (strided k p) = Some (Fin v).
Proof.
  intros Hk. induction idx as [|q idx IH]; intros i p v vals h h' Hnd Hp Hv;
    cbn [assign_each]; [done|].
  destruct vals as [|w vals]; [done|].
  destruct (setitem h a (strided k q) (Fin w)) as [h1|] eqn:E; cbn [mbind option_bind]; [|done].
  intros Hrest. pose proof (NoDup_cons_1_1 _ _ Hnd) as Hq. apply NoDup_cons_1_2 in Hnd.
  destruct i as [|i]; simpl in Hp, Hv.
  - injection Hp as ->. injection Hv as ->.
    rewrite (within_same_at a idx p h1 h'); [by eapply getitem_setitem_eq| |exact Hq|exact Hk].
    by eapply (assign_each_within a k idx Hk idx vals).
  - by eapply IH.
Qed.

(** A batched write of component [k] leaves the other components. *)
Lemma assign_each_component a k k' (idx : list nat) p :
  (k < 3)%nat -> (k' < 3)%nat -> k <> k' ->
  forall vals h h',
    assign_each a k idx vals h = Some h' ->
    getitem h' a (strided k' p) = getitem h a (strided k' p).
Proof.
  intros Hk Hk' Hne. induction idx as [|q idx IH]; intros vals h h'; cbn [assign_each].
  - by intros [= <-].
  - destruct vals as [|w vals]; [done|].
    destruct (setitem h a (strided k q) (Fin w)) as [h1|] eqn:E; cbn [mbind option_bind]; [|done].
    intros Hrest. rewrite (IH _ _ _ Hrest).
    eapply getitem_setitem_ne; [|exact E]. intros E'.
    apply strided_inj in E' as [? _]; [done|lia|lia].
Qed.

Lemma broadcast_same_length (n : nat) (vals : list R) :
  length vals = n -> broadcast n vals = Some vals.
Proof. intros H. unfold broadcast. by rewrite decide_True. Qed.

Lemma many_body_result cfg self i p a (v0 v1 v2 : R) g g' :
  areaf_vec self !! p = Some a ->
  getitem g (tF_apply_vec self) (strided 0 p) = Some (Fin v0) ->
  getitem g (tF_apply_vec self) (strided 1 p) = Some (Fin v1) ->
  getitem g (tF_apply_vec self) (strided 2 p) = Some (Fin v2) ->
  many_body cfg self (tF_apply_vec self) i p g = Some g' ->
  getitem g' (tF_apply_vec self) (strided 0 p) = Some (guarded_quotient v0 a) /\
  getitem g' (tF_apply_vec self) (strided 1 p) = Some (guarded_quotient v1 a) /\
  getitem g' (tF_apply_vec self) (strided 2 p) = Some (guarded_quotient v2 a).
Proof.
  intros Ha G0 G1 G2. unfold many_body.
  destruct (blend cfg _ _ p g) as [g1|] eqn:E; cbn [mbind option_bind]; [|done].
  apply blend_alias_id in E as ->. by apply area_guarded_result.
Qed.

(** X19. In batched per-DOF mode over distinct DOFs, when the middleware
    answers one value per DOF, the fetch leaves at the DOF at position [i]
    the values at position [i] of the three answers, divided by the DOF's
    area weight, or zero for a zero area weight; the coupling flag, the
    relaxation factor and the load before play no part. *)
Theorem MUI_Fetch_many_value (cfg : Config) (iface : Iface)
    (lstsq : Mat3 -> Vec3 -> Vec3) (self : Self) (dofs_to_xyz : list Vec3)
    (dofs_fetch_list : list nat) (n : Z) (h h' : heap) (tr : list Event)
    (i p : nat) (a vX vY vZ : R) :
  iMUIFetchMode cfg <> 1%Z -> iMUIFetchMany cfg = true ->
  (0 <= fetch_iteration cfg n)%Z ->
  MUI_Fetch cfg iface lstsq self dofs_to_xyz dofs_fetch_list n h = Some (h', tr) ->
  NoDup dofs_fetch_list ->
  dofs_fetch_list !! i = Some p ->
  areaf_vec self !! p = Some a ->
  (forall attr, length (fetch_many_values iface attr dofs_to_xyz (fetch_iteration cfg n))
                = length dofs_fetch_list) ->
  fetch_many_values iface "forceX" dofs_to_xyz (fetch_iteration cfg n) !! i = Some vX ->
  fetch_many_values iface "forceY" dofs_to_xyz (fetch_iteration cfg n) !! i = Some vY ->
  fetch_many_values iface "forceZ" dofs_to_xyz (fetch_iteration cfg n) !! i = Some vZ ->
  getitem h' (tF_apply_vec self) (strided 0 p) = Some (guarded_quotient vX a) /\
  getitem h' (tF_apply_vec self) (strided 1 p) = Some (guarded_quotient vY a) /\
  getitem h' (tF_apply_vec self) (strided 2 p) = Some (guarded_quotient vZ a).
Proof.
  intros Hmode Hmany Hidx Hrun Hnd Hp Ha Hlen HX HY HZ. unfold MUI_Fetch in Hrun.
  rewrite (proj2 (Z.leb_le _ _) Hidx), (proj2 (Z.eqb_neq _ _) Hmode), Hmany in Hrun.
  unfold setitem_list in Hrun. rewrite !broadcast_same_length in Hrun by apply Hlen.
  cbn [mbind option_bind] in Hrun.
  destruct (assign_each _ 0 _ _ h) as [h1|] eqn:E1; cbn [mbind option_bind] in Hrun; [|done].
  destruct (assign_each _ 1 _ _ h1) as [h2|] eqn:E2; cbn [mbind option_bind] in Hrun; [|done].
  destruct (assign_each _ 2 _ _ h2) as [h3|] eqn:E3; cbn [mbind option_bind] in Hrun; [|done].
  destruct (for_enumerate _ _ _ _) as [h4|] eqn:Hloop; cbn [mbind option_bind] in Hrun; [|done].
  injection Hrun as <- _.
  assert (G0 : getitem h3 (tF_apply_vec self) (strided 0 p) = Some (Fin vX)).
  { rewrite (assign_each_component _ 2 0 _ p ltac:(lia) ltac:(lia) ltac:(lia) _ _ _ E3).
    rewrite (assign_each_component _ 1 0 _ p ltac:(lia) ltac:(lia) ltac:(lia) _ _ _ E2).
    by eapply (assign_each_value _ 0 _ ltac:(lia)). }
  assert (G1 : getitem h3 (tF_apply_vec self) (strided 1 p) = Some (Fin vY)).
  { rewrite (assign_each_component _ 2 1 _ p ltac:(lia) ltac:(lia) ltac:(lia) _ _ _ E3).
    by eapply (assign_each_value _ 1 _ ltac:(lia)). }
  assert (G2 : getitem h3 (tF_apply_vec self) (strided 2 p) = Some (Fin vZ)).
  { by eapply (assign_each_value _ 2 _ ltac:(lia)). }
  destruct (loop_at (fun s => s) (tF_apply_vec self) _ p
              (fun i q s s' E => many_body_within cfg self i q [q] s s'
                                   (list_elem_of_here q []) E)
              _ _ _ _ i Hloop Hnd Hp) as (g & g' & Hb & Hpre & Hpost).
  rewrite <- (Hpre 0%nat) in G0 by lia. rewrite <- (Hpre 1%nat) in G1 by lia.
  rewrite <- (Hpre 2%nat) in G2 by lia.
  destruct (many_body_result cfg self _ p a vX vY vZ g g' Ha G0 G1 G2 Hb) as (R0 & R1 & R2).
  split_and!; (rewrite Hpost; [assumption | lia]).
Qed.

Lemma MUI_Fetch_many_value_witness :
  getitem [[Fin 0; Fin 0; Fin 0]] 0%nat (strided 0 0) = Some (guarded_quotient 2 0) /\
  getitem [[Fin 0; Fin 0; Fin 0]] 0%nat (strided 1 0) = Some (guarded_quotient 2 0) /\
  getitem [[Fin 0; Fin 0; Fin 0]] 0%nat (strided 2 0) = Some (guarded_quotient 2 0).
Proof.
  assert (Hrun : MUI_Fetch example_cfg (const_iface 2) (fun _ _ => vzero)
                   (example_self 0) [origin] [0%nat] 1 [[Fin 5; Fin 5; Fin 5]]
                 = Some ([[Fin 0; Fin 0; Fin 0]],
                         [fetch_many "forceX" [origin] 0; fetch_many "forceY" [origin] 0;
                          fetch_many "forceZ" [origin] 0])).
  { run_model. destruct (Req_dec_T 0 0) as [_|E]; [reflexivity|lra]. }
  apply (MUI_Fetch_many_value example_cfg (const_iface 2) (fun _ _ => vzero)
           (example_self 0) [origin] [0%nat] 1 _ _ _
           0%nat 0%nat 0 2 2 2 ltac:(cbv; discriminate) eq_refl ltac:(cbv; discriminate) Hrun).
  - repeat constructor. apply not_elem_of_nil.
  - reflexivity.
  - reflexivity.
  - intros attr. reflexivity.
  - reflexivity.
  - reflexivity.
  - reflexivity.
Defined.

(** The resultant force and the center of reaction of a resultant-mode
    fetch at time index [t] (lines 375-434). *)
Definition received_force (iface : Iface) (t : Z) : Vec3 :=
  V3 (fetch_value iface "forceX" origin t) (fetch_value iface "forceY" origin t)
     (fetch_value iface "forceZ" origin t).

Definition received_CofR (iface : Iface) (lstsq : Mat3 -> Vec3 -> Vec3) (t : Z) : Vec3 :=
  getCofR lstsq (received_force iface t)
    (V3 (fetch_value iface "momentX" origin t) (fetch_value iface "momentY" origin t)
        (fetch_value iface "momentZ" origin t))
    (V3 (fetch_value iface "CofRX" origin t) (fetch_value iface "CofRY" origin t)
        (fetch_value iface "CofRZ" origin t)).

Lemma resultant_body_result self F_out i p a F g g' :
  F_out !! i = Some F -> areaf_vec self !! p = Some a ->
  resultant_body self F_out i p g = Some g' ->
  getitem g' (tF_apply_vec self) (strided 0 p) = Some (guarded_quotient (vx F) a) /\
  getitem g' (tF_apply_vec self) (strided 1 p) = Some (guarded_quotient (vy F) a) /\
  getitem g' (tF_apply_vec self) (strided 2 p) = Some (guarded_quotient (vz F) a).
Proof.
  intros HF Ha. unfold resultant_body. rewrite HF. cbn [mbind option_bind].
  destruct (setitem g _ _ _) as [h1|] eqn:E1; cbn [mbind option_bind]; [|done].
  destruct (setitem h1 _ _ _) as [h2|] eqn:E2; cbn [mbind option_bind]; [|done].
  destruct (setitem h2 _ _ _) as [h3|] eqn:E3; cbn [mbind option_bind]; [|done].
  destruct (three_writes _ p _ _ _ g h1 h2 h3 E1 E2 E3) as (G0 & G1 & G2).
  by apply area_guarded_result.
Qed.

(** X20. In resultant mode over distinct DOFs, the fetch leaves at the DOF
    at position [i] the received resultant force scaled by the share of the
    coordinate at position [i] (a number in (0, 1], inverse to its distance
    from the recomputed center of reaction) and divided by the DOF's area
    weight, or zero for a zero area weight. *)
Theorem MUI_Fetch_resultant_value (cfg : Config) (iface : Iface)
    (lstsq : Mat3 -> Vec3 -> Vec3) (self : Self) (dofs_to_xyz : list Vec3)
    (dofs_fetch_list : list nat) (n : Z) (h h' : heap) (tr : list Event)
    (i p : nat) (x : Vec3) (a : R) :
  iMUIFetchMode cfg = 1%Z ->
  (0 <= fetch_iteration cfg n)%Z ->
  MUI_Fetch cfg iface lstsq self dofs_to_xyz dofs_fetch_list n h = Some (h', tr) ->
  NoDup dofs_fetch_list ->
  dofs_fetch_list !! i = Some p -> dofs_to_xyz !! i = Some x ->
  areaf_vec self !! p = Some a ->
  let t := fetch_iteration cfg n in
  let w := share (received_CofR iface lstsq t) dofs_to_xyz x in
  0 < w <= 1 /\
  getitem h' (tF_apply_vec self) (strided 0 p)
    = Some (guarded_quotient (w * vx (received_force iface t)) a) /\
  getitem h' (tF_apply_vec self) (strided 1 p)
    = Some (guarded_quotient (w * vy (received_force iface t)) a) /\
  getitem h' (tF_apply_vec self) (strided 2 p)
    = Some (guarded_quotient (w * vz (received_force iface t)) a).
Proof.
  intros Hmode Hidx Hrun Hnd Hp Hx Ha t w. unfold MUI_Fetch in Hrun.
  rewrite (proj2 (Z.leb_le _ _) Hidx), Hmode in Hrun. cbn [Z.eqb Pos.eqb] in Hrun.
  fold t in Hrun. fold (received_force iface t) in Hrun.
  fold (received_CofR iface lstsq t) in Hrun.
  destruct (for_enumerate _ _ _ _) as [h1|] eqn:Hloop; cbn [mbind option_bind] in Hrun; [|done].
  injection Hrun as <- _.
  split; [apply share_bounds; by eapply list_elem_of_lookup_2|].
  destruct (loop_at (fun s => s) (tF_apply_vec self) _ p
              (fun i q s s' E => resultant_body_within self _ i q [q] s s'
                                   (list_elem_of_here q []) E)
              _ _ _ _ i Hloop Hnd Hp) as (g & g' & Hb & _ & Hpost).
  pose proof (ForceInterp_lookup (received_force iface t) (received_CofR iface lstsq t)
                dofs_to_xyz i x Hx) as HF.
  destruct (resultant_body_result self _ _ p a _ g g' HF Ha Hb) as (R0 & R1 & R2).
  split_and!; (rewrite Hpost; [assumption | lia]).
Qed.

Lemma MUI_Fetch_resultant_value_witness :
  exists h' tr w,
    MUI_Fetch (fetch_cfg false 1 1 true) (const_iface 2) (fun _ _ => vzero)
      (example_self 0) [origin] [0%nat] 0 [[Fin 5; Fin 5; Fin 5]] = Some (h', tr) /\
    0 < w <= 1 /\
    getitem h' 0%nat (strided 0 0) = Some (guarded_quotient (w * 2) 0).
Proof.
  assert (Hrun : exists h' tr,
            MUI_Fetch (fetch_cfg false 1 1 true) (const_iface 2) (fun _ _ => vzero)
              (example_self 0) [origin] [0%nat] 0 [[Fin 5; Fin 5; Fin 5]] = Some (h', tr)).
  { unfold MUI_Fetch. cbn [fetch_iteration fetch_cfg iparallelFSICoupling iMUIFetchMode
      Z.leb Z.compare Z.eqb Pos.eqb for_enumerate].
    destruct (ForceInterp _ _ [origin]) as [|f [|f' fs]] eqn:EF;
      apply (f_equal length) in EF; rewrite ForceInterp_length in EF;
      try discriminate EF.
    unfold resultant_body, area_guarded, example_self, setitem, strided.
    cbn [tF_apply_vec areaf_vec lookup list_lookup mbind option_bind length
         Nat.mul Nat.add].
    destruct (Req_dec_T 0 0) as [_|E]; [|lra].
    cbn. eauto. }
  destruct Hrun as (h' & tr & Hrun). exists h', tr.
  destruct (MUI_Fetch_resultant_value (fetch_cfg false 1 1 true) (const_iface 2)
              (fun _ _ => vzero) (example_self 0) [origin] [0%nat] 0 _ h' tr
              0%nat 0%nat origin 0 eq_refl ltac:(cbv; discriminate) Hrun)
    as (Hw & R0 & _).
  - repeat constructor. apply not_elem_of_nil.
  - reflexivity.
  - reflexivity.
  - reflexivity.
  - eexists. split; [exact Hrun|]. split; [exact Hw|]. exact R0.
Defined.

(** ** When a fetch raises *)

Lemma within_array a D h h' arr :
  writes_within a D h h' -> h !! a = Some arr ->
  exists arr', h' !! a = Some arr' /\ length arr' = length arr.
Proof.
  intros (_ & _ & A) Ha. destruct (A arr Ha) as (arr' & H' & L & _). eauto.
Qed.

Lemma setitem_in_range (h h' : heap) a i v arr :
  setitem h a i v = Some h' -> h !! a = Some arr -> (i < length arr)%nat.
Proof.
  intros (arr0 & Ha0 & Hi & _)%setitem_Some Ha. rewrite Ha in Ha0. by injection Ha0 as <-.
Qed.

(** The division, guarded or not, writes the z entry of the DOF, which
    must exist. *)
Lemma area_divide_in_range self p g g' arr :
  area_divide self p g = Some g' -> g !! tF_apply_vec self = Some arr ->
  (strided 2 p < length arr)%nat.
Proof.
  unfold area_divide. intros Hd Ha.
  destruct (divide_component self 0 p g) as [g1|] eqn:E1; cbn [mbind option_bind] in Hd; [|done].
  destruct (divide_component self 1 p g1) as [g2|] eqn:E2; cbn [mbind option_bind] in Hd; [|done].
  pose proof (divide_component_within self 0 p [p] g g1 ltac:(lia)
                (list_elem_of_here p []) E1) as W1.
  pose proof (divide_component_within self 1 p [p] g1 g2 ltac:(lia)
                (list_elem_of_here p []) E2) as W2.
  destruct (within_array _ _ _ _ _ (within_trans _ _ _ _ _ W1 W2) Ha) as (arr2 & Ha2 & L2).
  unfold divide_component in Hd.
  destruct (getitem g2 _ _) as [v|]; cbn [mbind option_bind] in Hd; [|done].
  destruct (areaf_vec self !! p) as [a|]; cbn [mbind option_bind] in Hd; [|done].
  rewrite <- L2. by eapply setitem_in_range.
Qed.

Lemma area_guarded_in_range self p g g' arr :
  area_guarded self p g = Some g' -> g !! tF_apply_vec self = Some arr ->
  (strided 2 p < length arr)%nat.
Proof.
  unfold area_guarded. intros Hg Ha.
  destruct (areaf_vec self !! p) as [a|]; cbn [mbind option_bind] in Hg; [|done].
  destruct (Req_dec_T a 0); [|by eapply area_divide_in_range].
  destruct (setitem g _ _ _) as [g1|] eqn:E1; cbn [mbind option_bind] in Hg; [|done].
  destruct (setitem g1 _ _ _) as [g2|] eqn:E2; cbn [mbind option_bind] in Hg; [|done].
  pose proof (setitem_within g g1 _ 0 p (Fin 0) [p] ltac:(lia) (list_elem_of_here p []) E1) as W1.
  pose proof (setitem_within g1 g2 _ 1 p (Fin 0) [p] ltac:(lia) (list_elem_of_here p []) E2) as W2.
  destruct (within_array _ _ _ _ _ (within_trans _ _ _ _ _ W1 W2) Ha) as (arr2 & Ha2 & L2).
  rewrite <- L2. by eapply setitem_in_range.
Qed.

(** A returning loop has run its body at every DOF of its list, on a heap
    whose array has the length it had at the start. *)
Lemma loop_visits {St : Type} (proj : St -> heap) (a : ref)
    (body : nat -> nat -> St -> option St) (p : nat) :
  (forall i q s s', body i q s = Some s' -> writes_within a [q] (proj s) (proj s')) ->
  forall l i0 s s' arr,
    for_enumerate body i0 l s = Some s' -> p ∈ l -> proj s !! a = Some arr ->
    exists i s1 s2 arr1,
      body i p s1 = Some s2 /\ proj s1 !! a = Some arr1 /\ length arr1 = length arr.
Proof.
  intros Hbody. induction l as [|q l IH]; intros i0 s s' arr; cbn [for_enumerate].
  - intros _ Hin. by apply elem_of_nil in Hin.
  - destruct (body i0 q s) as [s1|] eqn:E; cbn [mbind option_bind]; [|done].
    intros Hrest Hin Ha. apply elem_of_cons in Hin as [->|Hin].
    + exists i0, s, s1, arr. by split_and!.
    + destruct (within_array _ _ _ _ _ (Hbody _ _ _ _ E) Ha) as (arr1 & Ha1 & L1).
      destruct (IH _ _ _ _ Hrest Hin Ha1) as (i & s2 & s3 & arr2 & Hb & Ha2 & L2).
      exists i, s2, s3, arr2. split_and!; [done|done|congruence].
Qed.

(** X21. With a non-negative fetch index, every fetch mode raises when some
    DOF of the fetch list has no z entry in the applied-load array (the
    array is shorter than 3*p + 3): nothing is returned. *)
Theorem MUI_Fetch_raises_out_of_range (cfg : Config) (iface : Iface)
    (lstsq : Mat3 -> Vec3 -> Vec3) (self : Self) (dofs_to_xyz : list Vec3)
    (dofs_fetch_list : list nat) (n : Z) (h : heap) (arr : list f64) (p : nat) :
  (0 <= fetch_iteration cfg n)%Z ->
  h !! tF_apply_vec self = Some arr ->
  p ∈ dofs_fetch_list ->
  (length arr <= strided 2 p)%nat ->
  MUI_Fetch cfg iface lstsq self dofs_to_xyz dofs_fetch_list n h = None.
Proof.
  intros Hidx Ha Hp Hlen.
  destruct (MUI_Fetch _ _ _ _ _ _ _ _) as [[h' tr]|] eqn:Hrun; [exfalso|reflexivity].
  unfold MUI_Fetch in Hrun. rewrite (proj2 (Z.leb_le _ _) Hidx) in Hrun.
  destruct (iMUIFetchMode cfg =? 1)%Z.
  - destruct (for_enumerate _ _ _ _) as [h1|] eqn:Hloop; cbn [mbind option_bind] in Hrun; [|done].
    destruct (loop_visits (fun s => s) (tF_apply_vec self) _ p
                (fun i q s s' E => resultant_body_within self _ i q [q] s s'
                                     (list_elem_of_here q []) E)
                _ _ _ _ _ Hloop Hp Ha) as (i & g & g' & arr1 & Hb & Ha1 & L1).
    unfold resultant_body in Hb.
    destruct (_ !! i) as [F|]; cbn [mbind option_bind] in Hb; [|done].
    destruct (setitem g _ _ _) as [g1|] eqn:E1; cbn [mbind option_bind] in Hb; [|done].
    destruct (setitem g1 _ _ _) as [g2|] eqn:E2; cbn [mbind option_bind] in Hb; [|done].
    destruct (setitem g2 _ _ _) as [g3|] eqn:E3; cbn [mbind option_bind] in Hb; [|done].
    pose proof (setitem_within g g1 _ 0 p _ [p] ltac:(lia) (list_elem_of_here p []) E1) as W1.
    pose proof (setitem_within g1 g2 _ 1 p _ [p] ltac:(lia) (list_elem_of_here p []) E2) as W2.
    destruct (within_array _ _ _ _ _ (within_trans _ _ _ _ _ W1 W2) Ha1) as (arr2 & Ha2 & L2).
    pose proof (setitem_in_range _ _ _ _ _ _ E3 Ha2). lia.
  - destruct (iMUIFetchMany cfg).
    + destruct (setitem_list _ 0 _ _ h) as [h1|] eqn:E1; cbn [mbind option_bind] in Hrun; [|done].
      destruct (setitem_list _ 1 _ _ h1) as [h2|] eqn:E2; cbn [mbind option_bind] in Hrun; [|done].
      destruct (setitem_list _ 2 _ _ h2) as [h3|] eqn:E3; cbn [mbind option_bind] in Hrun; [|done].
      destruct (for_enumerate _ _ _ _) as [h4|] eqn:Hloop; cbn [mbind option_bind] in Hrun; [|done].
      pose proof (setitem_list_within _ 0 _ _ _ _ ltac:(lia) E1) as W1.
      pose proof (setitem_list_within _ 1 _ _ _ _ ltac:(lia) E2) as W2.
      pose proof (setitem_list_within _ 2 _ _ _ _ ltac:(lia) E3) as W3.
      destruct (within_array _ _ _ _ _
                  (within_trans _ _ _ _ _ (within_trans _ _ _ _ _ W1 W2) W3) Ha)
        as (arr3 & Ha3 & L3).
      destruct (loop_visits (fun s => s) (tF_apply_vec self) _ p
                  (fun i q s s' E => many_body_within cfg self i q [q] s s'
                                       (list_elem_of_here q []) E)
                  _ _ _ _ _ Hloop Hp Ha3) as (i & g & g' & arr1 & Hb & Ha1 & L1).
      unfold many_body in Hb.
      destruct (blend cfg _ _ p g) as [g1|] eqn:Eb; cbn [mbind option_bind] in Hb; [|done].
      apply blend_alias_id in Eb as ->.
      pose proof (area_guarded_in_range _ _ _ _ _ Hb Ha1). lia.
    + destruct (loop_visits fst (tF_apply_vec self) _ p
                  (fun i q s s' => match s, s' with
                     | (g, t0), (g', t1) => fun E =>
                         single_body_within cfg iface self dofs_to_xyz _ i q [q] g t0 g' t1
                           (list_elem_of_here q []) E
                     end)
                  _ _ _ _ _ Hrun Hp Ha) as (i & [g t0] & [g' t1] & arr1 & Hb & Ha1 & L1).
      simpl in Ha1. unfold single_body in Hb.
      destruct (dofs_to_xyz !! i) as [x|]; cbn [mbind option_bind] in Hb; [|done].
      destruct (setitem g _ _ _) as [g1|] eqn:E1; cbn [mbind option_bind] in Hb; [|done].
      destruct (setitem g1 _ _ _) as [g2|] eqn:E2; cbn [mbind option_bind] in Hb; [|done].
      destruct (setitem g2 _ _ _) as [g3|] eqn:E3; cbn [mbind option_bind] in Hb; [|done].
      pose proof (setitem_within g g1 _ 0 p _ [p] ltac:(lia) (list_elem_of_here p []) E1) as W1.
      pose proof (setitem_within g1 g2 _ 1 p _ [p] ltac:(lia) (list_elem_of_here p []) E2) as W2.
      destruct (within_array _ _ _ _ _ (within_trans _ _ _ _ _ W1 W2) Ha1) as (arr2 & Ha2 & L2).
      pose proof (setitem_in_range _ _ _ _ _ _ E3 Ha2). lia.
Qed.

Lemma MUI_Fetch_raises_out_of_range_witness :
  MUI_Fetch example_cfg (const_iface 2) (fun _ _ => vzero) (example_self 1)
    [origin] [1%nat] 1 [[Fin 0; Fin 0; Fin 0]] = None.
Proof.
  apply (MUI_Fetch_raises_out_of_range example_cfg (const_iface 2) (fun _ _ => vzero)
           (example_self 1) [origin] [1%nat] 1 [[Fin 0; Fin 0; Fin 0]]
           [Fin 0; Fin 0; Fin 0] 1%nat).
  - cbv. discriminate.
  - reflexivity.
  - apply list_elem_of_here.
  - cbv. lia.
Defined.

(** ** The resultant is conserved *)

(** The force a DOF carries after the fetch: its three applied-load entries,
    which are loads per unit area, times its area weight.  Undefined when an
    entry is missing or not finite. *)
Definition finite (v : f64) : option R :=
  match v with Fin x => Some x | NonFin => None end.

Definition nodal_force (self : Self) (h : heap) (p : nat) : option Vec3 :=
  a ← areaf_vec self !! p;
  x ← getitem h (tF_apply_vec self) (strided 0 p) ≫= finite;
  y ← getitem h (tF_apply_vec self) (strided 1 p) ≫= finite;
  z ← getitem h (tF_apply_vec self) (strided 2 p) ≫= finite;
  Some (vscale a (V3 x y z)).

Lemma ForceInterp_shares (F_in CofR : Vec3) (SpprtLoc : list Vec3) :
  ForceInterp F_in CofR SpprtLoc
  = map (fun p => vscale (share CofR SpprtLoc p) F_in) SpprtLoc.
Proof. unfold ForceInterp, share. by rewrite !map_map. Qed.

Lemma vsum_shares (F : Vec3) (w : Vec3 -> R) (pts : list Vec3) :
  vsum (map (fun p => vscale (w p) F) pts) = vscale (rsum (map w pts)) F.
Proof.
  induction pts as [|p pts IH]; simpl.
  - vcalc. f_equal; ring.
  - rewrite IH. destruct F. vcalc. f_equal; ring.
Qed.

Lemma shares_sum_one (CofR : Vec3) (SpprtLoc : list Vec3) :
  SpprtLoc <> [] -> rsum (map (share CofR SpprtLoc) SpprtLoc) = 1.
Proof.
  intros Hne. unfold share.
  pose proof (distances_pos CofR SpprtLoc) as Hpos.
  assert (HS : 0 < rsum (map Rinv (map (distance CofR) SpprtLoc))).
  { apply rsum_inv_pos; [exact Hpos|]. by destruct SpprtLoc. }
  rewrite <- (map_map (distance CofR) (fun d => / (_ * d))).
  rewrite rsum_inv_scaled by (exact Hpos || lra).
  apply Rinv_l. lra.
Qed.

Lemma resultant_body_area self F_out i p g g' :
  resultant_body self F_out i p g = Some g' ->
  exists F a, F_out !! i = Some F /\ areaf_vec self !! p = Some a.
Proof.
  unfold resultant_body. destruct (F_out !! i) as [F|]; cbn [mbind option_bind]; [|done].
  destruct (setitem g _ _ _) as [h1|]; cbn [mbind option_bind]; [|done].
  destruct (setitem h1 _ _ _) as [h2|]; cbn [mbind option_bind]; [|done].
  destruct (setitem h2 _ _ _) as [h3|]; cbn [mbind option_bind]; [|done].
  unfold area_guarded. destruct (areaf_vec self !! p) as [a|]; [|done]. eauto.
Qed.

(** X22. In resultant mode, when the fetch list is non-empty, has distinct
    DOFs and exactly one coordinate per DOF, and no listed DOF has a zero
    area weight, the forces carried by the fetch DOFs after a returning
    fetch (load per unit area times area weight) sum to the received
    resultant force: the redistribution followed by the division by the
    area weights loses nothing. *)
Theorem MUI_Fetch_resultant_conserved (cfg : Config) (iface : Iface)
    (lstsq : Mat3 -> Vec3 -> Vec3) (self : Self) (dofs_to_xyz : list Vec3)
    (dofs_fetch_list : list nat) (n : Z) (h h' : heap) (tr : list Event) :
  iMUIFetchMode cfg = 1%Z ->
  (0 <= fetch_iteration cfg n)%Z ->
  MUI_Fetch cfg iface lstsq self dofs_to_xyz dofs_fetch_list n h = Some (h', tr) ->
  NoDup dofs_fetch_list ->
  dofs_fetch_list <> [] ->
  length dofs_to_xyz = length dofs_fetch_list ->
  (forall p, p ∈ dofs_fetch_list -> areaf_vec self !! p <> Some 0) ->
  exists loads,
    mapM (nodal_force self h') dofs_fetch_list = Some loads /\
    vsum loads = received_force iface (fetch_iteration cfg n).
Proof.
  intros Hmode Hidx Hrun Hnd Hne Hlen Harea. set (t := fetch_iteration cfg n).
  unfold MUI_Fetch in Hrun.
  rewrite (proj2 (Z.leb_le _ _) Hidx), Hmode in Hrun. cbn [Z.eqb Pos.eqb] in Hrun.
  fold t in Hrun. fold (received_force iface t) in Hrun.
  fold (received_CofR iface lstsq t) in Hrun.
  destruct (for_enumerate _ _ _ _) as [h1|] eqn:Hloop; cbn [mbind option_bind] in Hrun; [|done].
  injection Hrun as <- _.
  exists (ForceInterp (received_force iface t) (received_CofR iface lstsq t) dofs_to_xyz).
  split.
  - apply mapM_Some, Forall2_same_length_lookup_2.
    { by rewrite ForceInterp_length. }
    intros i p F Hp HF.
    destruct (loop_at (fun s => s) (tF_apply_vec self) _ p
                (fun i q s s' E => resultant_body_within self _ i q [q] s s'
                                     (list_elem_of_here q []) E)
                _ _ _ _ i Hloop Hnd Hp) as (g & g' & Hb & _ & Hpost).
    cbn [Nat.add] in Hb.
    destruct (resultant_body_area _ _ _ _ _ _ Hb) as (F' & a & HF' & Ha).
    rewrite HF in HF'. injection HF' as <-.
    destruct (resultant_body_result self _ _ p a _ g g' HF Ha Hb) as (R0 & R1 & R2).
    assert (Hnz : a <> 0).
    { intros ->. by apply (Harea p); [eapply list_elem_of_lookup_2|]. }
    unfold guarded_quotient in R0, R1, R2. destruct (Req_dec_T a 0) as [|_]; [done|].
    unfold nodal_force. rewrite Ha. cbn [mbind option_bind].
    rewrite (Hpost 0%nat), R0 by lia. cbn [mbind option_bind finite].
    rewrite (Hpost 1%nat), R1 by lia. cbn [mbind option_bind finite].
    rewrite (Hpost 2%nat), R2 by lia. cbn [mbind option_bind finite].
    f_equal. destruct F as [x y z]. vcalc. f_equal; field; exact Hnz.
  - rewrite ForceInterp_shares, vsum_shares, shares_sum_one.
    + destruct (received_force iface t). vcalc. f_equal; ring.
    + intros ->. by destruct dofs_fetch_list.
Qed.

Lemma MUI_Fetch_resultant_conserved_witness :
  exists h' tr loads,
    MUI_Fetch (fetch_cfg false 1 1 true) (const_iface 2) (fun _ _ => vzero)
      (example_self 4) [origin] [0%nat] 0 [[Fin 5; Fin 5; Fin 5]] = Some (h', tr) /\
    mapM (nodal_force (example_self 4) h') [0%nat] = Some loads /\
    vsum loads = V3 2 2 2.
Proof.
  assert (Hrun : exists h' tr,
            MUI_Fetch (fetch_cfg false 1 1 true) (const_iface 2) (fun _ _ => vzero)
              (example_self 4) [origin] [0%nat] 0 [[Fin 5; Fin 5; Fin 5]] = Some (h', tr)).
  { unfold MUI_Fetch. cbn [fetch_iteration fetch_cfg iparallelFSICoupling iMUIFetchMode
      Z.leb Z.compare Z.eqb Pos.eqb for_enumerate].
    destruct (ForceInterp _ _ [origin]) as [|f [|f' fs]] eqn:EF;
      apply (f_equal length) in EF; rewrite ForceInterp_length in EF;
      try discriminate EF.
    unfold resultant_body, area_guarded, area_divide, divide_component, example_self,
      setitem, getitem, strided.
    cbn [tF_apply_vec areaf_vec lookup list_lookup mbind option_bind length
         Nat.mul Nat.add].
    destruct (Req_dec_T 4 0) as [E|_]; [lra|].
    cbn. eauto. }
  destruct Hrun as (h' & tr & Hrun). exists h', tr.
  destruct (MUI_Fetch_resultant_conserved (fetch_cfg false 1 1 true) (const_iface 2)
              (fun _ _ => vzero) (example_self 4) [origin] [0%nat] 0 _ h' tr
              eq_refl ltac:(cbv; discriminate) Hrun)
    as (loads & Hm & Hs).
  - repeat constructor. apply not_elem_of_nil.
  - discriminate.
  - reflexivity.
  - intros p ->%list_elem_of_singleton. cbn. intros [=E]. lra.
  - exists loads. split; [exact Hrun|]. split; [exact Hm|]. exact Hs.
Defined.

(** ** Rigid-body push: a body turned about the origin *)

Lemma transpose_mmul (A B : Mat3) :
  transpose (mmul A B) = mmul (transpose B) (transpose A).
Proof.
  destruct A as [[a b c] [d e f] [g h i]], B as [[a' b' c'] [d' e' f'] [g' h' i']].
  vcalc. f_equal; f_equal; ring.
Qed.

Lemma transpose_involutive (A : Mat3) : transpose (transpose A) = A.
Proof. by destruct A as [[a b c] [d e f] [g h i]]. Qed.

Lemma mmul_assoc (A B C : Mat3) : mmul (mmul A B) C = mmul A (mmul B C).
Proof.
  destruct A as [[a b c] [d e f] [g h i]], B as [[a' b' c'] [d' e' f'] [g' h' i']],
    C as [[a'' b'' c''] [d'' e'' f''] [g'' h'' i'']].
  vcalc. f_equal; f_equal; ring.
Qed.

Lemma mmul_identity_l (C : Mat3) : mmul midentity C = C.
Proof. destruct C as [[a b c] [d e f] [g h i]]. vcalc. f_equal; f_equal; ring. Qed.

Lemma det_mmul (A B : Mat3) : det (mmul A B) = det A * det B.
Proof.
  destruct A as [[a b c] [d e f] [g h i]], B as [[a' b' c'] [d' e' f'] [g' h' i']].
  vcalc. ring.
Qed.

Lemma det_transpose (A : Mat3) : det (transpose A) = det A.
Proof. destruct A as [[a b c] [d e f] [g h i]]. vcalc. ring. Qed.

Lemma rotation_transpose (Q : Mat3) : is_rotation Q -> is_rotation (transpose Q).
Proof.
  intros (H1 & H2 & H3). unfold is_rotation.
  by rewrite transpose_involutive, det_transpose.
Qed.

Lemma rotation_mmul (A B : Mat3) :
  is_rotation A -> is_rotation B -> is_rotation (mmul A B).
Proof.
  intros (A1 & A2 & A3) (B1 & B2 & B3). unfold is_rotation.
  rewrite transpose_mmul, det_mmul, A3, B3. split_and!.
  - by rewrite mmul_assoc, <- (mmul_assoc (transpose A)), A1, mmul_identity_l.
  - by rewrite mmul_assoc, <- (mmul_assoc B), B2, mmul_identity_l.
  - ring.
Qed.

Lemma vadd_vsub_cancel (x a : Vec3) : vadd (vsub x a) a = x.
Proof. destruct x, a. vcalc. f_equal; ring. Qed.

Lemma norm2_vsub_self (a : Vec3) : norm2 (vsub a a) = 0.
Proof. destruct a. vcalc. ring. Qed.

Lemma vneg_involutive (e : Vec3) : vneg (vneg e) = e.
Proof. destruct e. vcalc. f_equal; ring. Qed.

(** The four reference points are turned about the origin by [Q]. *)
Definition pure_rotation (cfg : Config) (df : DisplacementFunction) (Q : Mat3) : Prop :=
  Forall (fun p => point_disp df p = vsub (mulMV Q p) p) (init_array cfg).

(** For reference points turned by the rotation [Q], two of them linearly
    independent, the fitted rotation is the inverse of [Q]. *)
Lemma align_rotation_inverse (C Q : Mat3) (a b c d : Vec3) :
  is_rotation Q ->
  is_align_vectors [a; b; c; d] [mulMV Q a; mulMV Q b; mulMV Q c; mulMV Q d] C ->
  (exists u v, u ∈ [a; b; c; d] /\ v ∈ [a; b; c; d] /\ cross u v <> vzero) ->
  C = transpose Q.
Proof.
  intros HQ [HC Hmin] (u & v & Hu & Hv & Hcross).
  specialize (Hmin (transpose Q) (rotation_transpose Q HQ)).
  unfold align_loss in Hmin. cbn [zip_with rsum foldr] in Hmin.
  rewrite <- !mulMV_mmul, (proj1 HQ), !mulMV_identity, !norm2_vsub_self in Hmin.
  pose proof (norm2_nonneg (vsub a (mulMV (mmul C Q) a))).
  pose proof (norm2_nonneg (vsub b (mulMV (mmul C Q) b))).
  pose proof (norm2_nonneg (vsub c (mulMV (mmul C Q) c))).
  pose proof (norm2_nonneg (vsub d (mulMV (mmul C Q) d))).
  assert (Hfix : Forall (fun x => mulMV (mmul C Q) x = x) [a; b; c; d])
    by (repeat constructor; apply fixed_of_norm2; lra).
  rewrite Forall_forall in Hfix.
  assert (E : mmul C Q = midentity).
  { apply (rotation_fixing_two _ u v); [by apply rotation_mmul| | |exact Hcross];
      apply Hfix; by apply list_elem_of_In. }
  apply (f_equal (fun M => mmul M (transpose Q))) in E.
  by rewrite mmul_assoc, (proj1 (proj2 HQ)), mmul_identity_r, mmul_identity_l in E.
Qed.

Lemma vmean_rotation (Q : Mat3) (a b c d : Vec3) :
  vmean [vsub (mulMV Q a) a; vsub (mulMV Q b) b; vsub (mulMV Q c) c; vsub (mulMV Q d) d]
  = vsub (mulMV Q (vmean [a; b; c; d])) (vmean [a; b; c; d]).
Proof.
  destruct Q as [[q1 q2 q3] [q4 q5 q6] [q7 q8 q9]], a as [a1 a2 a3], b as [b1 b2 b3],
    c as [c1 c2 c3], d as [d1 d2 d3].
  unfold vmean, vsum. simpl. vcalc. f_equal; field.
Qed.

(** The six values of [rigid_body_motion] for reference points turned about
    the origin by [Q]. *)
Lemma rigid_rotation_motion (cfg : Config)
    (align_vectors : list Vec3 -> list Vec3 -> Mat3) (as_euler_xyz : Mat3 -> Vec3)
    (df : DisplacementFunction) (Q : Mat3) :
  is_rotation Q ->
  pure_rotation cfg df Q ->
  scipy_contract cfg df align_vectors as_euler_xyz ->
  (exists u v, u ∈ init_array cfg /\ v ∈ init_array cfg /\ cross u v <> vzero) ->
  rigid_body_motion cfg align_vectors as_euler_xyz df
  = (vsub (mulMV Q (vmean (init_array cfg))) (vmean (init_array cfg)),
     vneg (as_euler_xyz (transpose Q))) /\
  is_euler_xyz (transpose Q) (as_euler_xyz (transpose Q)).
Proof.
  intros HQ Hrot [Hfit Heuler] Hind.
  unfold pure_rotation, init_array in *.
  pose proof (Forall_inv Hrot) as Ea. apply Forall_inv_tail in Hrot.
  pose proof (Forall_inv Hrot) as Eb. apply Forall_inv_tail in Hrot.
  pose proof (Forall_inv Hrot) as Ec. apply Forall_inv_tail in Hrot.
  pose proof (Forall_inv Hrot) as Ed. clear Hrot. cbv beta in Ea, Eb, Ec, Ed.
  cbn [map zip_with] in Hfit, Heuler. rewrite Ea, Eb, Ec, Ed in Hfit, Heuler.
  rewrite !vadd_vsub_cancel in Hfit, Heuler.
  pose proof (align_rotation_inverse _ Q _ _ _ _ HQ Hfit Hind) as HC.
  rewrite HC, mmul_identity_r in Heuler. split; [|exact Heuler].
  unfold rigid_body_motion. cbv zeta. cbn [zip_with].
  rewrite Ea, Eb, Ec, Ed, !vadd_vsub_cancel, HC, mmul_identity_r.
  by rewrite vmean_rotation.
Qed.

(** X23. In rigid-body push mode, when the four reference points are turned
    about the origin by a rotation [Q] and two of them are linearly
    independent, the fit recovers the inverse of [Q]: the pushed
    surge/sway/heave are the displacement of the centroid of the reference
    points, and the pushed roll/pitch/yaw are the negated xyz Euler angles
    of the inverse rotation. *)
Theorem rigid_rotation_push (cfg : Config)
    (align_vectors : list Vec3 -> list Vec3 -> Mat3) (as_euler_xyz : Mat3 -> Vec3)
    (dofs_to_xyz : list Vec3) (dofs_push : list nat) (df : DisplacementFunction)
    (Q : Mat3) (N : Z) :
  iMUIPushMode cfg = 1%Z ->
  is_rotation Q ->
  pure_rotation cfg df Q ->
  scipy_contract cfg df align_vectors as_euler_xyz ->
  (exists u v, u ∈ init_array cfg /\ v ∈ init_array cfg /\ cross u v <> vzero) ->
  exists angles,
    let T := vsub (mulMV Q (vmean (init_array cfg))) (vmean (init_array cfg)) in
    MUI_Push cfg align_vectors as_euler_xyz dofs_to_xyz dofs_push df N
    = Some ([push "dispX" origin (vx T); push "dispY" origin (vy T);
             push "dispZ" origin (vz T); push "angleX" origin (vx angles);
             push "angleY" origin (vy angles); push "angleZ" origin (vz angles);
             commit N] ++ spec_window_trim (forgetTStepsMUI cfg) N) /\
    is_euler_xyz (transpose Q) (vneg angles).
Proof.
  intros Hmode HQ Hrot Hscipy Hind.
  destruct (rigid_rotation_motion cfg align_vectors as_euler_xyz df Q HQ Hrot Hscipy Hind)
    as [Hm He].
  exists (vneg (as_euler_xyz (transpose Q))). cbv zeta. split.
  - unfold MUI_Push. rewrite Hmode, Hm. cbn [Z.eqb mbind option_bind].
    by rewrite code_trim_is_spec.
  - by rewrite vneg_involutive.
Qed.

(** The quarter turn about z that takes x to y, the inverse of
    [quarter_turn]. *)
Definition quarter_turn_back : Mat3 := M3 (V3 0 (-1) 0) (V3 1 0 0) (V3 0 0 1).

Definition turned_cfg : Config :=
  rigid_cfg (V3 1 0 0) (V3 0 1 0) (V3 (-1) 0 0) (V3 0 (-1) 0).
Definition turned_df : DisplacementFunction :=
  {| get_local := []; point_disp := fun p => vsub (mulMV quarter_turn_back p) p |}.

Lemma quarter_turn_back_rotation : is_rotation quarter_turn_back.
Proof.
  unfold is_rotation, quarter_turn_back. vcalc.
  repeat split; try (f_equal; f_equal; ring); ring.
Qed.

Lemma turned_fits :
  scipy_contract turned_cfg turned_df (fun _ _ => quarter_turn)
    (fun _ => V3 0 0 (- (PI / 2))).
Proof.
  unfold scipy_contract. cbv zeta. rewrite mmul_identity_r. split.
  - split.
    + unfold is_rotation, quarter_turn. vcalc.
      repeat split; try (f_equal; f_equal; ring); ring.
    + intros C' _. eapply Rle_trans; [|apply align_loss_nonneg].
      right. unfold align_loss, quarter_turn, quarter_turn_back, turned_cfg, turned_df,
        rigid_cfg, init_array.
      cbn [map zip_with rsum foldr point_disp pointSDOFa pointSDOFb pointSDOFc pointSDOFd].
      unfold quarter_turn_back. vcalc. ring.
  - unfold is_euler_xyz. cbn [vx vy vz]. rewrite euler_matrix.
    rewrite cos_0, sin_0, cos_neg, sin_neg, cos_PI2, sin_PI2.
    pose proof PI_RGT_0. split; [|lra].
    unfold quarter_turn. f_equal; f_equal; ring.
Qed.

Lemma rigid_rotation_push_witness :
  exists angles,
    MUI_Push turned_cfg (fun _ _ => quarter_turn) (fun _ => V3 0 0 (- (PI / 2))) [] []
      turned_df 1
    = Some ([push "dispX" origin
               (vx (vsub (mulMV quarter_turn_back (vmean (init_array turned_cfg)))
                         (vmean (init_array turned_cfg))));
             push "dispY" origin
               (vy (vsub (mulMV quarter_turn_back (vmean (init_array turned_cfg)))
                         (vmean (init_array turned_cfg))));
             push "dispZ" origin
               (vz (vsub (mulMV quarter_turn_back (vmean (init_array turned_cfg)))
                         (vmean (init_array turned_cfg))));
             push "angleX" origin (vx angles);
             push "angleY" origin (vy angles); push "angleZ" origin (vz angles);
             commit 1] ++ spec_window_trim (forgetTStepsMUI turned_cfg) 1) /\
    is_euler_xyz (transpose quarter_turn_back) (vneg angles).
Proof.
  apply (rigid_rotation_push turned_cfg (fun _ _ => quarter_turn)
           (fun _ => V3 0 0 (- (PI / 2))) [] [] turned_df quarter_turn_back 1).
  - reflexivity.
  - apply quarter_turn_back_rotation.
  - by repeat constructor.
  - apply turned_fits.
  - exists (V3 1 0 0), (V3 0 1 0). split; [|split].
    + apply list_elem_of_here.
    + apply list_elem_of_further, list_elem_of_here.
    + vcalc. intros [= _ _ E]. lra.
Defined.

(** ** Rigid-body push: a turn about one axis *)

Inductive Axis : Type := AxisX | AxisY | AxisZ.

Definition axis_turn (ax : Axis) (t : R) : Mat3 :=
  match ax with AxisX => Rx t | AxisY => Ry t | AxisZ => Rz t end.

Definition axis_angles (ax : Axis) (t : R) : Vec3 :=
  match ax with AxisX => V3 t 0 0 | AxisY => V3 0 t 0 | AxisZ => V3 0 0 t end.

(** The angles scipy's xyz convention represents without ambiguity: less
    than a half turn about x or z, less than a quarter turn about y. *)
Definition axis_range (ax : Axis) (t : R) : Prop :=
  match ax with AxisY => - (PI / 2) < t < PI / 2 | _ => - PI < t < PI end.

Lemma sin_cos_unit (t : R) : sin t * sin t + cos t * cos t = 1.
Proof. pose proof (sin2_cos2 t) as H. unfold Rsqr in H. exact H. Qed.

Lemma axis_turn_rotation (ax : Axis) (t : R) : is_rotation (axis_turn ax t).
Proof.
  pose proof (sin_cos_unit t) as H.
  destruct ax; unfold is_rotation, axis_turn, Rx, Ry, Rz; vcalc;
    repeat split; try (f_equal; f_equal; lra); lra.
Qed.

(** An angle of at most a half turn is determined by its sine and cosine,
    a strict half turn apart. *)
Lemma angle_unique (c x : R) :
  - PI <= c <= PI -> - PI < x < PI -> cos c = cos x -> sin c = sin x -> c = x.
Proof.
  intros Hc Hx Ecos Esin. pose proof PI_RGT_0 as Hpi.
  pose proof (sin_cos_unit x) as Hu.
  assert (Hcos : cos (c - x) = 1) by (rewrite cos_minus, Ecos, Esin; lra).
  assert (Hsin : sin ((c - x) / 2) = 0).
  { replace (c - x) with (2 * ((c - x) / 2)) in Hcos by field.
    rewrite cos_2a_sin in Hcos. nra. }
  destruct (Rle_dec 0 ((c - x) / 2)) as [Hy|Hy].
  - destruct (sin_eq_O_2PI_0 ((c - x) / 2)) as [E|[E|E]]; lra.
  - destruct (sin_eq_O_2PI_0 (- ((c - x) / 2))) as [E|[E|E]]; try lra.
    rewrite sin_neg. lra.
Qed.

(** The xyz Euler angles of the inverse of a turn about one axis. *)
Lemma euler_of_axis_turn (ax : Axis) (t : R) (e : Vec3) :
  axis_range ax t ->
  is_euler_xyz (transpose (axis_turn ax t)) e -> e = vneg (axis_angles ax t).
Proof.
  destruct e as [a b c]. unfold is_euler_xyz. cbn [vx vy vz].
  intros Hr (HM & Ha & Hb & Hc). rewrite euler_matrix in HM.
  pose proof PI_RGT_0 as Hpi.
  destruct ax; unfold axis_turn, axis_angles, axis_range, Rx, Ry, Rz, transpose,
    col1, col2, col3 in *; cbn [row1 row2 row3 vx vy vz] in HM;
    injection HM as H11 H12 H13 H21 H22 H23 H31 H32 H33.
  - assert (b = 0) as -> by (apply sin_zero_half; [exact Hb | lra]).
    rewrite cos_0, ?Rmult_1_r, ?Rmult_1_l in *.
    assert (c = 0) as -> by (apply sin_cos_zero; [exact Hc | lra | lra]).
    assert (a = - t) as ->.
    { apply angle_unique; [exact Ha | lra | rewrite cos_neg; lra | rewrite sin_neg; lra]. }
    vcalc. f_equal; ring.
  - assert (b = - t) as ->.
    { apply sin_inj; [exact Hb | lra | rewrite sin_neg; lra]. }
    assert (Hcos : 0 < cos t) by (apply cos_gt_0; lra).
    rewrite cos_neg in *.
    assert (a = 0) as ->.
    { apply sin_cos_zero; [exact Ha | nra | nra]. }
    assert (c = 0) as ->.
    { apply sin_cos_zero; [exact Hc | nra | nra]. }
    vcalc. f_equal; ring.
  - assert (b = 0) as -> by (apply sin_zero_half; [exact Hb | lra]).
    rewrite cos_0, ?Rmult_1_r, ?Rmult_1_l in *.
    assert (a = 0) as -> by (apply sin_cos_zero; [exact Ha | lra | lra]).
    assert (c = - t) as ->.
    { apply angle_unique; [exact Hc | lra | rewrite cos_neg; lra | rewrite sin_neg; lra]. }
    vcalc. f_equal; ring.
Qed.

(** The inverse of [Q] is a least-squares fit for points turned by [Q]. *)
Lemma inverse_aligns_rotation (Q : Mat3) (a b c d : Vec3) :
  is_rotation Q ->
  is_align_vectors [a; b; c; d] [mulMV Q a; mulMV Q b; mulMV Q c; mulMV Q d] (transpose Q).
Proof.
  intros HQ. split; [by apply rotation_transpose|]. intros C' _.
  eapply Rle_trans; [|apply align_loss_nonneg]. right.
  unfold align_loss. cbn [zip_with rsum foldr].
  rewrite <- !mulMV_mmul, (proj1 HQ), !mulMV_identity, !norm2_vsub_self. ring.
Qed.

(** X24. In rigid-body push mode, when the four reference points, two of
    them linearly independent, are turned about the origin by the angle
    [t] about one coordinate axis (less than a half turn about x or z,
    less than a quarter turn about y), the pushed roll/pitch/yaw are [t]
    on that axis and zero on the other two. *)
Theorem rigid_single_axis_push (cfg : Config)
    (align_vectors : list Vec3 -> list Vec3 -> Mat3) (as_euler_xyz : Mat3 -> Vec3)
    (dofs_to_xyz : list Vec3) (dofs_push : list nat) (df : DisplacementFunction)
    (ax : Axis) (t : R) (N : Z) :
  iMUIPushMode cfg = 1%Z ->
  axis_range ax t ->
  pure_rotation cfg df (axis_turn ax t) ->
  scipy_contract cfg df align_vectors as_euler_xyz ->
  (exists u v, u ∈ init_array cfg /\ v ∈ init_array cfg /\ cross u v <> vzero) ->
  let T := vsub (mulMV (axis_turn ax t) (vmean (init_array cfg))) (vmean (init_array cfg)) in
  let angles := axis_angles ax t in
  MUI_Push cfg align_vectors as_euler_xyz dofs_to_xyz dofs_push df N
  = Some ([push "dispX" origin (vx T); push "dispY" origin (vy T);
           push "dispZ" origin (vz T); push "angleX" origin (vx angles);
           push "angleY" origin (vy angles); push "angleZ" origin (vz angles);
           commit N] ++ spec_window_trim (forgetTStepsMUI cfg) N).
Proof.
  intros Hmode Hr Hrot Hscipy Hind T angles.
  destruct (rigid_rotation_motion cfg align_vectors as_euler_xyz df _
              (axis_turn_rotation ax t) Hrot Hscipy Hind) as [Hm He].
  apply (euler_of_axis_turn ax t _ Hr) in He.
  unfold MUI_Push. rewrite Hmode, Hm, He, vneg_involutive.
  cbn [Z.eqb mbind option_bind]. by rewrite code_trim_is_spec.
Qed.

Definition yawed_df : DisplacementFunction :=
  {| get_local := []; point_disp := fun p => vsub (mulMV (Rz (PI / 2)) p) p |}.

Lemma rigid_single_axis_push_witness :
  MUI_Push turned_cfg (fun _ _ => transpose (Rz (PI / 2))) (fun _ => V3 0 0 (- (PI / 2)))
    [] [] yawed_df 1
  = Some ([push "dispX" origin
             (vx (vsub (mulMV (Rz (PI / 2)) (vmean (init_array turned_cfg)))
                       (vmean (init_array turned_cfg))));
           push "dispY" origin
             (vy (vsub (mulMV (Rz (PI / 2)) (vmean (init_array turned_cfg)))
                       (vmean (init_array turned_cfg))));
           push "dispZ" origin
             (vz (vsub (mulMV (Rz (PI / 2)) (vmean (init_array turned_cfg)))
                       (vmean (init_array turned_cfg))));
           push "angleX" origin 0; push "angleY" origin 0; push "angleZ" origin (PI / 2);
           commit 1] ++ spec_window_trim (forgetTStepsMUI turned_cfg) 1).
Proof.
  apply (rigid_single_axis_push turned_cfg (fun _ _ => transpose (Rz (PI / 2)))
           (fun _ => V3 0 0 (- (PI / 2))) [] [] yawed_df AxisZ (PI / 2) 1).
  - reflexivity.
  - pose proof PI_RGT_0. cbn [axis_range]. lra.
  - by repeat constructor.
  - unfold scipy_contract. cbv zeta. rewrite mmul_identity_r. split.
    + unfold turned_cfg, rigid_cfg, init_array, yawed_df.
      cbn [map zip_with point_disp pointSDOFa pointSDOFb pointSDOFc pointSDOFd].
      rewrite !vadd_vsub_cancel.
      apply inverse_aligns_rotation, (axis_turn_rotation AxisZ).
    + unfold is_euler_xyz. cbn [vx vy vz]. rewrite euler_matrix.
      rewrite cos_0, sin_0, cos_neg, sin_neg.
      pose proof PI_RGT_0. split; [|lra].
      unfold Rz. vcalc. f_equal; f_equal; ring.
  - exists (V3 1 0 0), (V3 0 1 0). split; [|split].
    + apply list_elem_of_here.
    + apply list_elem_of_further, list_elem_of_here.
    + vcalc. intros [= _ _ E]. lra.
Defined.

(** ** Declared data types: [MUI_Init] (lines 55-101) *)

(** The keys of [data_types], the attribute names [MUI_Init] declares on
    the interface with [set_data_types] (lines 61-81); each is declared as
    [mui4py.FLOAT64]. *)
Definition data_types : list string :=
  ["dispX"; "dispY"; "dispZ"; "angleX"; "angleY"; "angleZ";
   "surge"; "sway"; "heave"; "roll"; "pitch"; "yaw";
   "momentX"; "momentY"; "momentZ"; "forceX"; "forceY"; "forceZ";
   "CofRX"; "CofRY"; "CofRZ"]%string.

(** A call that carries an attribute carries a declared one. *)
Definition declared (e : Event) : Prop :=
  forall attr, event_attr e = Some attr -> attr ∈ data_types.

Ltac in_data_types :=
  apply list_elem_of_In; unfold data_types; cbn [In];
  repeat (first [left; reflexivity | right]).

Lemma declared_attr (e : Event) (attr : string) :
  attr ∈ data_types -> event_attr e = Some attr -> declared e.
Proof. intros Hin He attr' He'. rewrite He in He'. by injection He' as <-. Qed.

Lemma declared_no_attr (e : Event) : event_attr e = None -> declared e.
Proof. intros He attr He'. by rewrite He in He'. Qed.

Ltac each_declared_then tac :=
  repeat (apply Forall_cons;
          [first [by apply declared_no_attr
                 | (eapply declared_attr; [|reflexivity]); in_data_types]|]);
  tac.
Ltac each_declared := each_declared_then ltac:(apply Forall_nil).

Lemma single_loop_declared (cfg : Config) (iface : Iface) (self : Self)
    (dofs_to_xyz : list Vec3) (t : Z) (temp : ref) (l : list nat) :
  forall i h tr h' tr',
    for_enumerate (single_body cfg iface self dofs_to_xyz t temp) i l (h, tr)
      = Some (h', tr') ->
    Forall declared tr -> Forall declared tr'.
Proof.
  induction l as [|p l IH]; intros i h tr h' tr'; cbn [for_enumerate].
  - by intros [= <- <-].
  - destruct (single_body cfg iface self dofs_to_xyz t temp i p (h, tr))
      as [[h1 tr1]|] eqn:E; cbn [mbind option_bind]; [|done].
    intros Hloop Htr. eapply IH; [exact Hloop|].
    unfold single_body in E.
    destruct (dofs_to_xyz !! i) as [x|]; simpl in E; [|done].
    destruct (setitem h _ _ _) as [h2|]; simpl in E; [|done].
    destruct (setitem h2 _ _ _) as [h3|]; simpl in E; [|done].
    destruct (setitem h3 _ _ _) as [h4|]; simpl in E; [|done].
    destruct (blend _ _ _ _ _) as [h5|]; simpl in E; [|done].
    destruct (area_divide _ _ _) as [h6|]; simpl in E; [|done].
    injection E as <- <-. apply Forall_app. split; [exact Htr|].
    each_declared.
Qed.

Lemma trim_declared (k N : Z) : Forall declared (spec_window_trim k N).
Proof.
  unfold spec_window_trim. case_bool_decide; each_declared.
Qed.

Lemma axis_declared (attr : string) (enabled : bool) (ev : list Event) :
  attr ∈ data_types ->
  Forall (fun e => event_attr e = Some attr /\ enabled = true) ev ->
  Forall declared ev.
Proof.
  intros Hin Hev. eapply Forall_impl; [|exact Hev].
  intros e [He _]. by eapply declared_attr.
Qed.

(** X25. Every attribute a returning [MUI_Fetch] fetches and every
    attribute a returning [MUI_Push] pushes, in every fetch and push mode,
    is one of the names [MUI_Init] declares on the interface. *)
Theorem exchanged_attributes_declared (cfg : Config) (iface : Iface)
    (lstsq : Mat3 -> Vec3 -> Vec3) (self : Self)
    (align_vectors : list Vec3 -> list Vec3 -> Mat3) (as_euler_xyz : Mat3 -> Vec3)
    (dofs_to_xyz : list Vec3) (dofs : list nat) (df : DisplacementFunction)
    (n : Z) (h : heap) (tr : list Event) :
  (exists h', MUI_Fetch cfg iface lstsq self dofs_to_xyz dofs n h = Some (h', tr)) \/
  MUI_Push cfg align_vectors as_euler_xyz dofs_to_xyz dofs df n = Some tr ->
  Forall declared tr.
Proof.
  intros [[h' Hrun]|Hrun].
  - unfold MUI_Fetch in Hrun.
    destruct (0 <=? fetch_iteration cfg n)%Z; [|injection Hrun as _ <-; constructor].
    destruct (iMUIFetchMode cfg =? 1)%Z.
    + destruct (for_enumerate _ _ _ _) as [h1|]; simpl in Hrun; [|done].
      injection Hrun as _ <-.
      each_declared.
    + destruct (iMUIFetchMany cfg).
      * destruct (setitem_list _ 0 _ _ h) as [h1|]; simpl in Hrun; [|done].
        destruct (setitem_list _ 1 _ _ h1) as [h2|]; simpl in Hrun; [|done].
        destruct (setitem_list _ 2 _ _ h2) as [h3|]; simpl in Hrun; [|done].
        destruct (for_enumerate _ _ _ _) as [h4|]; simpl in Hrun; [|done].
        injection Hrun as _ <-.
        each_declared.
      * eapply single_loop_declared; [exact Hrun|constructor].
  - unfold MUI_Push in Hrun. rewrite code_trim_is_spec in Hrun.
    destruct (iMUIPushMode cfg =? 0)%Z.
    + assert (Hgen : forall ex ey ez : option (list Event),
        (forall ev, ex = Some ev ->
           Forall (fun e => event_attr e = Some "dispX"%string /\ iPushX cfg = true) ev) ->
        (forall ev, ey = Some ev ->
           Forall (fun e => event_attr e = Some "dispY"%string /\ iPushY cfg = true) ev) ->
        (forall ev, ez = Some ev ->
           Forall (fun e => event_attr e = Some "dispZ"%string /\ iPushZ cfg = true) ev) ->
        (exchange ← (ux ← ex; uy ← ey; uz ← ez; Some (ux ++ uy ++ uz ++ [commit n]));
         Some (exchange ++ spec_window_trim (forgetTStepsMUI cfg) n)) = Some tr ->
        Forall declared tr).
      { intros [ux|] [uy|] [uz|] Hx Hy Hz; simpl; try done. intros [= <-].
        rewrite !Forall_app. split_and!.
        - eapply axis_declared; [|exact (Hx _ eq_refl)]. in_data_types.
        - eapply axis_declared; [|exact (Hy _ eq_refl)]. in_data_types.
        - eapply axis_declared; [|exact (Hz _ eq_refl)]. in_data_types.
        - each_declared.
        - apply trim_declared. }
      destruct (iMUIPushMany cfg).
      * revert Hrun. apply Hgen; intros ev; apply push_many_axis_attr.
      * revert Hrun. apply Hgen; intros ev; apply push_each_axis_attr.
    + destruct (iMUIPushMode cfg =? 1)%Z.
      * destruct (rigid_body_motion _ _ _ _) as [T angles].
        cbn [mbind option_bind] in Hrun. injection Hrun as <-.
        each_declared_then ltac:(apply trim_declared).
      * cbn [mbind option_bind app] in Hrun. injection Hrun as <-. apply trim_declared.
Qed.

Lemma exchanged_attributes_declared_witness :
  Forall declared [push_many "dispX" [origin] [1]; push_many "dispZ" [origin] [3]; commit 3].
Proof.
  apply (exchanged_attributes_declared (push_cfg 0 true true false true) (const_iface 0)
           (fun _ _ => vzero) (example_self 1) (fun _ _ => midentity) (fun _ => vzero)
           [origin] [0%nat]
           {| get_local := [1; 2; 3]; point_disp := fun _ => vzero |} 3 []).
  right. reflexivity.
Defined.

(** * Reuse of a stored RBF matrix ([MUI_Sampler_Define], lines 262-333) *)

Local Open Scope Z_scope.

(** [str(n)] and ["%i" % n] of a Python int: its decimal digits, with a
    leading minus sign for a negative number. *)
Definition str (n : Z) : string := NilZero.string_of_int (Z.to_int n).

Definition newline : string := String "010"%char EmptyString.

(** [needle in hay] on Python strings: [needle] occurs somewhere in [hay]. *)
Fixpoint contains (needle hay : string) : bool :=
  if String.prefix needle hay then true
  else match hay with
       | EmptyString => false
       | String _ rest => contains needle rest
       end.

(** The files [pointID.dat] and [Hmatrix.dat] of the numbered subfolders of
    the input folder, each as the lines a Python file iteration yields;
    [None] for a file that does not exist, whose [open] raises. *)
Record SourceFiles : Type := {
  pointID_dat : Z -> option (list string);
  Hmatrix_dat : Z -> option (list string)
}.

(** Lines 331-333: the lines of the [pointID.dat] a run leaves for a later
    run, one ["%i\n" % pid] per point. *)
Definition write_pointID (point3dGlobalID : list Z) : list string :=
  map (fun pid => str pid ++ newline)%string point3dGlobalID.

(** Lines 281-288: the [for line in f_pid] loop with its [break]; returns
    [(result_line_number, result_folder_number)]. *)
Fixpoint scan_pointID (needle : string) (iFolder line_number : Z)
    (lines : list string) : Z * Z :=
  match lines with
  | [] => (-99, -99)
  | line :: rest =>
      let line_number := line_number + 1 in
      if contains needle line then (line_number, iFolder)
      else scan_pointID needle iFolder line_number rest
  end.

(** Lines 277-292: the [while iFolder < numberOfFolders] loop, [n] the
    number of iterations left.  [result] is the pair of result variables as
    bound so far, [None] while they are unbound; reading them unbound after
    the loop raises, so [None] is also the result of a run that raises. *)
Fixpoint search_folders (src : SourceFiles) (needle : string) (n : nat) (iFolder : Z)
    (result : option (Z * Z)) : option (Z * Z) :=
  match n with
  | O => result
  | S n' =>
      lines ← pointID_dat src iFolder;
      let result := scan_pointID needle iFolder (-1) lines in
      if 0 <=? snd result then Some result
      else search_folders src needle n' (iFolder + 1) (Some result)
  end.

(** [line[-1]], which raises on an empty string. *)
Fixpoint last_char (s : string) : option ascii :=
  match s with
  | EmptyString => None
  | String c rest => match rest with EmptyString => Some c | _ => last_char rest end
  end.

(** Lines 302-305: the line as written, with a line end. *)
Definition with_newline (line : string) : option string :=
  c ← last_char line;
  Some (if Ascii.eqb c "010" then line else (line ++ newline)%string).

Fixpoint count_commas (s : string) : nat :=
  match s with
  | EmptyString => O
  | String c rest => ((if Ascii.eqb c "," then 1 else 0) + count_commas rest)%nat
  end.

(** [len(line.split(","))]. *)
Definition split_length (line : string) : Z := Z.of_nat (S (count_commas line)).

(** Lines 299-310: the [for i, line in enumerate(f_h)] loop over the stored
    matrix, on the pair of the local [Hmatrix.dat] and [numberOfCols]. *)
Fixpoint copy_loop (target i : Z) (lines : list string) (s : list string * Z)
    : option (list string * Z) :=
  match lines with
  | [] => Some s
  | line :: rest =>
      if i =? target then
        w ← with_newline line;
        copy_loop target (i + 1) rest
          (fst s ++ [w], if snd s <? 0 then split_length line else snd s)
      else if i >? target then Some s
      else copy_loop target (i + 1) rest s
  end.

Record ReuseState : Type := {
  result : option (Z * Z);
  Hmatrix_out : list string;
  numberOfCols : Z;
  errors : list Event
}.

(** Lines 275-311: one iteration of the loop over the point IDs. *)
Definition reuse_point (src : SourceFiles) (numberOfFolders : Z) (point_IDs : Z)
    (s : ReuseState) : option ReuseState :=
  r ← search_folders src (str point_IDs) (Z.to_nat numberOfFolders) 0 (result s);
  let result_line_number := fst r in
  let result_folder_number := snd r in
  let errs := if result_line_number <? 0
              then [print_error "{** FENICS ERROR **} Cannot find Point ID: "]
              else [] in
  h ← Hmatrix_dat src result_folder_number;
  oc ← copy_loop (result_line_number + 6) 0 h (Hmatrix_out s, numberOfCols s);
  Some {| result := Some r; Hmatrix_out := fst oc; numberOfCols := snd oc;
          errors := errors s ++ errs |}.

Fixpoint reuse_loop (src : SourceFiles) (numberOfFolders : Z) (ids : list Z)
    (s : ReuseState) : option ReuseState :=
  match ids with
  | [] => Some s
  | point_IDs :: rest =>
      s' ← reuse_point src numberOfFolders point_IDs s; reuse_loop src numberOfFolders rest s'
  end.

(** Lines 274-315, with [numberOfFolders] as read from [partitionSize.dat]
    (lines 267-272).  The local folder has just been made (line 260), so the
    local [Hmatrix.dat] starts empty.  Returns its lines, the text of
    [matrixSize.dat] and the error lines printed. *)
Definition reuse_matrix (src : SourceFiles) (numberOfFolders : Z)
    (point3dGlobalID : list Z) : option (list string * string * list Event) :=
  s ← reuse_loop src numberOfFolders point3dGlobalID
         {| result := None; Hmatrix_out := []; numberOfCols := -99; errors := [] |};
  let n := str (Z.of_nat (length point3dGlobalID)) in
  let c := str (numberOfCols s) in
  Some (Hmatrix_out s, (c ++ "," ++ n ++ ",0,0," ++ n ++ "," ++ c)%string, errors s).

Lemma prefix_app (s t : string) : String.prefix s (s ++ t) = true.
Proof.
  induction s as [|a s IH]; [by destruct t|]. cbn.
  by destruct (Ascii.ascii_dec a a).
Qed.

Lemma contains_prefix (needle hay : string) :
  String.prefix needle hay = true -> contains needle hay = true.
Proof. intros H. destruct hay; cbn [contains]; by rewrite H. Qed.

Lemma contains_app (s t : string) : contains s (s ++ t) = true.
Proof. apply contains_prefix, prefix_app. Qed.

(** The scan returns the first line that contains the needle. *)
Lemma scan_pointID_spec (needle : string) (f : Z) (lines : list string) :
  forall ln,
    (exists (k : nat) line,
        lines !! k = Some line /\ contains needle line = true /\
        (forall (j : nat) l, (j < k)%nat -> lines !! j = Some l -> contains needle l = false) /\
        scan_pointID needle f ln lines = (ln + 1 + Z.of_nat k, f)) \/
    (Forall (fun l => contains needle l = false) lines /\
     scan_pointID needle f ln lines = (-99, -99)).
Proof.
  induction lines as [|line rest IH]; intros ln; cbn [scan_pointID].
  - right. by split.
  - destruct (contains needle line) eqn:E.
    + left. exists O, line. split_and!; [done|done|intros; lia|f_equal; lia].
    + destruct (IH (ln + 1)) as [(k & l & Hk & Hl & Hmin & Hs)|[Hall Hs]].
      * left. exists (S k), l. split_and!; [done|done| |rewrite Hs; f_equal; lia].
        intros [|j] l' Hj Hl'; [by injection Hl' as <-|].
        apply (Hmin j); [lia|done].
      * right. split; [by constructor|done].
Qed.

(** The search over the folders stops at the first line, in folder order,
    that contains the needle. *)
Lemma search_folders_first (src : SourceFiles) (needle : string)
    (lines_of : Z -> list string) :
  forall (d n : nat) (iF : Z) (stale : option (Z * Z)) (j : nat) (line : string),
    (d < n)%nat -> 0 <= iF ->
    (forall g, iF <= g <= iF + Z.of_nat d -> pointID_dat src g = Some (lines_of g)) ->
    lines_of (iF + Z.of_nat d) !! j = Some line ->
    contains needle line = true ->
    exists (rf : Z) (k : nat) (l : string),
      search_folders src needle n iF stale = Some (Z.of_nat k, rf) /\
      iF <= rf <= iF + Z.of_nat d /\
      lines_of rf !! k = Some l /\ contains needle l = true /\
      (rf = iF + Z.of_nat d -> (k <= j)%nat).
Proof.
  induction d as [|d IH]; intros [|n] iF stale j line Hn HiF Hfiles Hj Hline; try lia;
    cbn [search_folders]; rewrite (Hfiles iF) by lia; cbn [mbind option_bind].
  - replace (iF + Z.of_nat 0) with iF in * by lia.
    destruct (scan_pointID_spec needle iF (lines_of iF) (-1))
      as [(k & l & Hk & Hl & Hmin & ->)|[Hall _]].
    + cbn [snd]. rewrite (proj2 (Z.leb_le 0 iF) HiF).
      exists iF, k, l. split_and!; [f_equal; f_equal; lia|lia|lia|done|done|].
      intros _. destruct (le_lt_dec k j) as [|Hlt]; [done|].
      rewrite (Hmin j line Hlt Hj) in Hline. discriminate.
    + rewrite Forall_forall in Hall. apply list_elem_of_lookup_2, list_elem_of_In in Hj.
      rewrite (Hall _ Hj) in Hline. discriminate.
  - destruct (scan_pointID_spec needle iF (lines_of iF) (-1))
      as [(k & l & Hk & Hl & Hmin & ->)|[Hall ->]].
    + cbn [snd]. rewrite (proj2 (Z.leb_le 0 iF) HiF).
      exists iF, k, l. split_and!; [f_equal; f_equal; lia|lia|lia|done|done|lia].
    + cbn [snd]. change (0 <=? -99) with false. cbv iota.
      replace (iF + Z.of_nat (S d)) with (iF + 1 + Z.of_nat d) in * by lia.
      destruct (IH n (iF + 1) (Some (-99, -99)) j line) as (rf & k & l & Hs & Hr & Hk & Hl & Hle);
        [lia|lia|intros g Hg; apply Hfiles; lia|done|done|].
      exists rf, k, l. split_and!; [done|lia|lia|done|done|done].
Qed.

Lemma write_pointID_lookup (ids : list Z) (k : nat) (l : string) :
  write_pointID ids !! k = Some l ->
  exists q, ids !! k = Some q /\ l = (str q ++ newline)%string.
Proof.
  unfold write_pointID. change (@map ?A ?B) with (@fmap list _ A B).
  rewrite list_lookup_fmap. destruct (ids !! k) as [q|]; [|done].
  intros [= <-]. by exists q.
Qed.

Lemma write_pointID_line (ids : list Z) (k : nat) (q : Z) :
  ids !! k = Some q -> write_pointID ids !! k = Some (str q ++ newline)%string.
Proof.
  intros H. unfold write_pointID. change (@map ?A ?B) with (@fmap list _ A B).
  by rewrite list_lookup_fmap, H.
Qed.

(** Past the target row the copy loop stops without writing. *)
Lemma copy_loop_past (target i : Z) (lines : list string) (s : list string * Z) :
  target < i -> copy_loop target i lines s = Some s.
Proof.
  intros H. destruct lines as [|line rest]; cbn [copy_loop]; [done|].
  rewrite (proj2 (Z.eqb_neq i target)) by lia.
  by rewrite (proj2 (Z.gtb_gt i target)) by lia.
Qed.

(** The copy loop appends the target row, when the stored matrix has it. *)
Lemma copy_loop_hit (target : Z) (lines : list string) :
  forall (i : Z) (s : list string * Z) (row w : string),
    i <= target ->
    lines !! Z.to_nat (target - i) = Some row ->
    with_newline row = Some w ->
    copy_loop target i lines s
    = Some (fst s ++ [w], if snd s <? 0 then split_length row else snd s).
Proof.
  induction lines as [|line rest IH]; intros i s row w Hi Hrow Hw; [done|].
  cbn [copy_loop]. destruct (Z.eqb_spec i target) as [->|Hne].
  - replace (target - target) with 0 in Hrow by lia. injection Hrow as ->.
    rewrite Hw. cbn [mbind option_bind]. apply copy_loop_past. lia.
  - rewrite Z.gtb_ltb, (proj2 (Z.ltb_ge target i)) by lia.
    apply IH; [lia| |done].
    replace (Z.to_nat (target - i)) with (S (Z.to_nat (target - (i + 1)))) in Hrow by lia.
    exact Hrow.
Qed.

(** X26. Round trip of the stored point IDs.  When the [pointID.dat] files
    of the folders up to [f] are as a previous run wrote them, the point ID
    [p] is on line [k] of folder [f], and the decimal digits of [p] occur
    in no line before that one (in an earlier folder, or earlier in folder
    [f]), then the iteration for [p] finds folder [f] and line [k], prints
    no error and appends row [k + 6] of that folder's stored matrix, with a
    line end, to the local matrix; the first row copied sets the column
    count. *)
Theorem reuse_point_round_trip (src : SourceFiles) (numberOfFolders : Z)
    (ids : Z -> list Z) (p f : Z) (k : nat) (s : ReuseState)
    (h : list string) (row w : string) :
  0 <= f < numberOfFolders ->
  (forall g, 0 <= g <= f -> pointID_dat src g = Some (write_pointID (ids g))) ->
  ids f !! k = Some p ->
  (forall g q, 0 <= g < f -> q ∈ ids g ->
               contains (str p) (str q ++ newline) = false) ->
  (forall (j : nat) q, (j < k)%nat -> ids f !! j = Some q ->
                       contains (str p) (str q ++ newline) = false) ->
  Hmatrix_dat src f = Some h ->
  h !! (k + 6)%nat = Some row ->
  with_newline row = Some w ->
  reuse_point src numberOfFolders p s
  = Some {| result := Some (Z.of_nat k, f);
            Hmatrix_out := Hmatrix_out s ++ [w];
            numberOfCols := if numberOfCols s <? 0 then split_length row
                            else numberOfCols s;
            errors := errors s |}.
Proof.
  intros Hf Hfiles Hp Hearlier Hbefore Hh Hrow Hw.
  destruct (search_folders_first src (str p) (fun g => write_pointID (ids g))
              (Z.to_nat f) (Z.to_nat numberOfFolders) 0 (result s) k
              (str p ++ newline)%string)
    as (rf & k' & l & Hs & Hr & Hk' & Hl & Hle).
  { lia. }
  { lia. }
  { intros g Hg. apply Hfiles. lia. }
  { replace (0 + Z.of_nat (Z.to_nat f)) with f by lia. by apply write_pointID_line. }
  { apply contains_app. }
  apply write_pointID_lookup in Hk' as (q & Hq & ->).
  assert (rf = f) as ->.
  { destruct (Z.eq_dec rf f) as [|Hne]; [done|].
    rewrite (Hearlier rf q) in Hl; [done|lia|by eapply list_elem_of_lookup_2]. }
  assert (k' = k) as ->.
  { specialize (Hle ltac:(lia)).
    destruct (decide (k' = k)) as [|Hne]; [done|].
    rewrite (Hbefore k' q) in Hl; [done|lia|done]. }
  unfold reuse_point. rewrite Hs. cbn [mbind option_bind fst snd].
  rewrite Hh. cbn [mbind option_bind].
  rewrite (copy_loop_hit _ h 0 _ row w); [| lia | | done].
  - cbn [mbind option_bind fst snd].
    rewrite (proj2 (Z.ltb_ge (Z.of_nat k) 0)) by lia. by rewrite app_nil_r.
  - replace (Z.to_nat (Z.of_nat k + 6 - 0)) with (k + 6)%nat by lia. done.
Qed.

Definition stored_files (ids : list Z) (matrix : list string) : SourceFiles :=
  {| pointID_dat := fun g => if g =? 0 then Some (write_pointID ids) else None;
     Hmatrix_dat := fun g => if g =? 0 then Some matrix else None |}.

Definition fresh_state : ReuseState :=
  {| result := None; Hmatrix_out := []; numberOfCols := -99; errors := [] |}.

Definition stored_matrix : list string :=
  ["h1"; "h2"; "h3"; "h4"; "h5"; "h6"; "1,2,3"; "4,5,6"]%string.

Lemma reuse_point_round_trip_witness :
  reuse_point (stored_files [7; 12] stored_matrix) 1 12 fresh_state
  = Some {| result := Some (1, 0); Hmatrix_out := ["4,5,6" ++ newline]%string;
            numberOfCols := 3; errors := [] |}.
Proof.
  apply (reuse_point_round_trip (stored_files [7; 12] stored_matrix) 1
           (fun _ => [7; 12]) 12 0 1%nat fresh_state stored_matrix "4,5,6"%string).
  - lia.
  - intros g Hg. replace g with 0 by lia. reflexivity.
  - reflexivity.
  - intros g q Hg. lia.
  - intros [|j] q Hj; [|lia]. intros [= <-]. reflexivity.
  - reflexivity.
  - reflexivity.
  - reflexivity.
Defined.

(** X27. The search matches by substring: when the decimal digits of the
    point ID [p] occur in a line that comes before the line of [p] itself
    (in an earlier folder, or earlier in the same folder), the search
    returns a line before that of [p], so the row copied for [p] is not its
    own. *)
Theorem search_folders_collision (src : SourceFiles) (numberOfFolders : Z)
    (ids : Z -> list Z) (p q f g : Z) (k j : nat) (stale : option (Z * Z)) :
  0 <= g <= f -> f < numberOfFolders ->
  (forall g', 0 <= g' <= g -> pointID_dat src g' = Some (write_pointID (ids g'))) ->
  ids f !! k = Some p ->
  ids g !! j = Some q ->
  g < f \/ (j < k)%nat ->
  contains (str p) (str q ++ newline) = true ->
  exists (rf : Z) (k' : nat) (q' : Z),
    search_folders src (str p) (Z.to_nat numberOfFolders) 0 stale = Some (Z.of_nat k', rf) /\
    (rf < f \/ (rf = f /\ (k' < k)%nat)) /\
    ids rf !! k' = Some q' /\ contains (str p) (str q' ++ newline) = true.
Proof.
  intros Hg Hf Hfiles Hp Hq Hpos Hc.
  destruct (search_folders_first src (str p) (fun g => write_pointID (ids g))
              (Z.to_nat g) (Z.to_nat numberOfFolders) 0 stale j
              (str q ++ newline)%string)
    as (rf & k' & l & Hs & Hr & Hk' & Hl & Hle).
  { lia. }
  { lia. }
  { intros g' Hg'. apply Hfiles. lia. }
  { replace (0 + Z.of_nat (Z.to_nat g)) with g by lia. by apply write_pointID_line. }
  { exact Hc. }
  apply write_pointID_lookup in Hk' as (q' & Hq' & ->).
  exists rf, k', q'. split_and!; [done| |done|done].
  destruct (Z.eq_dec rf g) as [->|Hne]; [|lia].
  specialize (Hle ltac:(lia)). lia.
Qed.

Lemma search_folders_collision_witness :
  exists (rf : Z) (k' : nat) (q' : Z),
    search_folders (stored_files [10; 1] stored_matrix) (str 1) (Z.to_nat 1) 0 None
    = Some (Z.of_nat k', rf) /\
    (rf < 0 \/ (rf = 0 /\ (k' < 1)%nat)) /\
    [10; 1] !! k' = Some q' /\ contains (str 1) (str q' ++ newline) = true.
Proof.
  apply (search_folders_collision (stored_files [10; 1] stored_matrix) 1
           (fun _ => [10; 1]) 1 10 0 0 1%nat 0%nat None).
  - lia.
  - lia.
  - intros g Hg. replace g with 0 by lia. reflexivity.
  - reflexivity.
  - reflexivity.
  - right. lia.
  - reflexivity.
Defined.

(** X28. With a folder count that is zero or negative, the search loop is
    never entered and its result variables are read unbound: for a
    non-empty list of point IDs the reuse of a stored matrix raises. *)
Theorem reuse_matrix_no_folders (src : SourceFiles) (numberOfFolders : Z)
    (point3dGlobalID : list Z) :
  numberOfFolders <= 0 ->
  point3dGlobalID <> [] ->
  reuse_matrix src numberOfFolders point3dGlobalID = None.
Proof.
  intros Hn Hne. destruct point3dGlobalID as [|p rest]; [done|].
  unfold reuse_matrix, reuse_point. cbn [reuse_loop].
  unfold reuse_point. replace (Z.to_nat numberOfFolders) with O by lia.
  reflexivity.
Qed.

Lemma reuse_matrix_no_folders_witness :
  reuse_matrix (stored_files [7; 12] stored_matrix) 0 [12] = None.
Proof.
  apply (reuse_matrix_no_folders (stored_files [7; 12] stored_matrix) 0 [12]).
  - lia.
  - discriminate.
Defined.

(** A bound result line number is a line index or the initial -99. *)
Definition result_ok (r : option (Z * Z)) : Prop :=
  match r with None => True | Some (rl, _) => 0 <= rl \/ rl = -99 end.

Lemma search_folders_result (src : SourceFiles) (needle : string) :
  forall (n : nat) (iF : Z) (stale r : option (Z * Z)),
    result_ok stale ->
    search_folders src needle n iF stale = r -> result_ok r.
Proof.
  induction n as [|n IH]; intros iF stale r Hst; cbn [search_folders]; [by intros <-|].
  destruct (pointID_dat src iF) as [lines|]; cbn [mbind option_bind]; [|by intros <-].
  assert (Hscan : result_ok (Some (scan_pointID needle iF (-1) lines))).
  { destruct (scan_pointID_spec needle iF lines (-1)) as [(k & l & _ & _ & _ & ->)|[_ ->]];
      cbn; lia. }
  destruct (0 <=? snd _); [by intros <-|]. by apply IH.
Qed.

Lemma copy_loop_rows (target : Z) (lines : list string) :
  forall (i : Z) (s s' : list string * Z),
    copy_loop target i lines s = Some s' ->
    (length (fst s') <= length (fst s) + 1)%nat.
Proof.
  induction lines as [|line rest IH]; intros i s s'; cbn [copy_loop].
  - intros [= <-]. lia.
  - destruct (Z.eqb_spec i target) as [->|Hne].
    + destruct (with_newline line) as [w|]; cbn [mbind option_bind]; [|done].
      rewrite copy_loop_past by lia. intros [= <-]. cbn [fst]. rewrite length_app. cbn. lia.
    + destruct (i >? target); [intros [= <-]; lia|apply IH].
Qed.

Lemma reuse_point_rows (src : SourceFiles) (numberOfFolders p : Z) (s s' : ReuseState) :
  result_ok (result s) ->
  reuse_point src numberOfFolders p s = Some s' ->
  result_ok (result s') /\
  (length (Hmatrix_out s') + length (errors s')
   <= length (Hmatrix_out s) + length (errors s) + 1)%nat.
Proof.
  intros Hok. unfold reuse_point.
  destruct (search_folders _ _ _ _ _) as [[rl rf]|] eqn:Hs; cbn [mbind option_bind]; [|done].
  pose proof (search_folders_result _ _ _ _ _ _ Hok Hs) as Hr.
  cbn [fst snd]. destruct (Hmatrix_dat src rf) as [h|]; cbn [mbind option_bind]; [|done].
  destruct (Z.ltb_spec rl 0) as [Hneg|Hpos].
  - rewrite copy_loop_past by (cbn in Hr; lia). cbn [mbind option_bind].
    intros [= <-]. cbn [result Hmatrix_out errors fst]. split; [done|].
    rewrite length_app. cbn. lia.
  - destruct (copy_loop _ _ _ _) as [oc|] eqn:Hc; cbn [mbind option_bind]; [|done].
    apply copy_loop_rows in Hc. cbn [fst] in Hc.
    intros [= <-]. cbn [result Hmatrix_out errors]. split; [done|].
    rewrite app_nil_r. lia.
Qed.

Lemma reuse_loop_rows (src : SourceFiles) (numberOfFolders : Z) (ids : list Z) :
  forall s s',
    result_ok (result s) ->
    reuse_loop src numberOfFolders ids s = Some s' ->
    (length (Hmatrix_out s') + length (errors s')
     <= length (Hmatrix_out s) + length (errors s) + length ids)%nat.
Proof.
  induction ids as [|p rest IH]; intros s s' Hok; cbn [reuse_loop].
  - intros [= <-]. lia.
  - destruct (reuse_point src numberOfFolders p s) as [s1|] eqn:E;
      cbn [mbind option_bind]; [|done].
    destruct (reuse_point_rows _ _ _ _ _ Hok E) as [Hok1 H1].
    intros Hrest. specialize (IH _ _ Hok1 Hrest). cbn [length]. lia.
Qed.

(** X29. [matrixSize.dat] always declares one row per point ID, but a
    returning reuse copies at most one row per point and none for a point
    whose ID it reports as not found: the rows of the local matrix and the
    error lines together are at most the number of point IDs, so after any
    error line the local matrix has fewer rows than declared. *)
Theorem reuse_matrix_rows (src : SourceFiles) (numberOfFolders : Z)
    (point3dGlobalID : list Z) (rows : list string) (size : string)
    (errs : list Event) :
  reuse_matrix src numberOfFolders point3dGlobalID = Some (rows, size, errs) ->
  (length rows + length errs <= length point3dGlobalID)%nat /\
  exists cols,
    size = (str cols ++ "," ++ str (Z.of_nat (length point3dGlobalID)) ++ ",0,0,"
            ++ str (Z.of_nat (length point3dGlobalID)) ++ "," ++ str cols)%string.
Proof.
  unfold reuse_matrix.
  destruct (reuse_loop _ _ _ _) as [s|] eqn:E; cbn [mbind option_bind]; [|done].
  intros [= <- <- <-]. split; [|by eexists].
  apply reuse_loop_rows in E; [|done]. cbn [Hmatrix_out errors length] in E. lia.
Qed.

Lemma reuse_matrix_rows_witness :
  exists rows size errs,
    reuse_matrix (stored_files [7; 12] stored_matrix) 1 [12; 7] = Some (rows, size, errs) /\
    (length rows + length errs <= 2)%nat.
Proof.
  assert (Hrun : exists rows size errs,
            reuse_matrix (stored_files [7; 12] stored_matrix) 1 [12; 7]
            = Some (rows, size, errs)) by (vm_compute; eauto).
  destruct Hrun as (rows & size & errs & Hrun). exists rows, size, errs.
  split; [exact Hrun|].
  exact (proj1 (reuse_matrix_rows _ _ _ _ _ _ Hrun)).
Defined.

Local Close Scope Z_scope.

(** * Span set-up over float coordinates ([MUI_Sampler_Define], lines 117-250) *)

(** A coordinate as the span set-up reads it: a finite [float64], or NaN,
    with which every comparison is false. *)
Inductive coord : Type := Num (x : R) | NaN.

Record FVec3 : Type := FV3 { fx : coord; fy : coord; fz : coord }.

(** [if (c < bound): bound = c], the bound afterwards. *)
Definition lower (c : coord) (bound : R) : R :=
  match c with
  | Num x => if Rlt_dec x bound then x else bound
  | NaN => bound
  end.

(** [if (c > bound): bound = c], the bound afterwards. *)
Definition raise (c : coord) (bound : R) : R :=
  match c with
  | Num x => if Rgt_dec x bound then x else bound
  | NaN => bound
  end.

(** Lines 131-147 (and 188-204): the six comparisons for one point. *)
Definition span_update_float (b : Vec3 * Vec3) (x : FVec3) : Vec3 * Vec3 :=
  let '(lo, hi) := b in
  (V3 (lower (fx x) (vx lo)) (lower (fy x) (vy lo)) (lower (fz x) (vz lo)),
   V3 (raise (fx x) (vx hi)) (raise (fy x) (vy hi)) (raise (fz x) (vz hi))).

(** Lines 130-147: the loop over the push DOFs. *)
Fixpoint send_loop_float (dofs_to_xyz : list FVec3) (l : list nat) (b : Vec3 * Vec3)
    : option (Vec3 * Vec3) :=
  match l with
  | [] => Some b
  | p :: l' => x ← dofs_to_xyz !! p; send_loop_float dofs_to_xyz l' (span_update_float b x)
  end.

(** [a == b] on floats. *)
Definition coord_eqb (a b : coord) : bool :=
  match a, b with
  | Num x, Num y => if Req_dec_T x y then true else false
  | _, _ => false
  end.

(** Lines 210-216: the index of the first point of [xyz_fetch] equal to
    [x], or -999. *)
Fixpoint find_point_float (xyz_fetch : list FVec3) (x : FVec3) (ii : Z) : Z :=
  match xyz_fetch with
  | [] => (-999)%Z
  | pp :: rest =>
      if coord_eqb (fx pp) (fx x) then
        if coord_eqb (fy pp) (fy x) then
          if coord_eqb (fz pp) (fz x) then ii
          else find_point_float rest x (ii + 1)
        else find_point_float rest x (ii + 1)
      else find_point_float rest x (ii + 1)
  end.

(** The state of the loop over the fetch DOFs (lines 187-224). *)
Record RecvStateFloat : Type := {
  recv_box_float : Vec3 * Vec3;
  recv_log_float : list Event;
  point3dList_float : list FVec3;
  point3dGlobalID_float : list Z
}.

Fixpoint recv_loop_float (dofs_to_xyz xyz_fetch : list FVec3) (l : list nat)
    (s : RecvStateFloat) : option RecvStateFloat :=
  match l with
  | [] => Some s
  | p :: l' =>
      x ← dofs_to_xyz !! p;
      let point_ID := find_point_float xyz_fetch x 0 in
      recv_loop_float dofs_to_xyz xyz_fetch l'
        {| recv_box_float := span_update_float (recv_box_float s) x;
           recv_log_float := recv_log_float s ++
             (if (point_ID <? 0)%Z
              then [print_error "{** FENICS ERROR **} cannot find point: "] else []);
           point3dList_float := point3dList_float s ++ [x];
           point3dGlobalID_float := point3dGlobalID_float s ++ [point_ID] |}
  end.

(** The part of [MUI_Sampler_Define] that announces the spans (lines
    117-250), on coordinates that may be NaN. *)
Definition MUI_Sampler_Define_spans_float (cfg : Config) (dofs_to_xyz : list FVec3)
    (dofs_fetch_list dofs_push_list : list nat) (xyz_fetch : list FVec3)
    (Total_Time_Steps : Z) : option (list Event * list FVec3 * list Z) :=
  if iMUICoupling cfg then
    let synchronised := false in
    send ← send_loop_float dofs_to_xyz dofs_push_list span_init;
    let send_events :=
      span_errors "{** FENICS ERROR **} send_max_X: "
                  "{** FENICS ERROR **} send_max_Y: "
                  "{** FENICS ERROR **} send_max_Z: " send ++
      (if negb (length dofs_push_list =? 0)%nat
       then [announce_send_span 0 (Total_Time_Steps * num_sub_iteration cfg)
               (fst send) (snd send) synchronised]
       else []) in
    s ← recv_loop_float dofs_to_xyz xyz_fetch dofs_fetch_list
          {| recv_box_float := span_init; recv_log_float := [];
             point3dList_float := []; point3dGlobalID_float := [] |};
    let recv_events :=
      recv_log_float s ++
      span_errors "{** FENICS ERROR **} recv_max_X: "
                  "{** FENICS ERROR **} recv_max_Y: "
                  "{** FENICS ERROR **} recv_max_Z: " (recv_box_float s) ++
      (if negb (length dofs_fetch_list =? 0)%nat
       then [announce_recv_span 0 (Total_Time_Steps * num_sub_iteration cfg * 10)
               (fst (recv_box_float s)) (snd (recv_box_float s)) synchronised]
       else []) in
    Some (send_events ++ recv_events, point3dList_float s, point3dGlobalID_float s)
  else Some ([], [], []).

(** ** What an announced span is *)

(** A finite [float64] lies between [-float_max] and [float_max]. *)
Definition finite_coord (c : coord) : Prop :=
  match c with Num x => - float_max <= x <= float_max | NaN => True end.

Definition finite_point (p : FVec3) : Prop :=
  finite_coord (fx p) /\ finite_coord (fy p) /\ finite_coord (fz p).

(** The numbers among the coordinates of the points on one axis. *)
Definition axis_numbers (axis : FVec3 -> coord) (pts : list FVec3) : list R :=
  omap (fun p => match axis p with Num x => Some x | NaN => None end) pts.

(** [lo] and [hi] bound the numbers [xs] tightly: each is one of them and
    every number lies between them.  With no number at all the bounds are
    the inverted pair [float_max], [-float_max]. *)
Definition axis_bounds (xs : list R) (lo hi : R) : Prop :=
  (xs = [] -> lo = float_max /\ hi = - float_max) /\
  (xs <> [] -> lo ∈ xs /\ hi ∈ xs /\ Forall (fun x => lo <= x <= hi) xs).

(** The axis-aligned bounding box of the points: tight bounds on each axis. *)
Definition is_bounding_box (pts : list FVec3) (lo hi : Vec3) : Prop :=
  axis_bounds (axis_numbers fx pts) (vx lo) (vx hi) /\
  axis_bounds (axis_numbers fy pts) (vy lo) (vy hi) /\
  axis_bounds (axis_numbers fz pts) (vz lo) (vz hi).

(** One error line for each degenerate axis, on which the points have no
    number and the box is inverted. *)
Definition degenerate_lines (eX eY eZ : string) (pts : list FVec3) : list Event :=
  (match axis_numbers fx pts with [] => [print_error eX] | _ => [] end) ++
  (match axis_numbers fy pts with [] => [print_error eY] | _ => [] end) ++
  (match axis_numbers fz pts with [] => [print_error eZ] | _ => [] end).

Lemma axis_bounds_step (seen : list R) (lo hi : R) (c : coord) :
  finite_coord c ->
  axis_bounds seen lo hi ->
  axis_bounds (seen ++ match c with Num x => [x] | NaN => [] end) (lower c lo) (raise c hi).
Proof.
  intros Hfin [Hnil Hcons]. destruct c as [x|]; [|by rewrite app_nil_r].
  cbn [lower raise finite_coord] in *. split.
  - intros E. by apply app_eq_nil in E as [_ ?].
  - intros _. destruct seen as [|y ys].
    + destruct (Hnil eq_refl) as [-> ->]. cbn [app].
      destruct (Rlt_dec x float_max), (Rgt_dec x (- float_max));
        (split_and!; [apply list_elem_of_singleton; lra
                     |apply list_elem_of_singleton; lra
                     |apply Forall_cons; [lra|apply Forall_nil]]).
    + destruct (Hcons ltac:(done)) as (Hlo & Hhi & Hall).
      assert (Hle : lo <= hi).
      { rewrite Forall_forall in Hall. apply list_elem_of_In in Hlo.
        specialize (Hall _ Hlo). lra. }
      split_and!.
      * destruct (Rlt_dec x lo); [|by apply elem_of_app; left].
        apply elem_of_app. right. by apply list_elem_of_singleton.
      * destruct (Rgt_dec x hi); [|by apply elem_of_app; left].
        apply elem_of_app. right. by apply list_elem_of_singleton.
      * apply Forall_app. split.
        -- eapply Forall_impl; [|exact Hall]. cbv beta. intros z Hz.
           destruct (Rlt_dec x lo), (Rgt_dec x hi); lra.
        -- apply Forall_cons; [|apply Forall_nil].
           destruct (Rlt_dec x lo), (Rgt_dec x hi); lra.
Qed.

Lemma axis_numbers_snoc (axis : FVec3 -> coord) (seen : list FVec3) (p : FVec3) :
  axis_numbers axis (seen ++ [p])
  = axis_numbers axis seen ++ match axis p with Num x => [x] | NaN => [] end.
Proof.
  unfold axis_numbers. rewrite omap_app. f_equal. cbn. by destruct (axis p).
Qed.

Lemma span_update_bounding (seen : list FVec3) (b : Vec3 * Vec3) (p : FVec3) :
  finite_point p ->
  is_bounding_box seen (fst b) (snd b) ->
  is_bounding_box (seen ++ [p]) (fst (span_update_float b p)) (snd (span_update_float b p)).
Proof.
  intros (Fx & Fy & Fz) (Bx & By & Bz). destruct b as [lo hi].
  unfold is_bounding_box, span_update_float. cbn [fst snd vx vy vz] in *.
  rewrite !axis_numbers_snoc. split_and!; by apply axis_bounds_step.
Qed.

(** The loops compute the bounding box of the points they visit. *)
Lemma span_fold_bounding (pts : list FVec3) :
  forall (seen : list FVec3) (b : Vec3 * Vec3),
    Forall finite_point pts ->
    is_bounding_box seen (fst b) (snd b) ->
    is_bounding_box (seen ++ pts) (fst (foldl span_update_float b pts))
                    (snd (foldl span_update_float b pts)).
Proof.
  induction pts as [|p pts IH]; intros seen b Hfin Hb; cbn [foldl].
  - by rewrite app_nil_r.
  - rewrite cons_middle, app_assoc. apply IH; [by eapply Forall_inv_tail|].
    apply span_update_bounding; [by eapply Forall_inv|done].
Qed.

Lemma span_init_bounding : is_bounding_box [] (fst span_init) (snd span_init).
Proof.
  unfold is_bounding_box, axis_bounds, span_init. cbn [fst snd vx vy vz axis_numbers omap].
  by split_and!.
Qed.

Lemma axis_error_line (xs : list R) (lo hi : R) (e : string) :
  axis_bounds xs lo hi ->
  (if Rlt_dec hi lo then [print_error e] else [])
  = match xs with [] => [print_error e] | _ => [] end.
Proof.
  intros [Hnil Hcons]. pose proof float_max_pos as Hpos. destruct xs as [|x xs].
  - destruct (Hnil eq_refl) as [-> ->]. destruct (Rlt_dec (- float_max) float_max); [done|lra].
  - destruct (Hcons ltac:(done)) as (Hlo & _ & Hall).
    rewrite Forall_forall in Hall. apply list_elem_of_In in Hlo. specialize (Hall _ Hlo).
    destruct (Rlt_dec hi lo); [lra|done].
Qed.

(** The error lines printed are those of the degenerate axes. *)
Lemma span_errors_degenerate (eX eY eZ : string) (pts : list FVec3) (b : Vec3 * Vec3) :
  is_bounding_box pts (fst b) (snd b) ->
  span_errors eX eY eZ b = degenerate_lines eX eY eZ pts.
Proof.
  intros (Bx & By & Bz). destruct b as [lo hi]. unfold span_errors, degenerate_lines.
  cbn [fst snd] in *.
  by rewrite (axis_error_line _ _ _ eX Bx), (axis_error_line _ _ _ eY By),
    (axis_error_line _ _ _ eZ Bz).
Qed.

Lemma send_loop_float_box (dofs_to_xyz : list FVec3) (l : list nat) :
  Forall (fun p => (p < length dofs_to_xyz)%nat) l ->
  forall b, exists pts,
    mapM (fun p => dofs_to_xyz !! p) l = Some pts /\
    send_loop_float dofs_to_xyz l b = Some (foldl span_update_float b pts).
Proof.
  induction 1 as [|p l Hp _ IH]; intros b.
  - by exists [].
  - destruct (lookup_lt_is_Some_2 dofs_to_xyz p Hp) as [x Hx].
    destruct (IH (span_update_float b x)) as (pts & Hpts & Hloop).
    exists (x :: pts). cbn [send_loop_float mapM]. rewrite Hx. simpl.
    split; [by rewrite Hpts | exact Hloop].
Qed.

Lemma recv_loop_float_box (dofs_to_xyz xyz_fetch : list FVec3) (l : list nat) :
  Forall (fun p => (p < length dofs_to_xyz)%nat) l ->
  forall s, Forall (fun e => is_print_error e = true) (recv_log_float s) ->
  exists pts s',
    mapM (fun p => dofs_to_xyz !! p) l = Some pts /\
    recv_loop_float dofs_to_xyz xyz_fetch l s = Some s' /\
    recv_box_float s' = foldl span_update_float (recv_box_float s) pts /\
    Forall (fun e => is_print_error e = true) (recv_log_float s') /\
    point3dList_float s' = point3dList_float s ++ pts.
Proof.
  induction 1 as [|p l Hp _ IH]; intros s Hlog.
  - exists [], s. by rewrite app_nil_r.
  - destruct (lookup_lt_is_Some_2 dofs_to_xyz p Hp) as [x Hx].
    cbn [recv_loop_float mapM]. rewrite Hx. simpl.
    edestruct IH as (pts & s' & Hpts & Hloop & Hbox & Hlog' & Hlist);
      [|exists (x :: pts), s'; rewrite Hpts; repeat split; [exact Hloop|..]].
    + simpl. apply Forall_app. split; [exact Hlog|].
      destruct (find_point_float xyz_fetch x 0 <? 0)%Z; by repeat constructor.
    + exact Hbox.
    + exact Hlog'.
    + rewrite Hlist. simpl. by rewrite <- app_assoc.
Qed.

Lemma mapM_lookup_finite (dofs_to_xyz : list FVec3) (l : list nat) (pts : list FVec3) :
  Forall finite_point dofs_to_xyz ->
  mapM (fun p => dofs_to_xyz !! p) l = Some pts -> Forall finite_point pts.
Proof.
  intros Hfin Hm. apply mapM_Some in Hm. rewrite Forall_forall in Hfin.
  induction Hm as [|p x l pts Hx _ IH]; constructor; [|exact IH].
  apply Hfin, list_elem_of_In. by eapply list_elem_of_lookup_2.
Qed.

(** ** The float model restricted to numbers is the real one *)

Definition numeric (v : Vec3) : FVec3 := FV3 (Num (vx v)) (Num (vy v)) (Num (vz v)).

Lemma span_update_numeric (b : Vec3 * Vec3) (x : Vec3) :
  span_update_float b (numeric x) = span_update b x.
Proof. by destruct b. Qed.

Lemma find_point_numeric (xyz_fetch : list Vec3) (x : Vec3) :
  forall ii, find_point_float (map numeric xyz_fetch) (numeric x) ii
             = find_point xyz_fetch x ii.
Proof.
  induction xyz_fetch as [|pp rest IH]; intros ii; [done|].
  cbn [map find_point_float find_point numeric fx fy fz coord_eqb].
  rewrite !IH.
  by destruct (Req_dec_T (vx pp) (vx x)), (Req_dec_T (vy pp) (vy x)),
    (Req_dec_T (vz pp) (vz x)).
Qed.

Lemma lookup_numeric (dofs_to_xyz : list Vec3) (p : nat) :
  map numeric dofs_to_xyz !! p = numeric <$> dofs_to_xyz !! p.
Proof. change (@map ?A ?B) with (@fmap list _ A B). apply list_lookup_fmap. Qed.

Lemma send_loop_numeric (dofs_to_xyz : list Vec3) (l : list nat) :
  forall b, send_loop_float (map numeric dofs_to_xyz) l b = send_loop dofs_to_xyz l b.
Proof.
  induction l as [|p l IH]; intros b; [done|].
  cbn [send_loop_float send_loop]. rewrite lookup_numeric.
  destruct (dofs_to_xyz !! p) as [x|]; [|done]. cbn [fmap option_fmap option_map mbind option_bind].
  by rewrite span_update_numeric.
Qed.

(** The float state that stands for a state of the real model. *)
Definition numeric_state (s : RecvState) : RecvStateFloat :=
  {| recv_box_float := recv_box s; recv_log_float := recv_log s;
     point3dList_float := map numeric (point3dList s);
     point3dGlobalID_float := point3dGlobalID s |}.

Lemma recv_loop_numeric (dofs_to_xyz xyz_fetch : list Vec3) (l : list nat) :
  forall s,
    recv_loop_float (map numeric dofs_to_xyz) (map numeric xyz_fetch) l (numeric_state s)
    = numeric_state <$> recv_loop dofs_to_xyz xyz_fetch l s.
Proof.
  induction l as [|p l IH]; intros s; [done|].
  cbn [recv_loop_float recv_loop]. rewrite lookup_numeric.
  destruct (dofs_to_xyz !! p) as [x|]; [|done].
  cbn [fmap option_fmap option_map mbind option_bind].
  rewrite <- IH. f_equal. unfold numeric_state.
  cbn [recv_box recv_log point3dList point3dGlobalID recv_box_float recv_log_float
       point3dList_float point3dGlobalID_float].
  by rewrite span_update_numeric, find_point_numeric, map_app.
Qed.

(** On coordinates that are all numbers the float model runs as the real
    one does. *)
Lemma MUI_Sampler_Define_spans_numeric (cfg : Config) (dofs_to_xyz : list Vec3)
    (dofs_fetch_list dofs_push_list : list nat) (xyz_fetch : list Vec3)
    (Total_Time_Steps : Z) :
  MUI_Sampler_Define_spans_float cfg (map numeric dofs_to_xyz) dofs_fetch_list
    dofs_push_list (map numeric xyz_fetch) Total_Time_Steps
  = (fun r => (fst (fst r), map numeric (snd (fst r)), snd r))
      <$> MUI_Sampler_Define_spans cfg dofs_to_xyz dofs_fetch_list dofs_push_list
            xyz_fetch Total_Time_Steps.
Proof.
  unfold MUI_Sampler_Define_spans_float, MUI_Sampler_Define_spans.
  destruct (iMUICoupling cfg); [|done].
  rewrite send_loop_numeric.
  destruct (send_loop dofs_to_xyz dofs_push_list span_init) as [send|]; [|done].
  cbn [mbind option_bind].
  pose proof (recv_loop_numeric dofs_to_xyz xyz_fetch dofs_fetch_list
                {| recv_box := span_init; recv_log := []; point3dList := [];
                   point3dGlobalID := [] |}) as E.
  unfold numeric_state in E at 1. cbn [recv_box recv_log point3dList point3dGlobalID map] in E.
  rewrite E.
  by destruct (recv_loop dofs_to_xyz xyz_fetch dofs_fetch_list _) as [s|].
Qed.

(** C10. With coupling on, finite or NaN coordinates and the DOF indices in
    range, the span set-up returns, and its calls are: the error lines of
    the send box, the send announcement, the lookup error lines, the error
    lines of the receive box, the receive announcement.  For an empty push
    set no send span is announced and for an empty fetch set no receive
    span.  For a non-empty set exactly one span is announced, and it is the
    axis-aligned bounding box of the set's coordinates: on each axis its
    bounds are the least and the greatest number among them.  An axis on
    which the set has no number (possible only with NaN coordinates) is
    degenerate: one error line is printed for it and the span is announced
    all the same, with the inverted bounds [float_max], [-float_max] as
    computed. *)
Theorem spans_announced (cfg : Config) (dofs_to_xyz : list FVec3)
    (dofs_fetch_list dofs_push_list : list nat) (xyz_fetch : list FVec3)
    (Total_Time_Steps : Z) :
  iMUICoupling cfg = true ->
  Forall finite_point dofs_to_xyz ->
  Forall (fun p => (p < length dofs_to_xyz)%nat) dofs_push_list ->
  Forall (fun p => (p < length dofs_to_xyz)%nat) dofs_fetch_list ->
  exists tr pts ids send_pts recv_pts lookup_errors send_span recv_span,
    MUI_Sampler_Define_spans_float cfg dofs_to_xyz dofs_fetch_list dofs_push_list
      xyz_fetch Total_Time_Steps = Some (tr, pts, ids) /\
    mapM (fun p => dofs_to_xyz !! p) dofs_push_list = Some send_pts /\
    mapM (fun p => dofs_to_xyz !! p) dofs_fetch_list = Some recv_pts /\
    Forall (fun e => is_print_error e = true) lookup_errors /\
    tr = (degenerate_lines "{** FENICS ERROR **} send_max_X: "
                           "{** FENICS ERROR **} send_max_Y: "
                           "{** FENICS ERROR **} send_max_Z: " send_pts
          ++ send_span)
         ++ lookup_errors
         ++ degenerate_lines "{** FENICS ERROR **} recv_max_X: "
                             "{** FENICS ERROR **} recv_max_Y: "
                             "{** FENICS ERROR **} recv_max_Z: " recv_pts
         ++ recv_span /\
    send_announcements tr = send_span /\
    recv_announcements tr = recv_span /\
    (if decide (dofs_push_list = []) then send_span = []
     else exists lo hi,
         send_span = [announce_send_span 0 (Total_Time_Steps * num_sub_iteration cfg)
                        lo hi false] /\
         is_bounding_box send_pts lo hi) /\
    (if decide (dofs_fetch_list = []) then recv_span = []
     else exists lo hi,
         recv_span = [announce_recv_span 0 (Total_Time_Steps * num_sub_iteration cfg * 10)
                        lo hi false] /\
         is_bounding_box recv_pts lo hi).
Proof.
  intros Hon Hfin Hpush Hfetch. unfold MUI_Sampler_Define_spans_float. rewrite Hon.
  destruct (send_loop_float_box dofs_to_xyz dofs_push_list Hpush span_init)
    as (send_pts & Hsend & ->). cbn [mbind option_bind].
  destruct (recv_loop_float_box dofs_to_xyz xyz_fetch dofs_fetch_list Hfetch
              {| recv_box_float := span_init; recv_log_float := [];
                 point3dList_float := []; point3dGlobalID_float := [] |})
    as (recv_pts & s & Hrecv & -> & Hbox & Hlog & Hlist); [constructor|].
  cbn [mbind option_bind]. cbn [recv_box_float] in Hbox. rewrite Hbox.
  pose proof (span_fold_bounding send_pts [] span_init
                (mapM_lookup_finite _ _ _ Hfin Hsend) span_init_bounding) as Bs.
  pose proof (span_fold_bounding recv_pts [] span_init
                (mapM_lookup_finite _ _ _ Hfin Hrecv) span_init_bounding) as Br.
  cbn [app] in Bs, Br.
  rewrite (span_errors_degenerate _ _ _ send_pts _ Bs),
    (span_errors_degenerate _ _ _ recv_pts _ Br).
  rewrite !length_eqb_nil.
  set (sb := foldl span_update_float span_init send_pts) in *.
  set (rb := foldl span_update_float span_init recv_pts) in *.
  set (send_span := if decide (dofs_push_list = []) then []
                    else [announce_send_span 0 (Total_Time_Steps * num_sub_iteration cfg)
                            (fst sb) (snd sb) false]).
  set (recv_span := if decide (dofs_fetch_list = []) then []
                    else [announce_recv_span 0
                            (Total_Time_Steps * num_sub_iteration cfg * 10)
                            (fst rb) (snd rb) false]).
  assert (Eds : Forall (fun e => is_print_error e = true)
                  (degenerate_lines "{** FENICS ERROR **} send_max_X: "
                     "{** FENICS ERROR **} send_max_Y: "
                     "{** FENICS ERROR **} send_max_Z: " send_pts)).
  { rewrite <- (span_errors_degenerate _ _ _ send_pts _ Bs). apply span_errors_are_errors. }
  assert (Edr : Forall (fun e => is_print_error e = true)
                  (degenerate_lines "{** FENICS ERROR **} recv_max_X: "
                     "{** FENICS ERROR **} recv_max_Y: "
                     "{** FENICS ERROR **} recv_max_Z: " recv_pts)).
  { rewrite <- (span_errors_degenerate _ _ _ recv_pts _ Br). apply span_errors_are_errors. }
  exists ((degenerate_lines "{** FENICS ERROR **} send_max_X: "
             "{** FENICS ERROR **} send_max_Y: "
             "{** FENICS ERROR **} send_max_Z: " send_pts ++ send_span)
          ++ recv_log_float s
          ++ degenerate_lines "{** FENICS ERROR **} recv_max_X: "
               "{** FENICS ERROR **} recv_max_Y: "
               "{** FENICS ERROR **} recv_max_Z: " recv_pts ++ recv_span),
    (point3dList_float s), (point3dGlobalID_float s), send_pts, recv_pts,
    (recv_log_float s), send_span, recv_span.
  split_and!; [subst send_span recv_span;
               by destruct (decide (dofs_push_list = [])),
                    (decide (dofs_fetch_list = []))
              |done|done|done|done| | | |].
  - unfold send_announcements. rewrite !omap_app.
    fold (send_announcements (recv_log_float s)).
    rewrite (send_announcements_errors _ Hlog).
    pose proof (send_announcements_errors _ Eds) as E1.
    pose proof (send_announcements_errors _ Edr) as E2.
    unfold send_announcements in E1, E2. rewrite E1, E2.
    subst send_span recv_span.
    by destruct (decide (dofs_push_list = [])), (decide (dofs_fetch_list = [])).
  - unfold recv_announcements. rewrite !omap_app.
    fold (recv_announcements (recv_log_float s)).
    rewrite (recv_announcements_errors _ Hlog).
    pose proof (recv_announcements_errors _ Eds) as E1.
    pose proof (recv_announcements_errors _ Edr) as E2.
    unfold recv_announcements in E1, E2. rewrite E1, E2.
    subst send_span recv_span.
    by destruct (decide (dofs_push_list = [])), (decide (dofs_fetch_list = [])).
  - subst send_span. destruct (decide (dofs_push_list = [])); [done|].
    by exists (fst sb), (snd sb).
  - subst recv_span. destruct (decide (dofs_fetch_list = [])); [done|].
    by exists (fst rb), (snd rb).
Qed.

Lemma float_max_ge_8 : 8 <= float_max.
Proof.
  unfold float_max.
  assert (H1 : / 2 ^ 52 <= 1).
  { rewrite <- Rinv_1. apply Rinv_le_contravar; [lra|]. apply pow_R1_Rle. lra. }
  assert (H2 : 2 ^ 3 <= 2 ^ 1023) by (apply Rle_pow; [lra|lia]).
  assert (H3 : 0 < 2 ^ 1023) by (apply pow_lt; lra).
  replace (2 ^ 3) with 8 in H2 by (simpl; ring). nra.
Qed.

(** Two points without an x coordinate: the x axis is degenerate, the other
    two are bounded by the points. *)
Definition nan_points : list FVec3 :=
  [FV3 NaN (Num 2) (Num 3); FV3 NaN (Num 5) (Num 1)].

Lemma spans_announced_witness :
  exists tr pts ids,
    MUI_Sampler_Define_spans_float (fetch_cfg false 1 0 true) nan_points [] [0; 1]%nat [] 10
      = Some (tr, pts, ids) /\
    send_announcements tr
      = [announce_send_span 0 10 (V3 float_max 2 1) (V3 (- float_max) 5 3) false] /\
    recv_announcements tr = [] /\
    head tr = Some (print_error "{** FENICS ERROR **} send_max_X: ").
Proof.
  pose proof float_max_ge_8 as Hmax.
  destruct (spans_announced (fetch_cfg false 1 0 true) nan_points [] [0; 1]%nat [] 10)
    as (tr & pts & ids & send_pts & recv_pts & errs & send_span & recv_span
        & Hrun & Hs & Hr & _ & Htr & Hsend & Hrecv & Hsb & Hrb).
  - reflexivity.
  - unfold nan_points, finite_point, finite_coord.
    repeat (apply Forall_cons; [cbn [fx fy fz]; repeat split; try exact I; lra|]).
    apply Forall_nil.
  - unfold nan_points. repeat (apply Forall_cons; [cbn [length]; lia|]). apply Forall_nil.
  - apply Forall_nil.
  - injection Hs as <-. injection Hr as <-.
    destruct (decide ([0; 1]%nat = [])) as [E|_]; [discriminate E|].
    destruct (decide (@nil nat = [])) as [_|E]; [|done].
    destruct Hsb as (lo & hi & Hspan & Bx & By & Bz).
    unfold axis_bounds, axis_numbers in Bx, By, Bz.
    cbn [omap list_omap fx fy fz] in Bx, By, Bz.
    destruct (proj1 Bx eq_refl) as [Hlx Hhx].
    destruct (proj2 By ltac:(discriminate)) as (Hly & Hhy & Hay).
    destruct (proj2 Bz ltac:(discriminate)) as (Hlz & Hhz & Haz).
    pose proof (Forall_inv Hay) as Hy1. pose proof (Forall_inv (Forall_inv_tail Hay)) as Hy2.
    pose proof (Forall_inv Haz) as Hz1. pose proof (Forall_inv (Forall_inv_tail Haz)) as Hz2.
    cbv beta in Hy1, Hy2, Hz1, Hz2.
    rewrite !elem_of_cons in Hly, Hhy, Hlz, Hhz.
    assert (Elo : lo = V3 float_max 2 1).
    { destruct lo as [l1 l2 l3]. cbn [vx vy vz] in *. f_equal; [done| |].
      - destruct Hly as [?|[?|Hn]]; [lra|lra|by apply elem_of_nil in Hn].
      - destruct Hlz as [?|[?|Hn]]; [lra|lra|by apply elem_of_nil in Hn]. }
    assert (Ehi : hi = V3 (- float_max) 5 3).
    { destruct hi as [h1 h2 h3]. cbn [vx vy vz] in *. f_equal; [done| |].
      - destruct Hhy as [?|[?|Hn]]; [lra|lra|by apply elem_of_nil in Hn].
      - destruct Hhz as [?|[?|Hn]]; [lra|lra|by apply elem_of_nil in Hn]. }
    exists tr, pts, ids. split_and!.
    + exact Hrun.
    + rewrite Hsend, Hspan, Elo, Ehi. reflexivity.
    + by rewrite Hrecv, Hrb.
    + rewrite Htr. reflexivity.
Defined.
